(** * keep-ecdsa: the protocol engine of the operator node, embedded and verified

    The development follows the packages of the repository:

    - [Go]          integers, byte slices and formatted errors as the Go code uses them;
    - [ecdsa], [Tss] package [tss]: signature conversion, party identifiers,
                    the size check of key generation, the start barrier;
    - [BlockCounter] package [ethereum]: [receiveBlocks], [WatchBlocks], [subscribeBlocks];
    - [LocalChain]  package [local]: [CreateKeep], [requestSignature];
    - [ECDSAKeep]   the Solidity contract: [submitSignature].

    Every function is a translation of the source function of the same name;
    the few that stand for code outside the files at hand say so. The
    definitions come first, module by module, the properties after them. *)

From Stdlib Require Import ZArith List String Ascii Strings.Byte Lia DecimalString.
From stdpp Require Import gmap strings list sorting.

Local Open Scope Z_scope.

(** ** Go values *)

Module Go.

(** What a Go call produces: a value, a returned [error] (its message), or a
    run-time panic. *)
Inductive outcome (A : Type) : Type :=
| Ret (a : A)
| Err (msg : string)
| Panic (msg : string).

Arguments Ret {A} a.
Arguments Err {A} msg.
Arguments Panic {A} msg.

(** [uint64] and [int] (64 bits wide) with their wrap-around. *)
Definition uint64_wrap (z : Z) : Z := z mod 2 ^ 64.

Definition int_wrap (z : Z) : Z := (z + 2 ^ 63) mod 2 ^ 64 - 2 ^ 63.

Definition max_uint64 : Z := 2 ^ 64 - 1.

(** [int(b)] for a [byte] b. *)
Definition int_of_byte (b : byte) : Z := Z.of_N (Byte.to_N b).

(** [new(big.Int).SetBytes(buf)]: [buf] read as a big-endian unsigned integer,
    accumulated from the most significant byte on. *)
Definition SetBytes (buf : list byte) : Z :=
  fold_left (fun acc b => acc * 256 + int_of_byte b) buf 0.

(** The big-endian value of a byte string as a positional sum: byte [i] of
    [n] weighs [256 ^ (n - 1 - i)]. *)
Fixpoint big_endian_value (buf : list byte) : Z :=
  match buf with
  | [] => 0
  | b :: rest => int_of_byte b * 256 ^ Z.of_nat (length rest) + big_endian_value rest
  end.

(** [%d] and [%v] of an integer. *)
Definition fmt_int (z : Z) : string := NilZero.string_of_int (Z.to_int z).

End Go.

Import Go.

(** ** Package ecdsa: the signature the engine emits *)

Module ecdsa.

Record Signature : Type := mkSignature {
  R : Z;
  S : Z;
  RecoveryID : Z
}.

End ecdsa.

(** ** Package tss *)

Module Tss.

(** [signing.SignatureData] of tss-lib, through the three getters the engine
    calls. *)
Record SignatureData : Type := mkSignatureData {
  GetSignatureRecovery : list byte;
  GetR : list byte;
  GetS : list byte
}.

(** [convertSignatureTSStoECDSA]. Indexing an empty recovery slice panics. *)
Definition convertSignatureTSStoECDSA (tssSignature : SignatureData)
  : outcome ecdsa.Signature :=
  let recoveryBytes := GetSignatureRecovery tssSignature in
  let recoveryInt := 0 in
  match recoveryBytes with
  | [] => Panic "runtime error: index out of range [0] with length 0"
  | b0 :: _ =>
      let recoveryInt :=
        int_wrap (Z.lor (int_wrap (Z.shiftl recoveryInt 8)) (int_of_byte b0)) in
      Ret (ecdsa.mkSignature
             (SetBytes (GetR tssSignature))
             (SetBytes (GetS tssSignature))
             recoveryInt)
  end.

(** What the signing party does once [sign] runs: [Start] fails, or the end
    channel delivers signature data, or the error channel delivers an error.
    The texts are those of [WrapError]. *)
Inductive party_run : Type :=
| StartFails (wrapped : string)
| EndsWith (signature : SignatureData)
| ErrsWith (wrapped : string).

(** [sign] / [Sign]: [party] is [None] for a nil signing party. *)
Definition sign (party : option party_run) : outcome ecdsa.Signature :=
  match party with
  | None => Err "failed to get initialized signing party"
  | Some (StartFails e) => Err ("failed to start signing: [" +:+ e +:+ "]")
  | Some (EndsWith signature) => convertSignatureTSStoECDSA signature
  | Some (ErrsWith e) => Err ("failed to sign: [" +:+ e +:+ "]")
  end.

(** *** Party identifiers *)

(** [MemberID] is converted with [string(memberID)] and compared with [==]:
    a string type. *)
Abbreviation MemberID := string (only parsing).

(** [tss.PartyID] of tss-lib. *)
Record PartyID : Type := mkPartyID {
  Id : string;
  Moniker : string;
  Key : Z;
  Index : Z
}.

(** [tss.NewPartyID]: the index is not known until the ids are sorted. *)
Definition NewPartyID (id moniker : string) (key : Z) : PartyID :=
  mkPartyID id moniker key (-1).

(** Party ids are handled through pointers ([*tss.PartyID]). The records
    they point to are kept in a store, in the order in which
    [tss.NewPartyID] allocated them, and a pointer is the position of its
    record in the store. *)
Definition allocate (records : list PartyID) (record : PartyID)
  : nat * list PartyID :=
  (length records, records ++ [record]).

(** [tss.Parameters] as [tss.NewParameters] fills it: the party ids of the
    peer context and the party id of this member are pointers, and the
    latter is [None] for a nil pointer. *)
Record Parameters : Type := NewParameters {
  Parties : list nat;
  CurrentPartyID : option nat;
  PartyCount : Z;
  Threshold : Z
}.

(** [Member]: the key-generation party is [keygen.NewLocalParty] of the
    parameters. *)
Record Member : Type := mkMember {
  tssParameters : Parameters
}.

Record groupInfo : Type := mkGroupInfo {
  groupID : string;
  memberID : MemberID;
  groupMemberIDs : list MemberID;
  dishonestThreshold : Z
}.

(** Modelled from the spec: [MemberID.bigInt] is not among the files. A
    member id is a byte string that is read as a big integer. *)
Definition bigInt_of_bytes (m : MemberID) : Z :=
  SetBytes (list_byte_of_string m).

Section KeyGeneration.

(** [MemberID.bigInt] is declared outside the files at hand; it is a
    parameter of everything below. *)
Variable bigInt : MemberID -> Z.

(** [tss.SortPartyIDs] of tss-lib is given the pointers and may write
    through them: from the store and the pointers it returns the pointers
    in its order and the store as it leaves it. *)
Variable SortPartyIDs : list PartyID -> list nat -> list nat * list PartyID.

(** The error of [NetworkBridge.start] for a group, if it has one. *)
Variable bridge_start : list MemberID -> option string.

(** The body of the [range] loop of [generatePartiesIDs], with the two
    variables it updates. The result is the triple the function returns. *)
Fixpoint generatePartiesIDs_loop (thisMemberID : MemberID)
  (members : list MemberID) (thisPartyID : option PartyID)
  (groupPartiesIDs : list PartyID)
  : option PartyID * list PartyID * option string :=
  match members with
  | [] => (thisPartyID, groupPartiesIDs, None)
  | memberID :: rest =>
      if bigInt memberID <=? 0 then
        (None, [],
         Some ("member ID must be greater than 0, but found ["
               +:+ fmt_int (bigInt memberID) +:+ "]"))
      else
        let newPartyID := NewPartyID memberID "" (bigInt memberID) in
        let thisPartyID :=
          if decide (thisMemberID = memberID) then Some newPartyID
          else thisPartyID in
        generatePartiesIDs_loop thisMemberID rest thisPartyID
          (groupPartiesIDs ++ [newPartyID])
  end.

Definition generatePartiesIDs (thisMemberID : MemberID)
  (groupMemberIDs : list MemberID)
  : option PartyID * list PartyID * option string :=
  generatePartiesIDs_loop thisMemberID groupMemberIDs None [].

(** The loop of [generatePartiesIDs] once more, with its pointers written
    out: [newPartyID] is the pointer [tss.NewPartyID] returns, the same
    pointer is kept as [thisPartyID] and appended to [groupPartiesIDs], and
    [records] is the store. [generatePartiesIDs_loop] above gives the
    records these pointers point to when the function returns. *)
Fixpoint generatePartiesIDs_pointers (thisMemberID : MemberID)
  (members : list MemberID) (thisPartyID : option nat)
  (groupPartiesIDs : list nat) (records : list PartyID)
  : option nat * list nat * list PartyID * option string :=
  match members with
  | [] => (thisPartyID, groupPartiesIDs, records, None)
  | memberID :: rest =>
      if bigInt memberID <=? 0 then
        (None, [], records,
         Some ("member ID must be greater than 0, but found ["
               +:+ fmt_int (bigInt memberID) +:+ "]"))
      else
        let '(newPartyID, records) :=
          allocate records (NewPartyID memberID "" (bigInt memberID)) in
        let thisPartyID :=
          if decide (thisMemberID = memberID) then Some newPartyID
          else thisPartyID in
        generatePartiesIDs_pointers thisMemberID rest thisPartyID
          (groupPartiesIDs ++ [newPartyID]) records
  end.

(** [initializeKeyGenerationParty]; [tssPreParams] is [None] for a nil
    pointer, whose dereference panics. The pointer [currentPartyID] is one
    of the pointers of [groupPartiesIDs] that [tss.SortPartyIDs] is given,
    so that what the sorting writes through them is seen through it. The
    result is the parameters and the store their pointers point into. *)
Definition initializeKeyGenerationParty (memberID : MemberID)
  (groupMembersIDs : list MemberID) (threshold : Z)
  (tssPreParams : option unit) : outcome (Parameters * list PartyID) :=
  match generatePartiesIDs_pointers memberID groupMembersIDs None [] [] with
  | (_, _, _, Some err) =>
      Err ("failed to generate parties IDs: [" +:+ err +:+ "]")
  | (currentPartyID, groupPartiesIDs, records, None) =>
      let '(sorted, records) := SortPartyIDs records groupPartiesIDs in
      let params :=
        NewParameters sorted currentPartyID
          (Z.of_nat (length groupPartiesIDs)) threshold in
      match tssPreParams with
      | None => Panic "invalid memory address or nil pointer dereference"
      | Some _ =>
          match bridge_start groupMembersIDs with
          | Some err =>
              Err ("failed to connect bridge network: [" +:+ err +:+ "]")
          | None => Ret (params, records)
          end
      end
  end.

(** [InitializeKeyGeneration]; [threshold] is an [int]. The member is
    returned with the store its parameters point into. *)
Definition InitializeKeyGeneration (memberID : MemberID)
  (groupMemberIDs : list MemberID) (threshold : Z)
  (tssPreParams : option unit) : outcome (Member * list PartyID) :=
  if Z.of_nat (length groupMemberIDs) <=? threshold then
    Err ("group size [" +:+ fmt_int (Z.of_nat (length groupMemberIDs))
         +:+ "], should be greater than threshold ["
         +:+ fmt_int threshold +:+ "]")
  else
    match initializeKeyGenerationParty memberID groupMemberIDs threshold
            tssPreParams with
    | Err err =>
        Err ("failed to initialize key generation member: [" +:+ err +:+ "]")
    | Panic msg => Panic msg
    | Ret (params, records) => Ret (mkMember params, records)
    end.

(** [keygen.GeneratePreParams] with its timeout in seconds. *)
Variable keygen_GeneratePreParams : Z -> outcome unit.

Definition preParamsGenerationTimeout : Z := 90.

Definition GenerateTSSPreParams : outcome unit :=
  match keygen_GeneratePreParams preParamsGenerationTimeout with
  | Err err => Err ("failed to generate tss pre-params: [" +:+ err +:+ "]")
  | other => other
  end.

(** The unexported [initializeKeyGeneration] of the group-info revision is
    not among the files; the key-generation signer it returns is kept
    abstract. *)
Variable keyGenSigner : Type.
Variable initializeKeyGeneration : groupInfo -> unit -> outcome keyGenSigner.

(** [GenerateThresholdSigner] up to the point where the signer is
    initialized (the statements before the synchronization on
    [KeyGenSync]); [dishonestThreshold] is a [uint], converted with
    [int(dishonestThreshold)]. *)
Definition GenerateThresholdSigner_initialize (groupID : string)
  (memberID : MemberID) (groupMemberIDs : list MemberID)
  (dishonestThreshold : Z) (tssPreParams : option unit)
  : outcome keyGenSigner :=
  if Z.of_nat (length groupMemberIDs) <? 1 then
    Err "group should have at least one member"
  else if Z.of_nat (length groupMemberIDs) <=? int_wrap dishonestThreshold then
    Err ("group size [" +:+ fmt_int (Z.of_nat (length groupMemberIDs))
         +:+ "], should be greater than dishonest threshold ["
         +:+ fmt_int dishonestThreshold +:+ "]")
  else
    let group :=
      mkGroupInfo groupID memberID groupMemberIDs
        (int_wrap dishonestThreshold) in
    match tssPreParams with
    | Some params => initializeKeyGeneration group params
    | None =>
        match GenerateTSSPreParams with
        | Ret params => initializeKeyGeneration group params
        | Err err => Err err
        | Panic msg => Panic msg
        end
    end.

End KeyGeneration.

(** *** The start barrier: [KeyGenSync] and [SigningSync]

    Both [GenerateThresholdSigner] and [CalculateSignature] initialize their
    party, then run [Done] and [Wait] on a package-level [sync.WaitGroup],
    then start the party ([generateKey], [sign]). The members of one process
    share the wait group; the system below interleaves their steps. *)

(** [sync.WaitGroup]: its counter. [Done] is [Add(-1)] and panics on a
    negative counter; [Wait] returns once the counter is zero. *)
Definition WaitGroup_Done (counter : Z) : outcome Z :=
  if counter - 1 <? 0 then Panic "sync: negative WaitGroup counter"
  else Ret (counter - 1).

Definition WaitGroup_Wait_returns (counter : Z) : bool := counter =? 0.

(** Where one member stands in [GenerateThresholdSigner] or
    [CalculateSignature]. *)
Inductive phase : Type :=
| Initializing            (* before the party is initialized *)
| Returned (err : string) (* returned an error before the barrier *)
| Initialized             (* party initialized, [Done] not yet called *)
| Waiting                 (* [Done] called, blocked in [Wait] *)
| Started                 (* [Wait] returned, the party is being started *)
| Crashed.                (* [Done] panicked *)

Record session : Type := mkSession {
  sync : Z;                (* the wait group's counter *)
  phases : list phase;     (* one entry per member of the group *)
  elapsed : Z              (* seconds since the session began *)
}.

Inductive step : session -> session -> Prop :=
| step_initialized (s : session) (i : nat) :
    phases s !! i = Some Initializing ->
    step s (mkSession (sync s) (<[i := Initialized]> (phases s)) (elapsed s))
| step_returned (s : session) (i : nat) (err : string) :
    phases s !! i = Some Initializing ->
    step s (mkSession (sync s) (<[i := Returned err]> (phases s)) (elapsed s))
| step_done (s : session) (i : nat) (counter : Z) :
    phases s !! i = Some Initialized ->
    WaitGroup_Done (sync s) = Ret counter ->
    step s (mkSession counter (<[i := Waiting]> (phases s)) (elapsed s))
| step_done_panic (s : session) (i : nat) (msg : string) :
    phases s !! i = Some Initialized ->
    WaitGroup_Done (sync s) = Panic msg ->
    step s (mkSession (sync s) (<[i := Crashed]> (phases s)) (elapsed s))
| step_wait (s : session) (i : nat) :
    phases s !! i = Some Waiting ->
    WaitGroup_Wait_returns (sync s) = true ->
    step s (mkSession (sync s) (<[i := Started]> (phases s)) (elapsed s))
| step_second (s : session) :
    step s (mkSession (sync s) (phases s) (elapsed s + 1)).

Inductive steps : session -> session -> Prop :=
| steps_refl (s : session) : steps s s
| steps_next (s1 s2 s3 : session) : steps s1 s2 -> step s2 s3 -> steps s1 s3.

(** A session of [n] members whose caller added [n] to the wait group. *)
Definition session_start (n : nat) : session :=
  mkSession (Z.of_nat n) (replicate n Initializing) 0.

(** A member has signalled that it is initialized. *)
Definition signalled (p : phase) : bool :=
  match p with
  | Waiting | Started => true
  | _ => false
  end.

(** How many members have not signalled yet. *)
Fixpoint unsignalled (ps : list phase) : Z :=
  match ps with
  | [] => 0
  | p :: rest => (if signalled p then 0 else 1) + unsignalled rest
  end.

(** What holds of every session the steps reach: the counter is the number
    of members that have not signalled, and it is zero once a member has
    started. *)
Definition barrier_inv (n : nat) (s : session) : Prop :=
  length (phases s) = n /\
  sync s = unsignalled (phases s) /\
  ((exists i, phases s !! i = Some Started) -> sync s = 0).

(** The barrier as the specification words it: the wait of a member is
    bounded; from [timeout] seconds on, a member that still waits can leave
    the wait, by starting or by failing. *)
Definition wait_is_bounded (n : nat) (timeout : Z) : Prop :=
  forall s i,
    steps (session_start n) s ->
    timeout <= elapsed s ->
    phases s !! i = Some Waiting ->
    exists s',
      steps s s' /\
      (phases s' !! i = Some Started \/
       exists err, phases s' !! i = Some (Returned err)).

(** Two sessions used below. In the first, of three members, two wait and
    the third has returned an error before the barrier, sixty seconds ago;
    in the second, of two members, both have started. *)
Definition stuck_session : session :=
  mkSession 1 [Waiting; Waiting; Returned "failed to initialize signer"] 60.

Definition started_session : session :=
  mkSession 0 [Started; Started] 0.

(** What [GenerateThresholdSigner] goes on with once both size checks have
    passed. *)
Definition after_size_check (keygen_GeneratePreParams : Z -> outcome unit)
  (keyGenSigner : Type)
  (initializeKeyGeneration : groupInfo -> unit -> outcome keyGenSigner)
  (group : groupInfo) (tssPreParams : option unit) : outcome keyGenSigner :=
  match tssPreParams with
  | Some params => initializeKeyGeneration group params
  | None =>
      match GenerateTSSPreParams keygen_GeneratePreParams with
      | Ret params => initializeKeyGeneration group params
      | Err err => Err err
      | Panic msg => Panic msg
      end
  end.

(** The party id [generatePartiesIDs] makes for a member, and the party of
    this member: the one made for the last entry equal to it. *)
Definition party_of (bigInt : MemberID -> Z) (m : MemberID) : PartyID :=
  NewPartyID m "" (bigInt m).

Definition this_party (bigInt : MemberID -> Z) (thisMemberID : MemberID)
  (members : list MemberID) (before : option PartyID) : option PartyID :=
  fold_left
    (fun acc m =>
       if decide (thisMemberID = m) then Some (party_of bigInt m) else acc)
    members before.

(** The pointer of this member when the pointers of [members] are
    allocated from [next] on: the one allocated for the last entry equal to
    it. *)
Fixpoint this_pointer (thisMemberID : MemberID) (members : list MemberID)
  (next : nat) (before : option nat) : option nat :=
  match members with
  | [] => before
  | m :: rest =>
      this_pointer thisMemberID rest (Datatypes.S next)
        (if decide (thisMemberID = m) then Some next else before)
  end.

(** What a pointer, and what a list of pointers, points to in a store. *)
Definition read (records : list PartyID) (pointer : option nat)
  : option PartyID :=
  pointer ≫= (fun p => records !! p).

Definition read_all (records : list PartyID) (pointers : list nat)
  : list PartyID :=
  omap (fun p => records !! p) pointers.

(** A sorting for the examples: it keeps the order it is given and
    assigns, through each pointer, the position of the pointer as
    [Index]. *)
Definition assign_index (records : list PartyID) (position : nat) (p : nat)
  : list PartyID :=
  match records !! p with
  | Some r =>
      <[p := mkPartyID (Id r) (Moniker r) (Key r) (Z.of_nat position)]> records
  | None => records
  end.

Fixpoint assign_indexes (records : list PartyID) (position : nat)
  (pointers : list nat) : list PartyID :=
  match pointers with
  | [] => records
  | p :: rest =>
      assign_indexes (assign_index records position p) (Datatypes.S position) rest
  end.

Definition sort_in_order (records : list PartyID) (pointers : list nat)
  : list nat * list PartyID :=
  (pointers, assign_indexes records 0 pointers).

End Tss.

(** ** Package ethereum: the block counter *)

Module BlockCounter.

(** Channels and contexts are identified by numbers; [make(chan uint64)]
    takes the next unused one. A [*watcher] is identified by its fields. *)
Record watcher : Type := mkWatcher {
  ctx : nat;
  channel : nat
}.

#[export] Instance watcher_eq_dec : EqDecision watcher.
Proof. solve_decision. Defined.

Record ethereumBlockCounter : Type := mkCounter {
  latestBlockHeight : Z;
  waiters : gmap Z (list nat);
  watchers : list watcher
}.

(** What the counter does to the channels it holds, in the order it does
    it. *)
Inductive effect : Type :=
| Registered (w : nat) (height : Z)   (* a waiter entered the map *)
| Immediate (w : nat) (height : Z)    (* a wait for a height already seen *)
| Woken (w : nat) (height : Z)        (* go func(w) { w <- height }(waiter) *)
| Delivered (ch : nat) (height : Z)   (* case watcher.channel <- height *)
| Dropped (ch : nat) (height : Z)     (* default *)
| Closed (ch : nat).                  (* close(watcher.channel) *)

(** Where [receiveBlocks] stands: blocked on [subscriptionChannel], or in
    the inner [for] with its loop variable and bound. *)
Inductive control : Type :=
| Receiving
| Looping (unseenBlockNumber receivedBlockHeight : Z).

Record world : Type := mkWorld {
  ebc : ethereumBlockCounter;
  pc : control;
  cancelled : gset nat;      (* contexts with [ctx.Err() != nil] *)
  closed : gset nat;         (* closed channels *)
  next_chan : nat;           (* the next channel [make] returns *)
  log : list effect;
  crash : option string      (* the panic that ended the process *)
}.

(** [Uint64] of a [big.Int]: the low 64 bits of the absolute value. *)
Definition Uint64 (x : Z) : Z := Z.abs x mod 2 ^ 64.

(** The [range watchers] loop of [receiveBlocks] over the copied slice:
    the channels closed once it ends, what it did to the channels, in order,
    and the panic that ended it, if any. [ready ch] tells whether a receiver
    is blocked on [ch] when the [select] runs. Closing a closed channel and
    sending on a closed channel panic. *)
Fixpoint notify_watchers (cancelled : gset nat) (ready : nat -> bool)
  (height : Z) (ws : list watcher) (closed : gset nat)
  : gset nat * list effect * option string :=
  match ws with
  | [] => (closed, [], None)
  | watcher :: rest =>
      if decide (ctx watcher ∈ cancelled) then
        if decide (channel watcher ∈ closed) then
          (closed, [], Some "close of closed channel")
        else
          let '(closed', effects, panic) :=
            notify_watchers cancelled ready height rest
              ({[channel watcher]} ∪ closed) in
          (closed', Closed (channel watcher) :: effects, panic)
      else if decide (channel watcher ∈ closed) then
        (closed, [], Some "send on closed channel")
      else
        let '(closed', effects, panic) :=
          notify_watchers cancelled ready height rest closed in
        if ready (channel watcher) then
          (closed', Delivered (channel watcher) height :: effects, panic)
        else
          (closed', Dropped (channel watcher) height :: effects, panic)
  end.

(** What the loop over the watchers [ws] can do at [height]. *)
Definition watcher_effect (ready : nat -> bool) (height : Z)
  (ws : list watcher) (e : effect) : Prop :=
  (exists c, e = Closed c) \/
  (exists c, e = Delivered c height /\ ready c = true /\ c ∈ channel <$> ws) \/
  (exists c, e = Dropped c height /\ ready c = false /\ c ∈ channel <$> ws).

(** One pass of the body of the inner [for] of [receiveBlocks]. *)
Definition receiveBlocks_body (ready : nat -> bool) (unseenBlockNumber : Z)
  (w : world) : world :=
  let height := unseenBlockNumber in
  let latest := uint64_wrap (latestBlockHeight (ebc w) + 1) in
  let woken := default [] (waiters (ebc w) !! height) in
  let remaining := delete height (waiters (ebc w)) in
  let wakes := (fun waiter => Woken waiter height) <$> woken in
  let copied := watchers (ebc w) in
  let '(closed', effects, panic) :=
    notify_watchers (cancelled w) ready height copied (closed w) in
  mkWorld (mkCounter latest remaining (watchers (ebc w)))
    (pc w) (cancelled w) closed' (next_chan w)
    (log w ++ wakes ++ effects) panic.

(** [receiveBlocks], a statement at a time. [receive_block] takes a block
    from [subscriptionChannel]; [iterate] evaluates the condition of the
    inner [for] and runs its body and its post statement once. *)
Definition receive_block (number : Z) (w : world) : world :=
  match pc w with
  | Looping _ _ => w
  | Receiving =>
      let receivedBlockHeight := Uint64 number in
      if receivedBlockHeight =? latestBlockHeight (ebc w) then w
      else
        mkWorld (ebc w)
          (Looping (uint64_wrap (latestBlockHeight (ebc w) + 1))
             receivedBlockHeight)
          (cancelled w) (closed w) (next_chan w) (log w) (crash w)
  end.

Definition iterate (ready : nat -> bool) (w : world) : world :=
  match pc w with
  | Receiving => w
  | Looping unseenBlockNumber receivedBlockHeight =>
      if unseenBlockNumber <=? receivedBlockHeight then
        let w' := receiveBlocks_body ready unseenBlockNumber w in
        mkWorld (ebc w')
          (Looping (uint64_wrap (unseenBlockNumber + 1)) receivedBlockHeight)
          (cancelled w') (closed w') (next_chan w') (log w') (crash w')
      else
        mkWorld (ebc w) Receiving (cancelled w) (closed w) (next_chan w)
          (log w) (crash w)
  end.

(** [WatchBlocks] up to its [return]: a new watcher with a new channel is
    appended. *)
Definition WatchBlocks (c : nat) (w : world) : world :=
  let watcher := mkWatcher c (next_chan w) in
  mkWorld
    (mkCounter (latestBlockHeight (ebc w)) (waiters (ebc w))
       (watchers (ebc w) ++ [watcher]))
    (pc w) (cancelled w) (closed w) (Datatypes.S (next_chan w)) (log w)
    (crash w).

(** The goroutine [WatchBlocks] leaves behind: once the context is done, the
    first entry equal to the watcher is overwritten with the last one and
    the slice shrinks by one. *)
Fixpoint find_watcher (target : watcher) (ws : list watcher) : option nat :=
  match ws with
  | [] => None
  | w :: rest =>
      if decide (w = target) then Some 0%nat
      else Datatypes.S <$> find_watcher target rest
  end.

Definition remove_watcher (target : watcher) (ws : list watcher)
  : list watcher :=
  match find_watcher target ws with
  | None => ws
  | Some i =>
      take (length ws - 1)%nat (<[i := default target (last ws)]> ws)
  end.

Definition unwatch (target : watcher) (w : world) : world :=
  if decide (ctx target ∈ cancelled w) then
    mkWorld
      (mkCounter (latestBlockHeight (ebc w)) (waiters (ebc w))
         (remove_watcher target (watchers (ebc w))))
      (pc w) (cancelled w) (closed w) (next_chan w) (log w) (crash w)
  else w.

Definition cancel (c : nat) (w : world) : world :=
  mkWorld (ebc w) (pc w) ({[c]} ∪ cancelled w) (closed w) (next_chan w)
    (log w) (crash w).

(** Modelled from the spec: [WaitForBlockHeight], which fills the [waiters]
    map, is not among the files. A call with a height that is at most the
    latest one returns at once; any other call makes a channel, appends it
    to the waiters of its height and blocks on it. *)
Definition WaitForBlockHeight (height : Z) (w : world) : world :=
  let waiter := next_chan w in
  if height <=? latestBlockHeight (ebc w) then
    mkWorld (ebc w) (pc w) (cancelled w) (closed w)
      (Datatypes.S (next_chan w)) (log w ++ [Immediate waiter height])
      (crash w)
  else
    let waiterList := default [] (waiters (ebc w) !! height) in
    mkWorld
      (mkCounter (latestBlockHeight (ebc w))
         (<[height := waiterList ++ [waiter]]> (waiters (ebc w)))
         (watchers (ebc w)))
      (pc w) (cancelled w) (closed w) (Datatypes.S (next_chan w))
      (log w ++ [Registered waiter height]) (crash w).

(** The goroutines of the process, interleaved. *)
Inductive event : Type :=
| Block (number : Z)
| Iterate (ready : nat -> bool)
| CallWatchBlocks (c : nat)
| ContextDone (c : nat)
| Unwatch (target : watcher)
| CallWaitForBlockHeight (height : Z).

(** A panic ends the process: nothing runs after it. *)
Definition step (w : world) (e : event) : world :=
  match crash w with
  | Some _ => w
  | None =>
      match e with
      | Block number => receive_block number w
      | Iterate ready => iterate ready w
      | CallWatchBlocks c => WatchBlocks c w
      | ContextDone c => cancel c w
      | Unwatch target => unwatch target w
      | CallWaitForBlockHeight height => WaitForBlockHeight height w
      end
  end.

Definition run (events : list event) (w : world) : world :=
  fold_left step events w.

(** [createBlockCounter]: the counter starts at the height of the startup
    block, with no waiter and no watcher. *)
Definition createBlockCounter (startupBlock : Z) : world :=
  mkWorld (mkCounter (Uint64 startupBlock) ∅ []) Receiving ∅ ∅ 0%nat [] None.

(** The heights a consumer received on [ch], oldest first. *)
Definition delivered_to (ch : nat) (l : list effect) : list Z :=
  omap (fun e =>
          match e with
          | Delivered c h => if decide (c = ch) then Some h else None
          | _ => None
          end) l.

(** How often the waiter [w] was woken. *)
Definition woken_at (w : nat) (l : list effect) : list Z :=
  omap (fun e =>
          match e with
          | Woken c h => if decide (c = w) then Some h else None
          | _ => None
          end) l.

Definition times_woken (w : nat) (l : list effect) : nat :=
  length (woken_at w l).

(** Block numbers below the largest [uint64]: the inner loop, whose
    condition is [unseenBlockNumber <= receivedBlockHeight], ends only for
    such a bound. *)
Definition below_max (number : Z) : Prop := Uint64 number < max_uint64.

Definition event_below_max (e : event) : Prop :=
  forall number, e = Block number -> below_max number.

Definition blocks_below_max (events : list event) : Prop :=
  forall number, Block number ∈ events -> below_max number.

(** What every world the events reach satisfies, given block numbers below
    the largest [uint64]. First, the loop variable runs one ahead of the
    latest height. *)
Definition counter_ok (w : world) : Prop :=
  0 <= latestBlockHeight (ebc w) < max_uint64 /\
  match pc w with
  | Receiving => True
  | Looping u r => u = latestBlockHeight (ebc w) + 1 /\ r < max_uint64
  end.

(** Second, the watchers hold distinct channels, and nothing above the
    latest height was offered to them. *)
Definition watchers_ok (w : world) : Prop :=
  NoDup (channel <$> watchers (ebc w)) /\
  (forall x, x ∈ watchers (ebc w) -> (channel x < next_chan w)%nat) /\
  (forall c h, Delivered c h ∈ log w -> h <= latestBlockHeight (ebc w)) /\
  (forall c h, Dropped c h ∈ log w ->
     h <= latestBlockHeight (ebc w) /\ Delivered c h ∉ log w) /\
  (forall c, StronglySorted Z.lt (delivered_to c (log w))).

(** Third, the map holds waiters of heights to come, each registered once,
    and the waiters woken so far were registered at a height that has
    come. *)
Definition waiters_ok (w : world) : Prop :=
  (forall h ws, waiters (ebc w) !! h = Some ws ->
     latestBlockHeight (ebc w) < h /\ NoDup ws /\
     forall c, c ∈ ws -> Registered c h ∈ log w) /\
  (forall c h, Woken c h ∈ log w ->
     h <= latestBlockHeight (ebc w) /\ Registered c h ∈ log w) /\
  (forall c h, Registered c h ∈ log w -> (c < next_chan w)%nat) /\
  (forall c h h', Registered c h ∈ log w -> Registered c h' ∈ log w -> h = h') /\
  (forall c, (times_woken c (log w) <= 1)%nat).

Definition world_ok (w : world) : Prop :=
  counter_ok w /\ watchers_ok w /\ waiters_ok w.

(** Two runs used below. In the first the counter starts at height 100, a
    caller waits for height 105, a consumer watches and is always ready,
    and the heights 101 to 105 arrive one block at a time. In the second
    one block takes the counter from 100 to 103 while the consumer is ready
    for the first and the last height only. *)
Definition always_ready : nat -> bool := fun _ => true.

Definition one_block (number : Z) : list event :=
  [Block number; Iterate always_ready; Iterate always_ready].

Definition liveness_events : list event :=
  [CallWaitForBlockHeight 105; CallWatchBlocks 0]
  ++ one_block 101 ++ one_block 102 ++ one_block 103 ++ one_block 104
  ++ one_block 105.

(** Two more runs: a watcher whose context is done stays in the list for
    two passes; and a block with the largest [uint64] as its number arrives
    when the counter stands one below. *)
Definition stale_watcher_events : list event :=
  [CallWatchBlocks 0; ContextDone 0] ++ one_block 101
  ++ [Block 102; Iterate always_ready].

Definition largest_block_events : list event :=
  [Block max_uint64; Iterate always_ready; Iterate always_ready].

Definition slow_consumer_events : list event :=
  [CallWatchBlocks 0; CallWaitForBlockHeight 102; Block 103;
   Iterate always_ready; Iterate (fun _ => false); Iterate always_ready;
   Iterate always_ready].

(** *** [subscribeBlocks] *)

(** How one call of the closure [subscribe] ends: [SubscribeNewHead] returns
    an error, or the subscription hands over some headers (their numbers)
    and then reports an error. *)
Inductive attempt : Type :=
| SubscribeFails (err : string)
| Interrupted (headers : list Z) (err : string).

Inductive action : Type :=
| LogDebug (msg : string)
| LogWarning (msg : string)
| SubscribeNewHead (timeout : Z)   (* seconds *)
| Forward (number : Z)             (* ebc.subscriptionChannel <- number *)
| Unsubscribe
| ReportError (err : string)       (* errorChan <- err *)
| Sleep (seconds : Z).

Definition subscribe_begin : list action :=
  [LogDebug "subscribing to new blocks"; SubscribeNewHead 10].

Definition subscribe (a : attempt) : list action :=
  subscribe_begin ++
  match a with
  | SubscribeFails err =>
      [LogWarning
         ("could not create subscription to new blocks: [" +:+ err +:+ "]");
       ReportError err]
  | Interrupted headers err =>
      (Forward <$> headers) ++
      [LogWarning
         ("subscription to new blocks interrupted: [" +:+ err +:+ "]");
       Unsubscribe;
       ReportError err]
  end.

(** The goroutine [for { go subscribe(); <-errorChan; time.Sleep(5 *
    time.Second) }], given the attempts that have failed so far; the last
    attempt is the one still running. *)
Fixpoint resubscribe (failed : list attempt) : list action :=
  match failed with
  | [] => subscribe_begin
  | a :: rest => subscribe a ++ [Sleep 5] ++ resubscribe rest
  end.

(** [subscribeBlocks] itself, after it has left the goroutine behind:
    [lastBlock] is what [client.BlockByNumber] returns, the number of the
    latest block or an error. *)
Definition subscribeBlocks (lastBlock : Z + string)
  : list action * option string :=
  match lastBlock with
  | inl number => ([Forward number], None)
  | inr err => ([], Some err)
  end.

Definition sleeps (l : list action) : list Z :=
  omap (fun a => match a with Sleep d => Some d | _ => None end) l.

Definition warnings (l : list action) : list string :=
  omap (fun a => match a with LogWarning m => Some m | _ => None end) l.

Definition subscriptions (l : list action) : nat :=
  length (omap (fun a => match a with SubscribeNewHead t => Some t | _ => None end) l).

(** The block numbers that reach [receiveBlocks], as its events. *)
Definition forwarded (l : list action) : list event :=
  omap (fun a => match a with Forward n => Some (Block n) | _ => None end) l.

Definition failure_text (a : attempt) : string :=
  match a with
  | SubscribeFails err =>
      "could not create subscription to new blocks: [" +:+ err +:+ "]"
  | Interrupted _ err =>
      "subscription to new blocks interrupted: [" +:+ err +:+ "]"
  end.

Definition headers_of (a : attempt) : list Z :=
  match a with
  | SubscribeFails _ => []
  | Interrupted headers _ => headers
  end.

(** A bounded exponential backoff that starts at [first]: the delays grow by
    a factor above one until they meet a bound above the first delay. *)
Definition exponential_backoff (first : Z) (delays : list Z) : Prop :=
  exists factor bound,
    1 < factor /\ first < bound /\
    forall k d, delays !! k = Some d ->
      d = Z.min bound (first * factor ^ Z.of_nat k).

(** *** One block, start to end *)

(** A block taken from the channel and the passes of the inner loop that
    follow it, with no other goroutine in between. *)
Definition receive (number : Z) (readys : list (nat -> bool)) : list event :=
  Block number :: (Iterate <$> readys).

(** The sending goroutines started so far ([go func(w) { w <- height }]),
    each as its waiter and the height it sends, in the order of the [go]
    statements. *)
Definition woken_events (l : list effect) : list (nat * Z) :=
  omap (fun e => match e with Woken c h => Some (c, h) | _ => None end) l.

(** The waiters the map [m] holds for the [count] heights from [u] on, in
    the order of the heights and, within a height, of their registration. *)
Fixpoint waiters_from (m : gmap Z (list nat)) (u : Z) (count : nat)
  : list (nat * Z) :=
  match count with
  | O => []
  | Datatypes.S k =>
      ((fun c => (c, u)) <$> default [] (m !! u)) ++ waiters_from m (u + 1) k
  end.

(** The heights, among the [count] heights from [u] on, at whose pass a
    receiver was blocked on [ch]. *)
Fixpoint heights_taken (ch : nat) (readys : list (nat -> bool)) (u : Z)
  (count : nat) : list Z :=
  match count, readys with
  | Datatypes.S k, ready :: rest =>
      (if ready ch then [u] else []) ++ heights_taken ch rest (u + 1) k
  | _, _ => []
  end.

(** The subscriptions and the sleeps of [subscribeBlocks], in order. *)
Definition pace (l : list action) : list action :=
  omap (fun a => match a with
                 | SubscribeNewHead _ | Sleep _ => Some a
                 | _ => None
                 end) l.

(** Every listed watcher holds a channel that [make] has already handed
    out; this needs no bound on the block numbers. *)
Definition channels_made (w : world) : Prop :=
  forall x, x ∈ watchers (ebc w) -> (channel x < next_chan w)%nat.

End BlockCounter.

(** ** Package local: the in-memory chain *)

Module LocalChain.

(** [common.Address]: twenty bytes, read as a number. *)
Abbreviation Address := N (only parsing).

Record ECDSAKeepCreatedEvent : Type := mkKeepCreated {
  KeepAddress : Address;
  Members : list Address
}.

Record SignatureRequestedEvent : Type := mkSignatureRequested {
  Digest : list byte
}.

(** Handlers are functions of the caller; they are identified by numbers.
    Both handler tables are maps from [int], as [make(map[int]func(...))]
    in [CreateKeep] shows for the first. *)
Record localKeep : Type := mkLocalKeep {
  signatureRequestedHandlers : gmap Z nat;
  publicKey : list byte
}.

Record LocalChain : Type := mkLocalChain {
  keeps : gmap N localKeep;
  keepCreatedHandlers : gmap Z nat
}.

(** A goroutine started with [go]: the handler and the event it is called
    with. *)
Inductive spawned : Type :=
| KeepCreated (handler : nat) (event : ECDSAKeepCreatedEvent)
| SignatureRequested (handler : nat) (event : SignatureRequestedEvent).

(** [[64]byte{}]. *)
Definition zero_public_key : list byte := replicate 64 x00.

Section Chain.

(** [Address.String] of go-ethereum. *)
Variable Address_String : Address -> string.

(** [CreateKeep]: the chain after the call, the goroutines it started (a
    [range] over a map visits the handlers in no fixed order), and the
    error it returns. *)
Definition CreateKeep (c : LocalChain) (keepAddress : Address)
  (members : list Address) : LocalChain * list spawned * option string :=
  match keeps c !! keepAddress with
  | Some _ =>
      (c, [],
       Some ("keep already exists for address ["
             +:+ Address_String keepAddress +:+ "]"))
  | None =>
      let localKeep := mkLocalKeep ∅ zero_public_key in
      let c' :=
        mkLocalChain (<[keepAddress := localKeep]> (keeps c))
          (keepCreatedHandlers c) in
      let keepCreatedEvent := mkKeepCreated keepAddress members in
      (c',
       (fun kh => KeepCreated kh.2 keepCreatedEvent)
         <$> map_to_list (keepCreatedHandlers c),
       None)
  end.

(** Modelled from the spec: [requestSignature] of the in-memory chain is not
    among the files, only its test is. A request for an address that is
    not in the keep map returns the error
    "failed to find keep with address: [<address>]" and has no other
    effect; a request for a known keep calls every signature-requested
    handler of that keep with the digest. *)
Definition requestSignature (c : LocalChain) (keepAddress : Address)
  (digest : list byte) : LocalChain * list spawned * option string :=
  match keeps c !! keepAddress with
  | None =>
      (c, [],
       Some ("failed to find keep with address: ["
             +:+ Address_String keepAddress +:+ "]"))
  | Some keep =>
      (c,
       (fun kh => SignatureRequested kh.2 (mkSignatureRequested digest))
         <$> map_to_list (signatureRequestedHandlers keep),
       None)
  end.

End Chain.

(** The plain hexadecimal form of an address: [0x] and forty digits.
    [Address.String] differs from it only in the case of the letters. *)
Definition hex_digit (n : N) : ascii :=
  match n with
  | 0 => "0" | 1 => "1" | 2 => "2" | 3 => "3" | 4 => "4" | 5 => "5"
  | 6 => "6" | 7 => "7" | 8 => "8" | 9 => "9" | 10 => "a" | 11 => "b"
  | 12 => "c" | 13 => "d" | 14 => "e" | _ => "f"
  end%N%char.

Fixpoint hex_digits (count : nat) (n : N) (acc : string) : string :=
  match count with
  | O => acc
  | Datatypes.S count' =>
      hex_digits count' (n / 16)%N (String (hex_digit (n mod 16)%N) acc)
  end.

Definition Address_Hex (a : Address) : string :=
  "0x" +:+ hex_digits 40 a "".

(** [initializeLocalChain]. *)
Definition initializeLocalChain : LocalChain := mkLocalChain ∅ ∅.

End LocalChain.

(** ** The contract ECDSAKeep *)

Module ECDSAKeep.

Inductive log_entry : Type :=
| PublicKeyPublished (publicKey : list byte)
| SignatureRequested (digest : Z)
| SignatureSubmitted (digest r s : Z) (recoveryID : Z).

(** A call either succeeds with the new storage and the events it emitted,
    or reverts with the reason of the failed [require]. *)
Inductive call (A : Type) : Type :=
| Success (a : A)
| Revert (reason : string).

Arguments Success {A} a.
Arguments Revert {A} reason.

Record storage : Type := mkStorage {
  owner : Z;
  members : list Z;
  honestThreshold : Z;
  publicKey : list byte;
  currentSigningStartBlock : Z
}.

(** The storage and the log after a signature was accepted. *)
Definition signature_submitted (st : storage) (_digest _r _s : Z)
  (_recoveryID : byte) : storage * list log_entry :=
  (mkStorage (owner st) (members st) (honestThreshold st) (publicKey st) 0,
   [SignatureSubmitted _digest _r _s (int_of_byte _recoveryID)]).

Section EVM.

(** The two primitives of the EVM the contract calls. *)
Variable keccak256 : list byte -> Z.
Variable ecrecover : Z -> Z -> Z -> Z -> Z.

Definition isSigningInProgress (st : storage) : bool :=
  negb (currentSigningStartBlock st =? 0).

(** [address(uint160(uint256(keccak256(_publicKey))))]. *)
Definition publicKeyToAddress (_publicKey : list byte) : Z :=
  (keccak256 _publicKey mod 2 ^ 256) mod 2 ^ 160.

(** Modelled from the spec: [AddressArrayUtils.contains] is not among the
    files; the modifier [onlyMember] lets through a caller that is one of
    the keep members. *)
Definition contains (self : list Z) (a : Z) : bool :=
  bool_decide (a ∈ self).

(** [submitSignature] under its modifier [onlyMember]; [_recoveryID] is a
    [uint8], and so is [_v], whose sum wraps at 256. *)
Definition submitSignature (msg_sender : Z) (st : storage)
  (_digest _r _s : Z) (_recoveryID : byte)
  : call (storage * list log_entry) :=
  if negb (contains (members st) msg_sender) then
    Revert "Caller is not the keep member"
  else if negb (isSigningInProgress st) then
    Revert "Signature has been already submitted"
  else if negb (int_of_byte _recoveryID <? 4) then
    Revert "Recovery ID must be one of {0, 1, 2, 3}"
  else
    let _v := (27 + int_of_byte _recoveryID) mod 256 in
    if negb (publicKeyToAddress (publicKey st)
             =? ecrecover _digest _v _r _s) then
      Revert "Invalid signature"
    else
      Success
        (mkStorage (owner st) (members st) (honestThreshold st)
           (publicKey st) 0,
         [SignatureSubmitted _digest _r _s (int_of_byte _recoveryID)]).

End EVM.

(** *** The other functions of the contract *)

(** [Ownable.onlyOwner] of OpenZeppelin: the caller is the owner. *)
Definition onlyOwner (msg_sender : Z) (st : storage) : bool :=
  msg_sender =? owner st.

(** [sign] under its modifier [onlyOwner]; [block_number] is
    [block.number]. *)
Definition sign (msg_sender block_number : Z) (st : storage) (_digest : Z)
  : call (storage * list log_entry) :=
  if negb (onlyOwner msg_sender st) then
    Revert "Ownable: caller is not the owner"
  else if negb (negb (isSigningInProgress st)) then
    Revert "Signer is busy"
  else
    Success
      (mkStorage (owner st) (members st) (honestThreshold st) (publicKey st)
         block_number,
       [SignatureRequested _digest]).

(** [setPublicKey] under its modifier [onlyMember], and [getPublicKey]. *)
Definition setPublicKey (msg_sender : Z) (st : storage)
  (_publicKey : list byte) : call (storage * list log_entry) :=
  if negb (contains (members st) msg_sender) then
    Revert "Caller is not the keep member"
  else if negb (length _publicKey =? 64)%nat then
    Revert "Public key must be 64 bytes long"
  else
    Success
      (mkStorage (owner st) (members st) (honestThreshold st) _publicKey
         (currentSigningStartBlock st),
       [PublicKeyPublished _publicKey]).

Definition getPublicKey (st : storage) : list byte := publicKey st.

(** The loop of [distributeETHToMembers]: [for (uint16 i = 0; i <
    memberCount; i++) members[i].send(dividend)], with the sends made so
    far. The counter wraps at [2 ^ 16]; [gas] bounds the passes, and the
    loop that exhausts it has no result. The value [send] returns is not
    looked at. *)
Fixpoint distribute_loop (gas : nat) (i : Z) (members : list Z)
  (dividend : Z) (sent : list (Z * Z)) : option (list (Z * Z)) :=
  match gas with
  | O => None
  | Datatypes.S gas' =>
      if i <? Z.of_nat (length members) then
        match members !! Z.to_nat i with
        | Some member =>
            distribute_loop gas' ((i + 1) mod 2 ^ 16) members dividend
              (sent ++ [(member, dividend)])
        | None => None
        end
      else Some sent
  end.

(** [distributeETHToMembers]: the sends, each a member and an amount.
    [SafeMath.div] of OpenZeppelin reverts on a zero divisor. *)
Definition distributeETHToMembers (gas : nat) (st : storage) (msg_value : Z)
  : call (list (Z * Z)) :=
  let memberCount := Z.of_nat (length (members st)) in
  if memberCount =? 0 then Revert "SafeMath: division by zero"
  else
    let dividend := msg_value / memberCount in
    if negb (0 <? dividend) then Revert "dividend value must be non-zero"
    else
      match distribute_loop gas 0 (members st) dividend [] with
      | Some sent => Success sent
      | None => Revert "out of gas"
      end.

(** The sum of the amounts sent. *)
Definition total_sent (sent : list (Z * Z)) : Z :=
  foldr (fun s acc => s.2 + acc) 0 sent.

End ECDSAKeep.

(** * Properties *)

(** ** Go values *)

Module GoFacts.

Lemma int_of_byte_range (b : byte) : 0 <= int_of_byte b < 256.
Proof.
  unfold int_of_byte. pose proof (Byte.to_N_bounded b) as Hb. lia.
Qed.

Lemma int_wrap_small (z : Z) : - 2 ^ 63 <= z < 2 ^ 63 -> int_wrap z = z.
Proof.
  intros Hz. unfold int_wrap. rewrite Z.mod_small; lia.
Qed.

Lemma uint64_wrap_small (z : Z) : 0 <= z < 2 ^ 64 -> uint64_wrap z = z.
Proof.
  intros Hz. unfold uint64_wrap. apply Z.mod_small. lia.
Qed.

Lemma SetBytes_from (buf : list byte) (acc : Z) :
  fold_left (fun a b => a * 256 + int_of_byte b) buf acc
  = acc * 256 ^ Z.of_nat (length buf) + big_endian_value buf.
Proof.
  revert acc. induction buf as [|b rest IH]; intros acc.
  - simpl. lia.
  - cbn [fold_left big_endian_value length]. rewrite IH.
    rewrite Nat2Z.inj_succ, Z.pow_succ_r by lia. ring.
Qed.

Lemma SetBytes_big_endian (buf : list byte) : SetBytes buf = big_endian_value buf.
Proof.
  unfold SetBytes. rewrite SetBytes_from. lia.
Qed.

Lemma big_endian_value_nonneg (buf : list byte) : 0 <= big_endian_value buf.
Proof.
  induction buf as [|b rest IH]; simpl; [lia|].
  pose proof (int_of_byte_range b).
  assert (0 <= 256 ^ Z.of_nat (length rest)) by (apply Z.pow_nonneg; lia).
  nia.
Qed.

Lemma low_8_bits (z : Z) : 0 <= z < 256 -> Z.land z 255 = z.
Proof.
  intros Hz. change 255 with (Z.ones 8).
  rewrite Z.land_ones by lia. apply Z.mod_small. exact Hz.
Qed.

End GoFacts.

(** ** Package tss *)

Module TssFacts.

Import Tss GoFacts.

(** The recovery id the conversion computes from the first recovery byte. *)
Lemma recovery_int (b0 : byte) :
  int_wrap (Z.lor (int_wrap (Z.shiftl 0 8)) (int_of_byte b0)) = int_of_byte b0.
Proof.
  pose proof (int_of_byte_range b0) as Hb.
  rewrite Z.shiftl_0_l. rewrite (int_wrap_small 0) by lia.
  rewrite Z.lor_0_l. apply int_wrap_small. lia.
Qed.

(** C1. Whenever the signing party ends with signature data whose recovery
    slice has a first byte, [sign] returns a signature whose recovery id is
    the value of the low 8 bits of that byte, with nothing added to it
    (in particular not 27), and whose R and S are the big-endian values of
    the R and S byte slices. *)
Theorem sign_emits_raw_recovery_id (b0 : byte) (rest r s : list byte) :
  let tssSignature := mkSignatureData (b0 :: rest) r s in
  exists signature,
    sign (Some (EndsWith tssSignature)) = Ret signature /\
    convertSignatureTSStoECDSA tssSignature = Ret signature /\
    ecdsa.RecoveryID signature = Z.land (int_of_byte b0) 255 /\
    ecdsa.RecoveryID signature = int_of_byte b0 /\
    ecdsa.RecoveryID signature <> int_of_byte b0 + 27 /\
    ecdsa.R signature = big_endian_value r /\
    ecdsa.S signature = big_endian_value s.
Proof.
  intros tssSignature.
  pose proof (int_of_byte_range b0) as Hb.
  eexists. split; [reflexivity|]. split; [reflexivity|].
  cbn [ecdsa.RecoveryID ecdsa.R ecdsa.S GetR GetS GetSignatureRecovery tssSignature].
  rewrite recovery_int, low_8_bits, !SetBytes_big_endian by exact Hb.
  repeat split; lia.
Qed.

(** The conversion on the bytes [0x01], [0x0102], [0x10]. *)
Example convert_example :
  convertSignatureTSStoECDSA (mkSignatureData [x01] [x01; x02] [x10])
  = Ret (ecdsa.mkSignature 258 16 1).
Proof. reflexivity. Qed.

Example convert_empty_recovery :
  convertSignatureTSStoECDSA (mkSignatureData [] [x01] [x02])
  = Panic "runtime error: index out of range [0] with length 0".
Proof. reflexivity. Qed.

Section Parties.

Variable bigInt : MemberID -> Z.

Lemma generatePartiesIDs_loop_positive (thisMemberID : MemberID)
  (members : list MemberID) (thisPartyID : option PartyID)
  (groupPartiesIDs : list PartyID) :
  (forall m, m ∈ members -> 0 < bigInt m) ->
  generatePartiesIDs_loop bigInt thisMemberID members thisPartyID groupPartiesIDs
  = (this_party bigInt thisMemberID members thisPartyID,
     groupPartiesIDs ++ (party_of bigInt <$> members), None).
Proof.
  revert thisPartyID groupPartiesIDs.
  induction members as [|m rest IH]; intros thisPartyID groupPartiesIDs Hpos.
  - simpl. by rewrite app_nil_r.
  - cbn [generatePartiesIDs_loop].
    assert (0 < bigInt m) as Hm by (apply Hpos; left).
    destruct (Z.leb_spec (bigInt m) 0) as [Hle|_]; [lia|].
    rewrite IH by (intros m' Hm'; apply Hpos; by right).
    cbn [fmap list_fmap this_party fold_left]. by rewrite <- app_assoc.
Qed.

Lemma generatePartiesIDs_loop_rejects (thisMemberID : MemberID)
  (members : list MemberID) (thisPartyID : option PartyID)
  (groupPartiesIDs : list PartyID) :
  (exists m, m ∈ members /\ bigInt m <= 0) ->
  exists m,
    m ∈ members /\ bigInt m <= 0 /\
    generatePartiesIDs_loop bigInt thisMemberID members thisPartyID groupPartiesIDs
    = (None, [],
       Some ("member ID must be greater than 0, but found ["
             +:+ fmt_int (bigInt m) +:+ "]")).
Proof.
  revert thisPartyID groupPartiesIDs.
  induction members as [|m rest IH]; intros thisPartyID groupPartiesIDs [bad [Hin Hbad]].
  - by apply elem_of_nil in Hin.
  - cbn [generatePartiesIDs_loop].
    destruct (Z.leb_spec (bigInt m) 0) as [Hle|Hgt].
    + exists m. split; [left|]. by split.
    + apply elem_of_cons in Hin as [->|Hin]; [lia|].
      destruct (IH (if decide (thisMemberID = m) then Some (NewPartyID m "" (bigInt m)) else thisPartyID)
                  (groupPartiesIDs ++ [NewPartyID m "" (bigInt m)])) as [m' [Hin' [Hle' Heq]]].
      { by exists bad. }
      exists m'. split; [by right|]. by split.
Qed.

(** C6. If some member of the list has an integer form that is zero or
    negative, [generatePartiesIDs] returns an error, no party id of this
    member and no party ids of the group. If every member has a strictly
    positive integer form, it returns no error and one party id per member,
    in the order of the list, each with the member's bytes as id, an empty
    moniker and the member's integer form as key. *)
Theorem generatePartiesIDs_spec (thisMemberID : MemberID)
  (groupMemberIDs : list MemberID) :
  ((exists m, m ∈ groupMemberIDs /\ bigInt m <= 0) ->
   exists err,
     generatePartiesIDs bigInt thisMemberID groupMemberIDs = (None, [], Some err))
  /\
  ((forall m, m ∈ groupMemberIDs -> 0 < bigInt m) ->
   exists thisPartyID groupPartiesIDs,
     generatePartiesIDs bigInt thisMemberID groupMemberIDs
     = (thisPartyID, groupPartiesIDs, None) /\
     length groupPartiesIDs = length groupMemberIDs /\
     forall i m, groupMemberIDs !! i = Some m ->
       exists p, groupPartiesIDs !! i = Some p /\
                 Id p = m /\ Key p = bigInt m /\ Moniker p = "").
Proof.
  split.
  - intros Hbad.
    destruct (generatePartiesIDs_loop_rejects thisMemberID groupMemberIDs None [] Hbad)
      as [m [_ [_ Heq]]].
    eexists. exact Heq.
  - intros Hpos. unfold generatePartiesIDs.
    rewrite generatePartiesIDs_loop_positive by exact Hpos.
    eexists _, _. split; [reflexivity|]. cbn [app]. split.
    + by rewrite length_fmap.
    + intros i m Hi. exists (party_of bigInt m). split; [|done].
      by rewrite list_lookup_fmap, Hi.
Qed.

End Parties.

(** A run of [generatePartiesIDs] on member ids read as big-endian bytes:
    the second list holds the empty id, whose integer form is zero. *)
Lemma generatePartiesIDs_spec_witness :
  (exists thisPartyID groupPartiesIDs,
     generatePartiesIDs bigInt_of_bytes "a" ["a"; "b"]
     = (thisPartyID, groupPartiesIDs, None) /\
     length groupPartiesIDs = 2%nat /\
     forall i m, ["a"; "b"] !! i = Some m ->
       exists p, groupPartiesIDs !! i = Some p /\
                 Id p = m /\ Key p = bigInt_of_bytes m /\ Moniker p = "") /\
  (exists err,
     generatePartiesIDs bigInt_of_bytes "a" ["a"; ""] = (None, [], Some err)).
Proof.
  split.
  - apply (proj2 (generatePartiesIDs_spec bigInt_of_bytes "a" ["a"; "b"])).
    intros m Hm.
    apply elem_of_cons in Hm as [->|Hm]; [reflexivity|].
    apply elem_of_cons in Hm as [->|Hm]; [reflexivity|].
    by apply elem_of_nil in Hm.
  - apply (proj1 (generatePartiesIDs_spec bigInt_of_bytes "a" ["a"; ""])).
    exists "". split.
    + right. left.
    + discriminate.
Defined.

Example generatePartiesIDs_example :
  generatePartiesIDs bigInt_of_bytes "b" ["a"; "b"]
  = (Some (mkPartyID "b" "" 98 (-1)),
     [mkPartyID "a" "" 97 (-1); mkPartyID "b" "" 98 (-1)], None).
Proof. reflexivity. Qed.

Example generatePartiesIDs_zero_member :
  generatePartiesIDs bigInt_of_bytes "a" ["a"; ""; "b"]
  = (None, [], Some "member ID must be greater than 0, but found [0]").
Proof. reflexivity. Qed.

Section SizeCheck.

Variable bigInt : MemberID -> Z.
Variable SortPartyIDs : list PartyID -> list nat -> list nat * list PartyID.
Variable bridge_start : list MemberID -> option string.
Variable keygen_GeneratePreParams : Z -> outcome unit.
Variable keyGenSigner : Type.
Variable initializeKeyGeneration : groupInfo -> unit -> outcome keyGenSigner.

(** The size checks as the code makes them. With [n] the length of the
    member list: [InitializeKeyGeneration], whose threshold is an [int],
    returns the group-size error, without initializing a party, exactly when
    [n] is at most the threshold, and goes on to initialize the party when
    [n] is greater. [GenerateThresholdSigner] compares [n] with the
    threshold it stores in the group description, [int(dishonestThreshold)]:
    it returns an error when the list is empty or [n] is at most that
    threshold, and goes on to initialize the signer of the group otherwise.
    For a threshold below [2 ^ 63] the stored threshold is the given one. *)
Theorem group_size_check (groupID : string) (memberID : MemberID)
  (groupMemberIDs : list MemberID) (threshold dishonestThreshold : Z)
  (tssPreParams : option unit) :
  let n := Z.of_nat (length groupMemberIDs) in
  let stored := int_wrap dishonestThreshold in
  (n <= threshold ->
   InitializeKeyGeneration bigInt SortPartyIDs bridge_start memberID
     groupMemberIDs threshold tssPreParams
   = Err ("group size [" +:+ fmt_int n
          +:+ "], should be greater than threshold ["
          +:+ fmt_int threshold +:+ "]")) /\
  (threshold < n ->
   InitializeKeyGeneration bigInt SortPartyIDs bridge_start memberID
     groupMemberIDs threshold tssPreParams
   = match initializeKeyGenerationParty bigInt SortPartyIDs bridge_start
             memberID groupMemberIDs threshold tssPreParams with
     | Err err =>
         Err ("failed to initialize key generation member: [" +:+ err +:+ "]")
     | Panic msg => Panic msg
     | Ret (params, records) => Ret (mkMember params, records)
     end) /\
  (groupMemberIDs = [] ->
   GenerateThresholdSigner_initialize keygen_GeneratePreParams keyGenSigner
     initializeKeyGeneration groupID memberID groupMemberIDs
     dishonestThreshold tssPreParams
   = Err "group should have at least one member") /\
  (1 <= n -> n <= stored ->
   GenerateThresholdSigner_initialize keygen_GeneratePreParams keyGenSigner
     initializeKeyGeneration groupID memberID groupMemberIDs
     dishonestThreshold tssPreParams
   = Err ("group size [" +:+ fmt_int n
          +:+ "], should be greater than dishonest threshold ["
          +:+ fmt_int dishonestThreshold +:+ "]")) /\
  (1 <= n -> stored < n ->
   GenerateThresholdSigner_initialize keygen_GeneratePreParams keyGenSigner
     initializeKeyGeneration groupID memberID groupMemberIDs
     dishonestThreshold tssPreParams
   = after_size_check keygen_GeneratePreParams keyGenSigner
       initializeKeyGeneration
       (mkGroupInfo groupID memberID groupMemberIDs stored) tssPreParams) /\
  (0 <= dishonestThreshold < 2 ^ 63 -> stored = dishonestThreshold).
Proof.
  intros n stored. unfold InitializeKeyGeneration, GenerateThresholdSigner_initialize.
  fold n. fold stored.
  repeat split.
  - intros Hle. destruct (Z.leb_spec n threshold); [reflexivity|lia].
  - intros Hlt. destruct (Z.leb_spec n threshold); [lia|reflexivity].
  - intros ->. reflexivity.
  - intros H1 Hle.
    destruct (Z.ltb_spec n 1); [lia|].
    destruct (Z.leb_spec n stored); [reflexivity|lia].
  - intros H1 Hlt.
    destruct (Z.ltb_spec n 1); [lia|].
    destruct (Z.leb_spec n stored); [lia|reflexivity].
  - intros Hrange. apply int_wrap_small. lia.
Qed.

(** C3. The size check of [GenerateThresholdSigner] misses the thresholds
    of [2 ^ 63] or more. The threshold is a [uint] and is compared as
    [int(dishonestThreshold)], which is negative for these values: every
    group that is not empty then passes the check, although its size, the
    length of a slice, is below the threshold, and the group description
    is made with the negative threshold. *)
Theorem GenerateThresholdSigner_threshold_wraps (groupID : string)
  (memberID : MemberID) (groupMemberIDs : list MemberID)
  (dishonestThreshold : Z) (tssPreParams : option unit) :
  groupMemberIDs <> [] ->
  2 ^ 63 <= dishonestThreshold < 2 ^ 64 ->
  GenerateThresholdSigner_initialize keygen_GeneratePreParams keyGenSigner
    initializeKeyGeneration groupID memberID groupMemberIDs
    dishonestThreshold tssPreParams
  = after_size_check keygen_GeneratePreParams keyGenSigner
      initializeKeyGeneration
      (mkGroupInfo groupID memberID groupMemberIDs
         (dishonestThreshold - 2 ^ 64))
      tssPreParams.
Proof.
  intros Hmembers Hrange. unfold GenerateThresholdSigner_initialize.
  assert (int_wrap dishonestThreshold = dishonestThreshold - 2 ^ 64) as ->.
  { unfold int_wrap.
    replace (dishonestThreshold + 2 ^ 63)
      with (dishonestThreshold - 2 ^ 63 + 1 * 2 ^ 64) by lia.
    rewrite Z.mod_add by lia. rewrite Z.mod_small by lia. lia. }
  assert (1 <= Z.of_nat (length groupMemberIDs)) as Hn.
  { destruct groupMemberIDs; [done|]. cbn [length]. lia. }
  destruct (Z.ltb_spec (Z.of_nat (length groupMemberIDs)) 1); [lia|].
  destruct (Z.leb_spec (Z.of_nat (length groupMemberIDs))
              (dishonestThreshold - 2 ^ 64)); [lia|].
  reflexivity.
Qed.

End SizeCheck.

(** The size check on groups of two members: a threshold of two rejects the
    group, a threshold of one lets it through. *)
Lemma group_size_check_witness :
  InitializeKeyGeneration bigInt_of_bytes sort_in_order (fun _ => None)
    "a" ["a"; "b"] 2 (Some tt)
  = Err "group size [2], should be greater than threshold [2]" /\
  InitializeKeyGeneration bigInt_of_bytes sort_in_order (fun _ => None)
    "a" ["a"; "b"] 1 (Some tt)
  = Ret (mkMember (NewParameters [0; 1]%nat (Some 0%nat) 2 1),
         [mkPartyID "a" "" 97 0; mkPartyID "b" "" 98 1]) /\
  GenerateThresholdSigner_initialize (fun _ => Ret tt) groupInfo
    (fun group _ => Ret group) "keep" "a" ["a"; "b"] 2 (Some tt)
  = Err "group size [2], should be greater than dishonest threshold [2]" /\
  GenerateThresholdSigner_initialize (fun _ => Ret tt) groupInfo
    (fun group _ => Ret group) "keep" "a" ["a"; "b"] 1 (Some tt)
  = Ret (mkGroupInfo "keep" "a" ["a"; "b"] 1).
Proof.
  pose proof (group_size_check bigInt_of_bytes sort_in_order
                (fun _ => None) (fun _ => Ret tt) groupInfo
                (fun group _ => Ret group) "keep" "a" ["a"; "b"] 2 2 (Some tt))
    as [Hreject [_ [_ [Hreject' _]]]].
  pose proof (group_size_check bigInt_of_bytes sort_in_order
                (fun _ => None) (fun _ => Ret tt) groupInfo
                (fun group _ => Ret group) "keep" "a" ["a"; "b"] 1 1 (Some tt))
    as [_ [Hpass [_ [_ [Hpass' _]]]]].
  split; [apply Hreject; simpl; lia|].
  split; [rewrite Hpass by (simpl; lia); reflexivity|].
  split; [apply Hreject'; simpl; try reflexivity; lia|].
  rewrite Hpass' by (simpl; try reflexivity; lia). reflexivity.
Defined.

(** A group of one member with a threshold of [2 ^ 63], which the group
    is not greater than, passes the check of [GenerateThresholdSigner]; the
    group description holds the threshold [- 2 ^ 63]. *)
Lemma GenerateThresholdSigner_threshold_wraps_witness :
  Z.of_nat (length ["a"]) <= 2 ^ 63 /\
  GenerateThresholdSigner_initialize (fun _ => Ret tt) groupInfo
    (fun group _ => Ret group) "keep" "a" ["a"] (2 ^ 63) (Some tt)
  = Ret (mkGroupInfo "keep" "a" ["a"] (- 2 ^ 63)).
Proof.
  split; [cbn; lia|].
  exact (GenerateThresholdSigner_threshold_wraps (fun _ => Ret tt) groupInfo
           (fun group _ => Ret group) "keep" "a" ["a"] (2 ^ 63) (Some tt)
           ltac:(discriminate) ltac:(lia)).
Defined.

(** *** The start barrier *)

Lemma unsignalled_nonneg (ps : list phase) : 0 <= unsignalled ps.
Proof.
  induction ps as [|p rest IH]; simpl; [lia|]. destruct (signalled p); lia.
Qed.

Lemma unsignalled_replicate (n : nat) :
  unsignalled (replicate n Initializing) = Z.of_nat n.
Proof.
  induction n as [|n IH]; [reflexivity|].
  cbn [replicate unsignalled signalled]. lia.
Qed.

Lemma unsignalled_insert (ps : list phase) (i : nat) (p q : phase) :
  ps !! i = Some p ->
  unsignalled (<[i := q]> ps)
  = unsignalled ps - (if signalled p then 0 else 1)
    + (if signalled q then 0 else 1).
Proof.
  revert i. induction ps as [|p0 rest IH]; intros i Hi; [done|].
  destruct i as [|i]; simpl in *.
  - injection Hi as ->. lia.
  - rewrite (IH i Hi). lia.
Qed.

Lemma unsignalled_zero (ps : list phase) :
  unsignalled ps = 0 ->
  forall j p, ps !! j = Some p -> signalled p = true.
Proof.
  induction ps as [|p0 rest IH]; intros Hz j p Hj; [done|].
  simpl in Hz. pose proof (unsignalled_nonneg rest) as Hrest.
  destruct j as [|j]; simpl in Hj.
  - injection Hj as ->. destruct (signalled p); [done|lia].
  - apply (IH ltac:(destruct (signalled p0); lia) j p Hj).
Qed.

Lemma barrier_inv_start (n : nat) : barrier_inv n (session_start n).
Proof.
  unfold barrier_inv, session_start. cbn [phases sync]. split; [|split].
  - apply length_replicate.
  - by rewrite unsignalled_replicate.
  - intros [i Hi]. apply lookup_replicate in Hi as [Hi _]. discriminate.
Qed.

Lemma started_after_insert (ps : list phase) (i : nat) (q : phase) :
  q <> Started ->
  (exists j, <[i := q]> ps !! j = Some Started) ->
  exists j, ps !! j = Some Started.
Proof.
  intros Hq [j Hj]. destruct (decide (i = j)) as [->|Hne].
  - destruct (decide (j < length ps)%nat) as [Hlt|Hge].
    + rewrite list_lookup_insert_eq in Hj by exact Hlt. congruence.
    + rewrite list_insert_ge in Hj by lia. by exists j.
  - rewrite list_lookup_insert_ne in Hj by exact Hne. by exists j.
Qed.

Lemma barrier_inv_step (n : nat) (s s' : session) :
  barrier_inv n s -> step s s' -> barrier_inv n s'.
Proof.
  intros (Hlen & Hsync & Hstarted) Hstep.
  pose proof (unsignalled_nonneg (phases s)) as Hnn.
  destruct Hstep as [s i Hi|s i err Hi|s i counter Hi Hdone|s i msg Hi Hdone
                    |s i Hi Hwait|s];
    unfold barrier_inv; cbn [phases sync];
    rewrite ?length_insert, ?(unsignalled_insert _ _ _ _ Hi);
    cbn [signalled].
  - split; [done|]. split; [lia|].
    intros Hex. apply Hstarted. by apply (started_after_insert _ i Initialized).
  - split; [done|]. split; [lia|].
    intros Hex. apply Hstarted. by apply (started_after_insert _ i (Returned err)).
  - unfold WaitGroup_Done in Hdone.
    destruct (Z.ltb_spec (sync s - 1) 0); [discriminate|].
    injection Hdone as <-.
    split; [done|]. split; [lia|].
    intros Hex. apply (started_after_insert _ i Waiting) in Hex; [|done].
    specialize (Hstarted Hex). lia.
  - unfold WaitGroup_Done in Hdone.
    destruct (Z.ltb_spec (sync s - 1) 0) as [Hneg|]; [|discriminate].
    pose proof (unsignalled_insert (phases s) i Initialized Initialized Hi) as Hone.
    cbn [signalled] in Hone.
    assert (1 <= unsignalled (phases s)).
    { clear -Hi. revert i Hi. induction (phases s) as [|p0 rest IH]; intros i Hi; [done|].
      destruct i as [|i]; simpl in *.
      - injection Hi as ->. pose proof (unsignalled_nonneg rest). simpl. lia.
      - specialize (IH i Hi). destruct (signalled p0); lia. }
    lia.
  - unfold WaitGroup_Wait_returns in Hwait. apply Z.eqb_eq in Hwait.
    split; [done|]. split; [lia|]. intros _. exact Hwait.
  - done.
Qed.

Lemma barrier_inv_reach (n : nat) (s s' : session) :
  barrier_inv n s -> steps s s' -> barrier_inv n s'.
Proof.
  intros Hinv. induction 1 as [|s1 s2 s3 _ IH Hstep]; [done|].
  apply (barrier_inv_step n s2); [by apply IH|done].
Qed.

Lemma barrier_inv_steps (n : nat) (s : session) :
  steps (session_start n) s -> barrier_inv n s.
Proof.
  apply barrier_inv_reach, barrier_inv_start.
Qed.

Lemma sync_never_grows (s s' : session) : step s s' -> sync s' <= sync s.
Proof.
  destruct 1 as [s i Hi|s i err Hi|s i counter Hi Hdone|s i msg Hi Hdone
                |s i Hi Hwait|s]; cbn [sync]; try lia.
  unfold WaitGroup_Done in Hdone.
  destruct (Z.ltb_spec (sync s - 1) 0); [discriminate|].
  injection Hdone as <-. lia.
Qed.

Lemma waiting_until_zero (s s' : session) (i : nat) :
  step s s' -> sync s <> 0 ->
  phases s !! i = Some Waiting -> phases s' !! i = Some Waiting.
Proof.
  intros Hstep Hnz Hi.
  destruct Hstep as [s j Hj|s j err Hj|s j counter Hj Hdone|s j msg Hj Hdone
                    |s j Hj Hwait|s]; cbn [phases]; try done;
    try (destruct (decide (j = i)) as [->|Hne];
         [congruence|by rewrite list_lookup_insert_ne]).
  unfold WaitGroup_Wait_returns in Hwait. apply Z.eqb_eq in Hwait. done.
Qed.

(** C2, as amended. In a session of [n] members whose wait group was set to
    [n]: when a member has started its party, the counter of the wait group
    is zero and every member has signalled that it is initialized (it has
    called [Done] and waits or has started); a member that waits keeps
    waiting for as long as the counter is not zero, whatever time has
    elapsed. *)
Theorem start_barrier (n : nat) (s : session) :
  steps (session_start n) s ->
  ((exists i, phases s !! i = Some Started) ->
   sync s = 0 /\
   length (phases s) = n /\
   forall j p, phases s !! j = Some p -> signalled p = true) /\
  (forall s' i,
     steps s s' -> phases s !! i = Some Waiting -> sync s' <> 0 ->
     phases s' !! i = Some Waiting).
Proof.
  intros Hreach. pose proof (barrier_inv_steps n s Hreach) as Hinv.
  split.
  - intros Hstarted. destruct Hinv as (Hlen & Hsync & Hzero).
    specialize (Hzero Hstarted). split; [done|]. split; [done|].
    apply unsignalled_zero. lia.
  - intros s' i Hsteps. induction Hsteps as [|s1 s2 s3 H12 IH H23]; [done|].
    intros Hi Hnz.
    pose proof (barrier_inv_reach n s1 s2 Hinv H12) as (_ & Hsync2 & _).
    pose proof (barrier_inv_step n s2 s3 (barrier_inv_reach n s1 s2 Hinv H12) H23)
      as (_ & Hsync3 & _).
    pose proof (unsignalled_nonneg (phases s3)).
    pose proof (sync_never_grows s2 s3 H23).
    assert (sync s2 <> 0) as Hnz2 by lia.
    apply (waiting_until_zero s2 s3 i H23 Hnz2). by apply IH.
Qed.

Lemma steps_trans (s1 s2 s3 : session) :
  steps s1 s2 -> steps s2 s3 -> steps s1 s3.
Proof.
  intros H12 H23. induction H23 as [|s2 s3 s4 _ IH Hstep]; [done|].
  eapply steps_next; [exact (IH H12)|exact Hstep].
Qed.

Lemma steps_seconds (k : nat) (s : session) :
  steps s (mkSession (sync s) (phases s) (elapsed s + Z.of_nat k)).
Proof.
  induction k as [|k IH].
  - destruct s as [c ps e]. cbn [sync phases elapsed].
    replace (e + Z.of_nat 0) with e by lia. apply steps_refl.
  - eapply steps_next; [exact IH|].
    replace (elapsed s + Z.of_nat (Datatypes.S k))
      with (elapsed s + Z.of_nat k + 1) by lia.
    apply (step_second (mkSession (sync s) (phases s) (elapsed s + Z.of_nat k))).
Qed.

Lemma stuck_session_reached : steps (session_start 3) stuck_session.
Proof.
  set (err := "failed to initialize signer").
  assert (steps (session_start 3)
            (mkSession 3 [Initialized; Initializing; Initializing] 0)) as H1.
  { eapply steps_next; [apply steps_refl|].
    exact (step_initialized (session_start 3) 0 eq_refl). }
  assert (steps (session_start 3)
            (mkSession 2 [Waiting; Initializing; Initializing] 0)) as H2.
  { eapply steps_next; [exact H1|].
    exact (step_done (mkSession 3 [Initialized; Initializing; Initializing] 0)
             0 2 eq_refl eq_refl). }
  assert (steps (session_start 3)
            (mkSession 2 [Waiting; Initialized; Initializing] 0)) as H3.
  { eapply steps_next; [exact H2|].
    exact (step_initialized (mkSession 2 [Waiting; Initializing; Initializing] 0)
             1 eq_refl). }
  assert (steps (session_start 3)
            (mkSession 1 [Waiting; Waiting; Initializing] 0)) as H4.
  { eapply steps_next; [exact H3|].
    exact (step_done (mkSession 2 [Waiting; Initialized; Initializing] 0)
             1 1 eq_refl eq_refl). }
  assert (steps (session_start 3)
            (mkSession 1 [Waiting; Waiting; Returned err] 0)) as H5.
  { eapply steps_next; [exact H4|].
    exact (step_returned (mkSession 1 [Waiting; Waiting; Initializing] 0)
             2 err eq_refl). }
  pose proof (steps_seconds 60 (mkSession 1 [Waiting; Waiting; Returned err] 0))
    as H6.
  exact (steps_trans _ _ _ H5 H6).
Qed.

(** From the stuck session only time passes. *)
Lemma stuck_stays (s s' : session) :
  steps s s' ->
  sync s = 1 /\ phases s = phases stuck_session ->
  sync s' = 1 /\ phases s' = phases stuck_session.
Proof.
  induction 1 as [|s1 s2 s3 _ IH Hstep]; [done|].
  intros Hs1. destruct (IH Hs1) as [Hsync Hphases].
  destruct Hstep as [s i Hi|s i err Hi|s i counter Hi Hdone|s i msg Hi Hdone
                    |s i Hi Hwait|s]; cbn [sync phases] in *;
    try (rewrite Hphases in Hi;
         destruct i as [|[|[|i]]]; simpl in Hi; discriminate).
  - rewrite Hphases in Hi. rewrite Hsync in Hwait. discriminate.
  - done.
Qed.

Lemma stuck_session_stays (s' : session) :
  steps stuck_session s' ->
  sync s' = 1 /\
  phases s' = [Waiting; Waiting; Returned "failed to initialize signer"].
Proof.
  intros Hsteps. by apply (stuck_stays stuck_session s').
Qed.

(** C2, as the claim states it, fails: with three members of which one
    returns an error before the barrier, the two others still wait after
    sixty seconds and can neither start nor fail, however long the session
    goes on. *)
Lemma barrier_wait_is_not_bounded : ~ wait_is_bounded 3 60.
Proof.
  intros Hbounded.
  destruct (Hbounded stuck_session 0%nat stuck_session_reached)
    as [s' [Hsteps Hleft]].
  - simpl. lia.
  - reflexivity.
  - apply stuck_session_stays in Hsteps as [_ Hphases].
    rewrite Hphases in Hleft. simpl in Hleft.
    destruct Hleft as [?|[err ?]]; discriminate.
Qed.

Lemma started_session_reached : steps (session_start 2) started_session.
Proof.
  assert (steps (session_start 2) (mkSession 2 [Initialized; Initializing] 0))
    as H1.
  { eapply steps_next; [apply steps_refl|].
    exact (step_initialized (session_start 2) 0 eq_refl). }
  assert (steps (session_start 2) (mkSession 2 [Initialized; Initialized] 0))
    as H2.
  { eapply steps_next; [exact H1|].
    exact (step_initialized (mkSession 2 [Initialized; Initializing] 0)
             1 eq_refl). }
  assert (steps (session_start 2) (mkSession 1 [Waiting; Initialized] 0)) as H3.
  { eapply steps_next; [exact H2|].
    exact (step_done (mkSession 2 [Initialized; Initialized] 0)
             0 1 eq_refl eq_refl). }
  assert (steps (session_start 2) (mkSession 0 [Waiting; Waiting] 0)) as H4.
  { eapply steps_next; [exact H3|].
    exact (step_done (mkSession 1 [Waiting; Initialized] 0)
             1 0 eq_refl eq_refl). }
  assert (steps (session_start 2) (mkSession 0 [Started; Waiting] 0)) as H5.
  { eapply steps_next; [exact H4|].
    exact (step_wait (mkSession 0 [Waiting; Waiting] 0) 0 eq_refl eq_refl). }
  eapply steps_next; [exact H5|].
  exact (step_wait (mkSession 0 [Started; Waiting] 0) 1 eq_refl eq_refl).
Qed.

(** A session of two members in which both have started: the counter is
    zero and both have signalled. *)
Lemma start_barrier_witness :
  sync started_session = 0 /\
  length (phases started_session) = 2%nat /\
  forall j p, phases started_session !! j = Some p -> signalled p = true.
Proof.
  apply (proj1 (start_barrier 2 started_session started_session_reached)).
  exists 0%nat. reflexivity.
Defined.

(** *** More on the party identifiers *)

Section MoreParties.

Variable bigInt : MemberID -> Z.
Variable SortPartyIDs : list PartyID -> list nat -> list nat * list PartyID.
Variable bridge_start : list MemberID -> option string.

Lemma this_party_found (thisMemberID : MemberID) (members : list MemberID)
  (before : option PartyID) :
  this_party bigInt thisMemberID members before
  = if decide (thisMemberID ∈ members)
    then Some (party_of bigInt thisMemberID)
    else before.
Proof.
  unfold this_party. revert before.
  induction members as [|m rest IH]; intros before.
  - by rewrite decide_False by apply not_elem_of_nil.
  - cbn [fold_left]. rewrite IH.
    destruct (decide (thisMemberID = m)) as [<-|Hne].
    + rewrite (decide_True (P := thisMemberID ∈ thisMemberID :: rest)) by left.
      by destruct (decide (thisMemberID ∈ rest)).
    + destruct (decide (thisMemberID ∈ rest)) as [Hin|Hout].
      * by rewrite decide_True by (by right).
      * rewrite decide_False; [done|].
        rewrite elem_of_cons. intros [?|?]; [by apply Hne|by apply Hout].
Qed.

(** The party id of this member: when every member of the group has a
    positive integer form, [generatePartiesIDs] returns the party id made
    of this member's id if this member is in the group, and a nil party id
    if it is not. *)
Theorem generatePartiesIDs_this_member (thisMemberID : MemberID)
  (groupMemberIDs : list MemberID) :
  (forall m, m ∈ groupMemberIDs -> 0 < bigInt m) ->
  (generatePartiesIDs bigInt thisMemberID groupMemberIDs).1.1
  = if decide (thisMemberID ∈ groupMemberIDs)
    then Some (mkPartyID thisMemberID "" (bigInt thisMemberID) (-1))
    else None.
Proof.
  intros Hpos. unfold generatePartiesIDs.
  rewrite (generatePartiesIDs_loop_positive bigInt) by exact Hpos.
  cbn [fst]. apply this_party_found.
Qed.

Lemma generatePartiesIDs_loop_first (thisMemberID : MemberID)
  (good : list MemberID) (bad : MemberID) (rest : list MemberID)
  (thisPartyID : option PartyID) (groupPartiesIDs : list PartyID) :
  (forall m, m ∈ good -> 0 < bigInt m) -> bigInt bad <= 0 ->
  generatePartiesIDs_loop bigInt thisMemberID (good ++ bad :: rest)
    thisPartyID groupPartiesIDs
  = (None, [],
     Some ("member ID must be greater than 0, but found ["
           +:+ fmt_int (bigInt bad) +:+ "]")).
Proof.
  revert thisPartyID groupPartiesIDs.
  induction good as [|m good IH]; intros thisPartyID groupPartiesIDs Hgood Hbad.
  - cbn [app generatePartiesIDs_loop].
    destruct (Z.leb_spec (bigInt bad) 0); [done|lia].
  - cbn [app generatePartiesIDs_loop].
    assert (0 < bigInt m) as Hm by (apply Hgood; left).
    destruct (Z.leb_spec (bigInt m) 0); [lia|].
    apply IH; [|done]. intros m' Hm'. apply Hgood. by right.
Qed.

(** The error of [generatePartiesIDs] names the first member, in the order
    of the list, whose integer form is not positive, whatever follows it. *)
Theorem generatePartiesIDs_first_offender (thisMemberID : MemberID)
  (good : list MemberID) (bad : MemberID) (rest : list MemberID) :
  (forall m, m ∈ good -> 0 < bigInt m) -> bigInt bad <= 0 ->
  generatePartiesIDs bigInt thisMemberID (good ++ bad :: rest)
  = (None, [],
     Some ("member ID must be greater than 0, but found ["
           +:+ fmt_int (bigInt bad) +:+ "]")).
Proof. apply generatePartiesIDs_loop_first. Qed.

(** The loop with its pointers: what it allocates and returns. *)
Lemma generatePartiesIDs_pointers_positive (thisMemberID : MemberID)
  (members : list MemberID) (thisPartyID : option nat)
  (groupPartiesIDs : list nat) (records : list PartyID) :
  (forall m, m ∈ members -> 0 < bigInt m) ->
  generatePartiesIDs_pointers bigInt thisMemberID members thisPartyID
    groupPartiesIDs records
  = (this_pointer thisMemberID members (length records) thisPartyID,
     groupPartiesIDs ++ seq (length records) (length members),
     records ++ (party_of bigInt <$> members), None).
Proof.
  revert thisPartyID groupPartiesIDs records.
  induction members as [|m rest IH];
    intros thisPartyID groupPartiesIDs records Hpos.
  - cbn. by rewrite !app_nil_r.
  - cbn [generatePartiesIDs_pointers allocate].
    assert (0 < bigInt m) as Hm by (apply Hpos; left).
    destruct (Z.leb_spec (bigInt m) 0); [lia|].
    rewrite IH by (intros m' Hm'; apply Hpos; by right).
    rewrite length_app. cbn [length]. rewrite Nat.add_1_r.
    cbn [this_pointer seq fmap list_fmap].
    rewrite <- !app_assoc. reflexivity.
Qed.

Lemma generatePartiesIDs_pointers_first (thisMemberID : MemberID)
  (good : list MemberID) (bad : MemberID) (rest : list MemberID)
  (thisPartyID : option nat) (groupPartiesIDs : list nat)
  (records : list PartyID) :
  (forall m, m ∈ good -> 0 < bigInt m) -> bigInt bad <= 0 ->
  generatePartiesIDs_pointers bigInt thisMemberID (good ++ bad :: rest)
    thisPartyID groupPartiesIDs records
  = (None, [], records ++ (party_of bigInt <$> good),
     Some ("member ID must be greater than 0, but found ["
           +:+ fmt_int (bigInt bad) +:+ "]")).
Proof.
  revert thisPartyID groupPartiesIDs records.
  induction good as [|m good IH];
    intros thisPartyID groupPartiesIDs records Hgood Hbad.
  - cbn [app generatePartiesIDs_pointers fmap list_fmap].
    destruct (Z.leb_spec (bigInt bad) 0); [|lia]. by rewrite app_nil_r.
  - cbn [app generatePartiesIDs_pointers allocate].
    assert (0 < bigInt m) as Hm by (apply Hgood; left).
    destruct (Z.leb_spec (bigInt m) 0); [lia|].
    rewrite IH; [|intros m' Hm'; apply Hgood; by right|done].
    cbn [fmap list_fmap]. by rewrite <- app_assoc.
Qed.

(** The pointer kept for this member is the one allocated for the last
    entry of the list that is equal to it. *)
Lemma this_pointer_last (thisMemberID : MemberID) (members : list MemberID)
  (next : nat) (before : option nat) :
  (thisMemberID ∉ members ->
   this_pointer thisMemberID members next before = before) /\
  (thisMemberID ∈ members ->
   exists i,
     this_pointer thisMemberID members next before = Some (next + i)%nat /\
     members !! i = Some thisMemberID /\
     forall j, (i < j)%nat -> members !! j <> Some thisMemberID).
Proof.
  revert next before.
  induction members as [|m rest IH]; intros next before.
  - split; [done|]. intros Hin. by apply elem_of_nil in Hin.
  - cbn [this_pointer].
    destruct (IH (Datatypes.S next)
                (if decide (thisMemberID = m) then Some next else before))
      as [IHout IHin].
    destruct (decide (thisMemberID ∈ rest)) as [Hrest|Hrest].
    + split.
      * intros Hout. exfalso. apply Hout. by right.
      * intros _. destruct (IHin Hrest) as (i & Heq & Hi & Hlast).
        exists (Datatypes.S i). split; [rewrite Heq; f_equal; lia|].
        split; [done|].
        intros j Hj. destruct j as [|j]; [lia|]. cbn. apply Hlast. lia.
    + rewrite (IHout Hrest). split.
      * intros Hout. rewrite decide_False; [done|].
        intros ->. apply Hout. left.
      * intros Hin. apply elem_of_cons in Hin as [->|Hin]; [|done].
        rewrite decide_True by done. exists 0%nat.
        split; [f_equal; lia|]. split; [done|].
        intros j Hj. destruct j as [|j]; [lia|]. cbn.
        intros Hlookup. apply Hrest. by eapply list_elem_of_lookup_2.
Qed.

Lemma read_all_seq (before records : list PartyID) :
  read_all (before ++ records) (seq (length before) (length records))
  = records.
Proof.
  revert before. induction records as [|r rest IH]; intros before; [done|].
  cbn [length seq]. unfold read_all. cbn [omap list_omap].
  rewrite lookup_app_r by lia. rewrite Nat.sub_diag. cbn [lookup list_lookup].
  f_equal. specialize (IH (before ++ [r])).
  rewrite <- app_assoc, length_app in IH. cbn [app length] in IH.
  rewrite Nat.add_1_r in IH. exact IH.
Qed.

Lemma first_offender (members : list MemberID) :
  (forall m, m ∈ members -> 0 < bigInt m) \/
  exists good bad rest,
    members = good ++ bad :: rest /\
    (forall m, m ∈ good -> 0 < bigInt m) /\ bigInt bad <= 0.
Proof.
  induction members as [|m rest IH].
  - left. intros m Hm. by apply elem_of_nil in Hm.
  - destruct (Z.le_gt_cases (bigInt m) 0) as [Hle|Hgt].
    + right. exists [], m, rest. split; [done|]. split; [|done].
      intros m' Hm'. by apply elem_of_nil in Hm'.
    + destruct IH as [Hpos|(good & bad & rest' & -> & Hgood & Hbad)].
      * left. intros m' Hm'.
        apply elem_of_cons in Hm' as [->|Hm']; [lia|by apply Hpos].
      * right. exists (m :: good), bad, rest'. split; [done|].
        split; [|done]. intros m' Hm'.
        apply elem_of_cons in Hm' as [->|Hm']; [lia|by apply Hgood].
Qed.

(** The two forms of the loop agree: [generatePartiesIDs] returns what the
    pointers of [generatePartiesIDs_pointers] point to. *)
Lemma generatePartiesIDs_pointers_read (thisMemberID : MemberID)
  (groupMemberIDs : list MemberID) :
  let r :=
    generatePartiesIDs_pointers bigInt thisMemberID groupMemberIDs None [] [] in
  generatePartiesIDs bigInt thisMemberID groupMemberIDs
  = (read r.1.2 r.1.1.1, read_all r.1.2 r.1.1.2, r.2).
Proof.
  intros r. subst r. unfold generatePartiesIDs.
  destruct (first_offender groupMemberIDs)
    as [Hpos|(good & bad & rest & -> & Hgood & Hbad)].
  - rewrite (generatePartiesIDs_loop_positive bigInt) by exact Hpos.
    rewrite generatePartiesIDs_pointers_positive by exact Hpos.
    cbn [fst snd app length].
    pose proof (read_all_seq [] (party_of bigInt <$> groupMemberIDs)) as Hall.
    rewrite length_fmap in Hall. cbn [app length] in Hall. rewrite Hall.
    f_equal. f_equal. rewrite this_party_found.
    destruct (this_pointer_last thisMemberID groupMemberIDs 0 None)
      as [Hout Hin].
    destruct (decide (thisMemberID ∈ groupMemberIDs)) as [Hmem|Hmem].
    + destruct (Hin Hmem) as (i & -> & Hi & _). cbn [read mbind option_bind].
      rewrite Nat.add_0_l, list_lookup_fmap, Hi. reflexivity.
    + by rewrite (Hout Hmem).
  - rewrite (generatePartiesIDs_loop_first thisMemberID good bad rest None []
               Hgood Hbad).
    by rewrite (generatePartiesIDs_pointers_first thisMemberID good bad rest
                  None [] [] Hgood Hbad).
Qed.

(** The order in which [InitializeKeyGeneration] fails, for a group larger
    than the threshold: a member id that is not positive is reported
    whatever the pre-parameters and the bridge are; with positive ids, nil
    pre-parameters panic before the bridge is started; then comes the error
    of the bridge. With none of these, [tss.SortPartyIDs] has been given
    one fresh party id per member, in the order of the list, and the member
    holds the pointers it returned, the size of the group as party count
    and the threshold as given. Its current party id is nil if this member
    is not in the list; otherwise it is the pointer allocated for the last
    entry equal to this member, one of the pointers the sorting was given,
    so that it is among the sorted party ids whenever these are the given
    pointers in some order. *)
Theorem InitializeKeyGeneration_outcomes (memberID : MemberID)
  (groupMemberIDs : list MemberID) (threshold : Z)
  (tssPreParams : option unit) :
  threshold < Z.of_nat (length groupMemberIDs) ->
  let init :=
    InitializeKeyGeneration bigInt SortPartyIDs bridge_start memberID
      groupMemberIDs threshold tssPreParams in
  let given := seq 0 (length groupMemberIDs) in
  let sorting := SortPartyIDs (party_of bigInt <$> groupMemberIDs) given in
  let current := this_pointer memberID groupMemberIDs 0 None in
  (forall good bad rest,
     groupMemberIDs = good ++ bad :: rest ->
     (forall m, m ∈ good -> 0 < bigInt m) -> bigInt bad <= 0 ->
     init = Err ("failed to initialize key generation member: ["
                 +:+ ("failed to generate parties IDs: ["
                      +:+ ("member ID must be greater than 0, but found ["
                           +:+ fmt_int (bigInt bad) +:+ "]") +:+ "]")
                 +:+ "]")) /\
  ((forall m, m ∈ groupMemberIDs -> 0 < bigInt m) ->
   match tssPreParams, bridge_start groupMemberIDs with
   | None, _ => exists msg, init = Panic msg
   | Some _, Some err =>
       init = Err ("failed to initialize key generation member: ["
                   +:+ ("failed to connect bridge network: [" +:+ err +:+ "]")
                   +:+ "]")
   | Some _, None =>
       init = Ret (mkMember
                     (NewParameters sorting.1 current
                        (Z.of_nat (length groupMemberIDs)) threshold),
                   sorting.2)
   end) /\
  (memberID ∉ groupMemberIDs -> current = None) /\
  (memberID ∈ groupMemberIDs ->
   exists p,
     current = Some p /\
     groupMemberIDs !! p = Some memberID /\
     (forall q, (p < q)%nat -> groupMemberIDs !! q <> Some memberID) /\
     p ∈ given /\
     (sorting.1 ≡ₚ given -> p ∈ sorting.1)).
Proof.
  intros Hsize init given sorting current.
  unfold init, InitializeKeyGeneration.
  destruct (Z.leb_spec (Z.of_nat (length groupMemberIDs)) threshold); [lia|].
  unfold initializeKeyGenerationParty.
  destruct (this_pointer_last memberID groupMemberIDs 0 None) as [Hout Hin].
  split; [|split; [|split]].
  - intros good bad rest -> Hgood Hbad.
    by rewrite (generatePartiesIDs_pointers_first memberID good bad rest
                  None [] [] Hgood Hbad).
  - intros Hpos.
    rewrite generatePartiesIDs_pointers_positive by exact Hpos.
    cbn [app length]. rewrite length_seq. unfold sorting, given, current.
    destruct (SortPartyIDs (party_of bigInt <$> groupMemberIDs)
                (seq 0 (length groupMemberIDs))) as [sorted records].
    destruct tssPreParams as [params|]; [|by eexists].
    by destruct (bridge_start groupMemberIDs).
  - exact Hout.
  - intros Hmem. destruct (Hin Hmem) as (i & Heq & Hi & Hlast).
    rewrite Nat.add_0_l in Heq. exists i. split; [exact Heq|].
    split; [exact Hi|]. split; [exact Hlast|].
    assert (i ∈ given) as Hgiven.
    { unfold given. apply elem_of_seq.
      pose proof (lookup_lt_Some _ _ _ Hi). lia. }
    split; [exact Hgiven|].
    intros Hperm. by rewrite Hperm.
Qed.

End MoreParties.

(** A group of two whose second member is this member, and a group whose
    second id is empty. *)
Lemma generatePartiesIDs_this_member_witness :
  (generatePartiesIDs bigInt_of_bytes "b" ["a"; "b"]).1.1
  = Some (mkPartyID "b" "" 98 (-1)) /\
  (generatePartiesIDs bigInt_of_bytes "c" ["a"; "b"]).1.1 = None.
Proof.
  assert (forall m, m ∈ ["a"; "b"] -> 0 < bigInt_of_bytes m) as Hpos.
  { intros m Hm.
    apply elem_of_cons in Hm as [->|Hm]; [reflexivity|].
    apply elem_of_cons in Hm as [->|Hm]; [reflexivity|].
    by apply elem_of_nil in Hm. }
  split.
  - exact (generatePartiesIDs_this_member bigInt_of_bytes "b" ["a"; "b"] Hpos).
  - exact (generatePartiesIDs_this_member bigInt_of_bytes "c" ["a"; "b"] Hpos).
Defined.

Lemma generatePartiesIDs_first_offender_witness :
  generatePartiesIDs bigInt_of_bytes "a" (["a"] ++ "" :: ["b"; ""])
  = (None, [], Some "member ID must be greater than 0, but found [0]").
Proof.
  refine (generatePartiesIDs_first_offender bigInt_of_bytes "a" ["a"] ""
            ["b"; ""] _ _).
  - intros m Hm. apply list_elem_of_singleton in Hm. subst m. reflexivity.
  - discriminate.
Defined.

Lemma InitializeKeyGeneration_outcomes_witness :
  InitializeKeyGeneration bigInt_of_bytes sort_in_order
    (fun _ => Some "no peers") "a" ["a"; ""] 1 None
  = Err "failed to initialize key generation member: [failed to generate parties IDs: [member ID must be greater than 0, but found [0]]]".
Proof.
  refine (proj1 (InitializeKeyGeneration_outcomes bigInt_of_bytes
                   sort_in_order (fun _ => Some "no peers") "a" ["a"; ""]
                   1 None _) ["a"] "" [] eq_refl _ _).
  - reflexivity.
  - intros m Hm. apply list_elem_of_singleton in Hm. subst m. reflexivity.
  - discriminate.
Defined.

(** With a sorting that assigns the indexes, the current party id of the
    second of two members is the pointer [1], and the record it points to
    has the index the sorting gave it. *)
Example InitializeKeyGeneration_shares_pointer :
  InitializeKeyGeneration bigInt_of_bytes sort_in_order (fun _ => None)
    "b" ["a"; "b"] 1 (Some tt)
  = Ret (mkMember (NewParameters [0; 1]%nat (Some 1%nat) 2 1),
         [mkPartyID "a" "" 97 0; mkPartyID "b" "" 98 1]).
Proof. reflexivity. Qed.

(** *** More on the signature conversion *)

Lemma big_endian_value_bound (buf : list byte) :
  0 <= big_endian_value buf < 256 ^ Z.of_nat (length buf).
Proof.
  induction buf as [|b rest IH]; [cbn; lia|].
  cbn [big_endian_value length]. rewrite Nat2Z.inj_succ, Z.pow_succ_r by lia.
  pose proof (int_of_byte_range b). nia.
Qed.

(** The signature the conversion returns is not validated: the recovery id
    is any value from 0 to 255, and R and S are non-negative numbers below
    256 to the length of their byte slices, unchanged by leading zero
    bytes. *)
Theorem convertSignatureTSStoECDSA_bounds (tssSignature : SignatureData)
  (signature : ecdsa.Signature) :
  convertSignatureTSStoECDSA tssSignature = Ret signature ->
  0 <= ecdsa.RecoveryID signature <= 255 /\
  0 <= ecdsa.R signature < 256 ^ Z.of_nat (length (GetR tssSignature)) /\
  0 <= ecdsa.S signature < 256 ^ Z.of_nat (length (GetS tssSignature)) /\
  convertSignatureTSStoECDSA
    (mkSignatureData (GetSignatureRecovery tssSignature)
       (x00 :: GetR tssSignature) (x00 :: x00 :: GetS tssSignature))
  = Ret signature.
Proof.
  destruct tssSignature as [recovery r s]. unfold convertSignatureTSStoECDSA.
  cbn [GetSignatureRecovery GetR GetS].
  destruct recovery as [|b0 rest]; [discriminate|].
  intros Heq. injection Heq as <-.
  cbn [ecdsa.RecoveryID ecdsa.R ecdsa.S].
  rewrite recovery_int, !SetBytes_big_endian.
  pose proof (int_of_byte_range b0).
  pose proof (big_endian_value_bound r). pose proof (big_endian_value_bound s).
  repeat (split; [lia|]).
  do 2 f_equal.
Qed.

Lemma convertSignatureTSStoECDSA_bounds_witness :
  0 <= 255 <= 255 /\ 0 <= 258 < 256 ^ 2 /\ 0 <= 16 < 256 ^ 1 /\
  convertSignatureTSStoECDSA (mkSignatureData [xff] [x00; x01; x02] [x00; x00; x10])
  = Ret (ecdsa.mkSignature 258 16 255).
Proof.
  exact (convertSignatureTSStoECDSA_bounds
           (mkSignatureData [xff] [x01; x02] [x10])
           (ecdsa.mkSignature 258 16 255) eq_refl).
Defined.

(** *** More on the start barrier *)

Lemma returned_stays (s s' : session) (i : nat) (err : string) :
  step s s' -> phases s !! i = Some (Returned err) ->
  phases s' !! i = Some (Returned err).
Proof.
  intros Hstep Hi.
  destruct Hstep as [s j Hj|s j e Hj|s j counter Hj Hdone|s j msg Hj Hdone
                    |s j Hj Hwait|s]; cbn [phases]; try done;
    (destruct (decide (j = i)) as [->|Hne];
     [congruence|by rewrite list_lookup_insert_ne]).
Qed.

Lemma unsignalled_member (ps : list phase) (i : nat) (p : phase) :
  ps !! i = Some p -> signalled p = false -> 1 <= unsignalled ps.
Proof.
  revert i. induction ps as [|p0 rest IH]; intros i Hi Hp; [done|].
  destruct i as [|i]; simpl in *.
  - injection Hi as ->. rewrite Hp. pose proof (unsignalled_nonneg rest). lia.
  - specialize (IH i Hi Hp). destruct (signalled p0); lia.
Qed.

(** A member that returns an error before the barrier keeps every member
    from starting: in a session whose wait group was set to the number of
    members, once a member has returned, no member has started and none
    ever starts. *)
Theorem returned_member_blocks_start (n : nat) (s s' : session) (i : nat)
  (err : string) :
  steps (session_start n) s ->
  phases s !! i = Some (Returned err) ->
  steps s s' ->
  forall j, phases s' !! j <> Some Started.
Proof.
  intros Hreach Hi Hsteps j Hj.
  assert (phases s' !! i = Some (Returned err)) as Hi'.
  { clear Hreach Hj. induction Hsteps as [|s1 s2 s3 _ IH Hstep]; [done|].
    by apply (returned_stays s2 s3), IH. }
  destruct (barrier_inv_steps n s' (steps_trans _ _ _ Hreach Hsteps))
    as (_ & Hsync & Hzero).
  pose proof (unsignalled_member _ _ _ Hi' eq_refl).
  specialize (Hzero (ex_intro _ j Hj)). lia.
Qed.

Lemma returned_member_blocks_start_witness :
  phases stuck_session !! 0%nat <> Some Started.
Proof.
  exact (returned_member_blocks_start 3 stuck_session stuck_session 2
           "failed to initialize signer" stuck_session_reached eq_refl
           (steps_refl stuck_session) 0%nat).
Defined.

(** [Done] never panics in a session whose wait group was set to the
    number of members: no member is ever left crashed. *)
Theorem done_never_panics (n : nat) (s : session) :
  steps (session_start n) s ->
  forall i, phases s !! i <> Some Crashed.
Proof.
  intros Hreach.
  assert (forall s0, barrier_inv n s0 ->
            (forall i, phases s0 !! i <> Some Crashed) ->
            forall s1, steps s0 s1 -> forall i, phases s1 !! i <> Some Crashed)
    as Hgen.
  { intros s0 Hinv0 Hnone s1 Hsteps.
    induction Hsteps as [|s1 s2 s3 H12 IH H23]; [done|].
    specialize (IH Hinv0 Hnone).
    pose proof (barrier_inv_reach n _ _ Hinv0 H12) as (_ & Hsync & _).
    intros i Hi.
    destruct H23 as [t j Hj|t j e Hj|t j counter Hj Hdone|t j msg Hj Hdone
                    |t j Hj Hwait|t]; cbn [phases] in Hi;
      try (destruct (decide (j = i)) as [->|Hne];
           [apply list_lookup_insert_Some in Hi as [[_ [? _]]|[? _]]; congruence
           |rewrite list_lookup_insert_ne in Hi by done; by apply (IH i)]).
    - unfold WaitGroup_Done in Hdone.
      destruct (Z.ltb_spec (sync t - 1) 0); [|discriminate].
      pose proof (unsignalled_member _ _ _ Hj eq_refl). lia.
    - by apply (IH i). }
  apply (Hgen (session_start n)); [apply barrier_inv_start| |done].
  intros i Hi. apply lookup_replicate in Hi as [? _]. discriminate.
Qed.

Lemma done_never_panics_witness :
  phases started_session !! 1%nat <> Some Crashed.
Proof.
  exact (done_never_panics 2 started_session started_session_reached 1%nat).
Defined.

Lemma lookup_replicate_boundary {A} (a b : A) (k m : nat) :
  (replicate k a ++ replicate (Datatypes.S m) b) !! k = Some b.
Proof. induction k as [|k IH]; [done|exact IH]. Qed.

Lemma insert_replicate_boundary {A} (a b : A) (k m : nat) :
  <[k := a]> (replicate k a ++ replicate (Datatypes.S m) b)
  = replicate (Datatypes.S k) a ++ replicate m b.
Proof.
  induction k as [|k IH]; [done|].
  cbn [replicate app]. cbn. f_equal. exact IH.
Qed.

Lemma steps_one (s s' : session) : step s s' -> steps s s'.
Proof. intros Hstep. eapply steps_next; [apply steps_refl|exact Hstep]. Qed.

Lemma all_initialize (c e : Z) (m k : nat) :
  steps (mkSession c (replicate k Initialized ++ replicate m Initializing) e)
        (mkSession c (replicate (k + m) Initialized) e).
Proof.
  revert k. induction m as [|m IH]; intros k.
  - rewrite Nat.add_0_r. cbn [replicate]. rewrite app_nil_r. apply steps_refl.
  - eapply steps_trans; [apply steps_one|].
    + apply (step_initialized _ k). cbn [phases]. apply lookup_replicate_boundary.
    + cbn [sync phases elapsed]. rewrite insert_replicate_boundary.
      replace (k + Datatypes.S m)%nat with (Datatypes.S k + m)%nat by lia.
      apply IH.
Qed.

Lemma all_signal (e : Z) (m k : nat) :
  steps (mkSession (Z.of_nat m) (replicate k Waiting ++ replicate m Initialized) e)
        (mkSession 0 (replicate (k + m) Waiting) e).
Proof.
  revert k. induction m as [|m IH]; intros k.
  - rewrite Nat.add_0_r. cbn [replicate]. rewrite app_nil_r. apply steps_refl.
  - eapply steps_trans; [apply steps_one|].
    + apply (step_done _ k (Z.of_nat m)); cbn [phases sync].
      * apply lookup_replicate_boundary.
      * unfold WaitGroup_Done.
        destruct (Z.ltb_spec (Z.of_nat (Datatypes.S m) - 1) 0); [lia|].
        f_equal. lia.
    + cbn [sync phases elapsed]. rewrite insert_replicate_boundary.
      replace (k + Datatypes.S m)%nat with (Datatypes.S k + m)%nat by lia.
      apply IH.
Qed.

Lemma all_leave (e : Z) (m k : nat) :
  steps (mkSession 0 (replicate k Started ++ replicate m Waiting) e)
        (mkSession 0 (replicate (k + m) Started) e).
Proof.
  revert k. induction m as [|m IH]; intros k.
  - rewrite Nat.add_0_r. cbn [replicate]. rewrite app_nil_r. apply steps_refl.
  - eapply steps_trans; [apply steps_one|].
    + apply (step_wait _ k); cbn [phases sync]; [|reflexivity].
      apply lookup_replicate_boundary.
    + cbn [sync phases elapsed]. rewrite insert_replicate_boundary.
      replace (k + Datatypes.S m)%nat with (Datatypes.S k + m)%nat by lia.
      apply IH.
Qed.

(** The barrier opens: when every member of a session initializes its
    party, there is a run in which all of them call [Done], the counter
    reaches zero, and all of them start. *)
Theorem all_members_can_start (n : nat) :
  steps (session_start n) (mkSession 0 (replicate n Started) 0).
Proof.
  eapply steps_trans; [exact (all_initialize (Z.of_nat n) 0 n 0)|].
  eapply steps_trans; [exact (all_signal 0 n 0)|].
  exact (all_leave 0 n 0).
Qed.

End TssFacts.

(** ** Package ethereum: the block counter *)

Module BlockCounterFacts.

Import BlockCounter GoFacts.

(** *** The loop over the watchers *)

Lemma watcher_effect_cons ready height x ws e :
  watcher_effect ready height ws e -> watcher_effect ready height (x :: ws) e.
Proof.
  intros [H|[[c (-> & Hr & Hin)]|[c (-> & Hr & Hin)]]].
  - by left.
  - right; left. exists c. rewrite fmap_cons. repeat split; [done|by right].
  - right; right. exists c. rewrite fmap_cons. repeat split; [done|by right].
Qed.

Lemma notify_watchers_effects cancelled ready height ws closed closed' effects panic :
  notify_watchers cancelled ready height ws closed = (closed', effects, panic) ->
  Forall (watcher_effect ready height ws) effects.
Proof.
  revert closed closed' effects panic.
  induction ws as [|x rest IH]; intros closed closed' effects panic Heq;
    cbn [notify_watchers] in Heq.
  - injection Heq as <- <- <-. constructor.
  - repeat case_decide.
    + injection Heq as <- <- <-. constructor.
    + destruct (notify_watchers cancelled ready height rest ({[channel x]} ∪ closed))
        as [[c1 es1] p1] eqn:Hrest.
      injection Heq as <- <- <-. constructor.
      * left. by eexists.
      * eapply Forall_impl; [by eapply IH|]. intros e. apply watcher_effect_cons.
    + injection Heq as <- <- <-. constructor.
    + destruct (notify_watchers cancelled ready height rest closed)
        as [[c1 es1] p1] eqn:Hrest.
      destruct (ready (channel x)) eqn:Hready; injection Heq as <- <- <-;
        (constructor;
         [|eapply Forall_impl; [by eapply IH|]; intros e; apply watcher_effect_cons]).
      * right; left. exists (channel x). rewrite fmap_cons.
        repeat split; [done|by left].
      * right; right. exists (channel x). rewrite fmap_cons.
        repeat split; [done|by left].
Qed.

Lemma delivered_to_app ch l1 l2 :
  delivered_to ch (l1 ++ l2) = delivered_to ch l1 ++ delivered_to ch l2.
Proof. apply omap_app. Qed.

Lemma delivered_to_cons ch e l :
  delivered_to ch (e :: l) = delivered_to ch [e] ++ delivered_to ch l.
Proof. apply (delivered_to_app ch [e] l). Qed.

Lemma woken_at_app c l1 l2 :
  woken_at c (l1 ++ l2) = woken_at c l1 ++ woken_at c l2.
Proof. apply omap_app. Qed.

Lemma woken_at_cons c e l :
  woken_at c (e :: l) = woken_at c [e] ++ woken_at c l.
Proof. apply (woken_at_app c [e] l). Qed.

Lemma elem_of_delivered_to ch h l :
  h ∈ delivered_to ch l <-> Delivered ch h ∈ l.
Proof.
  unfold delivered_to. rewrite list_elem_of_omap. split.
  - intros [e [Hin He]]. destruct e; try discriminate.
    case_decide; [|discriminate]. injection He as ->. by subst.
  - intros Hin. exists (Delivered ch h). split; [done|].
    by rewrite decide_True.
Qed.

Lemma elem_of_woken_at c h l : h ∈ woken_at c l <-> Woken c h ∈ l.
Proof.
  unfold woken_at. rewrite list_elem_of_omap. split.
  - intros [e [Hin He]]. destruct e; try discriminate.
    case_decide; [|discriminate]. injection He as ->. by subst.
  - intros Hin. exists (Woken c h). split; [done|].
    by rewrite decide_True.
Qed.

Lemma delivered_to_absent ch ready height ws effects :
  Forall (watcher_effect ready height ws) effects ->
  ch ∉ channel <$> ws -> delivered_to ch effects = [].
Proof.
  intros Hall Hch. destruct (delivered_to ch effects) as [|h l] eqn:Hd; [done|].
  assert (h ∈ delivered_to ch effects) as Hin by (rewrite Hd; left).
  apply elem_of_delivered_to in Hin.
  rewrite Forall_forall in Hall. apply Hall in Hin.
  destruct Hin as [[c ?]|[[c (? & _ & ?)]|[c (? & _)]]]; simplify_eq. done.
Qed.

Lemma notify_watchers_delivers_once cancelled ready height ws closed closed' effects panic ch :
  NoDup (channel <$> ws) ->
  notify_watchers cancelled ready height ws closed = (closed', effects, panic) ->
  delivered_to ch effects = [] \/ delivered_to ch effects = [height].
Proof.
  revert closed closed' effects panic.
  induction ws as [|x rest IH]; intros closed closed' effects panic Hnodup Heq;
    cbn [notify_watchers] in Heq.
  - injection Heq as <- <- <-. by left.
  - rewrite fmap_cons in Hnodup. apply NoDup_cons in Hnodup as [Hx Hnodup].
    repeat case_decide.
    + injection Heq as <- <- <-. by left.
    + destruct (notify_watchers cancelled ready height rest ({[channel x]} ∪ closed))
        as [[c1 es1] p1] eqn:Hrest.
      injection Heq as <- <- <-. cbn. by eapply IH.
    + injection Heq as <- <- <-. by left.
    + destruct (notify_watchers cancelled ready height rest closed)
        as [[c1 es1] p1] eqn:Hrest.
      pose proof (notify_watchers_effects _ _ _ _ _ _ _ _ Hrest) as Hkind.
      destruct (ready (channel x)); injection Heq as <- <- <-;
        rewrite delivered_to_cons.
      * destruct (decide (channel x = ch)) as [<-|Hne].
        -- right. rewrite (delivered_to_absent _ _ _ _ _ Hkind Hx).
           cbn. by rewrite decide_True.
        -- replace (delivered_to ch [Delivered (channel x) height])
             with (@nil Z) by (cbn; by rewrite decide_False).
           by eapply IH.
      * by eapply IH.
Qed.

Lemma notify_watchers_serves_all cancelled ready height ws closed closed' effects :
  notify_watchers cancelled ready height ws closed = (closed', effects, None) ->
  forall x, x ∈ ws -> ctx x ∉ cancelled ->
    if ready (channel x) then Delivered (channel x) height ∈ effects
    else Dropped (channel x) height ∈ effects.
Proof.
  revert closed closed' effects.
  induction ws as [|y rest IH]; intros closed closed' effects Heq x Hx Hctx;
    [by apply elem_of_nil in Hx|].
  cbn [notify_watchers] in Heq.
  repeat case_decide; try discriminate.
  - destruct (notify_watchers cancelled ready height rest ({[channel y]} ∪ closed))
      as [[c1 es1] p1] eqn:Hrest.
    injection Heq as <- <- ->.
    apply elem_of_cons in Hx as [->|Hx]; [done|].
    specialize (IH _ _ _ Hrest x Hx Hctx).
    destruct (ready (channel x)); by right.
  - destruct (notify_watchers cancelled ready height rest closed)
      as [[c1 es1] p1] eqn:Hrest.
    apply elem_of_cons in Hx as [->|Hx].
    + destruct (ready (channel y)); injection Heq as <- <- ->; left.
    + destruct (ready (channel y)) eqn:Hy; injection Heq as <- <- ->;
        specialize (IH _ _ _ Hrest x Hx Hctx);
        destruct (ready (channel x)); by right.
Qed.

(** *** One statement of [receiveBlocks] *)

Lemma Uint64_range (x : Z) : 0 <= Uint64 x < 2 ^ 64.
Proof. unfold Uint64. apply Z.mod_pos_bound. lia. Qed.

Lemma iterate_looping (ready : nat -> bool) (w : world) (u r : Z) :
  pc w = Looping u r -> u <= r ->
  exists closed' effects panic,
    notify_watchers (cancelled w) ready u (watchers (ebc w)) (closed w)
    = (closed', effects, panic) /\
    iterate ready w
    = mkWorld
        (mkCounter (uint64_wrap (latestBlockHeight (ebc w) + 1))
           (delete u (waiters (ebc w))) (watchers (ebc w)))
        (Looping (uint64_wrap (u + 1)) r) (cancelled w) closed' (next_chan w)
        (log w ++ ((fun c => Woken c u) <$> default [] (waiters (ebc w) !! u))
           ++ effects)
        panic.
Proof.
  intros Hpc Hle. unfold iterate, receiveBlocks_body. rewrite Hpc.
  destruct (Z.leb_spec u r); [|lia].
  destruct (notify_watchers (cancelled w) ready u (watchers (ebc w)) (closed w))
    as [[closed' effects] panic].
  by exists closed', effects, panic.
Qed.

Lemma iterate_leaving (ready : nat -> bool) (w : world) (u r : Z) :
  pc w = Looping u r -> r < u ->
  iterate ready w
  = mkWorld (ebc w) Receiving (cancelled w) (closed w) (next_chan w) (log w)
      (crash w).
Proof.
  intros Hpc Hlt. unfold iterate. rewrite Hpc.
  destruct (Z.leb_spec u r); [lia|reflexivity].
Qed.

Lemma woken_at_wakes (c : nat) (h : Z) (ws : list nat) :
  NoDup ws ->
  woken_at c ((fun c' => Woken c' h) <$> ws) = if decide (c ∈ ws) then [h] else [].
Proof.
  induction ws as [|c0 rest IH]; intros Hnodup.
  - by rewrite decide_False by apply not_elem_of_nil.
  - apply NoDup_cons in Hnodup as [Hc0 Hnodup].
    rewrite fmap_cons, woken_at_cons, IH by done. cbn.
    destruct (decide (c0 = c)) as [->|Hne].
    + rewrite decide_False by done. rewrite decide_True by left. done.
    + destruct (decide (c ∈ rest)) as [Hrest|Hrest].
      * rewrite decide_True by (by right). done.
      * rewrite decide_False; [done|]. rewrite elem_of_cons.
        intros [Heq|Hin]; [by apply Hne|by apply Hrest].
Qed.

Lemma watcher_effect_not_woken ready height ws effects c :
  Forall (watcher_effect ready height ws) effects -> woken_at c effects = [].
Proof.
  intros Hall. destruct (woken_at c effects) as [|h l] eqn:Hw; [done|].
  assert (h ∈ woken_at c effects) as Hin by (rewrite Hw; left).
  apply elem_of_woken_at in Hin. rewrite Forall_forall in Hall.
  apply Hall in Hin.
  destruct Hin as [[? ?]|[[? (? & _)]|[? (? & _)]]]; discriminate.
Qed.

Lemma watcher_effect_not_registered ready height ws effects c h :
  Forall (watcher_effect ready height ws) effects -> Registered c h ∉ effects.
Proof.
  intros Hall Hin. rewrite Forall_forall in Hall. apply Hall in Hin.
  destruct Hin as [[? ?]|[[? (? & _)]|[? (? & _)]]]; discriminate.
Qed.

Lemma delivered_to_wakes (c : nat) (h : Z) (ws : list nat) :
  delivered_to c ((fun c' => Woken c' h) <$> ws) = [].
Proof. induction ws as [|c0 rest IH]; [done|]. by rewrite fmap_cons. Qed.

(** *** Removing a watcher *)

Lemma find_watcher_split (target : watcher) (ws : list watcher) (i : nat) :
  find_watcher target ws = Some i ->
  exists l1 l2, ws = l1 ++ target :: l2 /\ length l1 = i.
Proof.
  revert i. induction ws as [|x rest IH]; intros i Hfind; [done|].
  cbn [find_watcher] in Hfind. case_decide as Hx.
  - injection Hfind as <-. subst x. by exists [], rest.
  - destruct (find_watcher target rest) as [j|] eqn:Hj; [|done].
    injection Hfind as <-.
    destruct (IH j eq_refl) as (l1 & l2 & -> & <-).
    by exists (x :: l1), l2.
Qed.

Lemma remove_watcher_shape (target : watcher) (ws : list watcher) :
  remove_watcher target ws = ws \/
  exists l1 l2,
    ws = l1 ++ target :: l2 /\
    ((l2 = [] /\ remove_watcher target ws = l1) \/
     exists l2' z, l2 = l2' ++ [z] /\ remove_watcher target ws = l1 ++ z :: l2').
Proof.
  unfold remove_watcher.
  destruct (find_watcher target ws) as [i|] eqn:Hfind; [|by left].
  right. apply find_watcher_split in Hfind as (l1 & l2 & -> & <-).
  exists l1, l2. split; [done|].
  induction l2 as [|z l2' _] using rev_ind.
  - left. split; [done|].
    rewrite last_snoc. cbn [default].
    rewrite insert_app_r_alt by lia. rewrite Nat.sub_diag. simpl insert.
    rewrite length_app. cbn [length].
    replace (length l1 + 1 - 1)%nat with (length l1) by lia.
    apply take_app_length.
  - right. exists l2', z. split; [done|].
    replace (l1 ++ target :: l2' ++ [z]) with ((l1 ++ target :: l2') ++ [z])
      by (by rewrite <- app_assoc).
    rewrite last_snoc. cbn [default].
    rewrite <- app_assoc. cbn [app].
    rewrite insert_app_r_alt by lia. rewrite Nat.sub_diag. simpl insert.
    replace (l1 ++ z :: l2' ++ [z]) with ((l1 ++ z :: l2') ++ [z])
      by (by rewrite <- app_assoc).
    apply take_app_length'.
    rewrite !length_app. cbn [length]. rewrite length_app. cbn [length]. lia.
Qed.

Lemma remove_watcher_subset (target : watcher) (ws : list watcher) (x : watcher) :
  x ∈ remove_watcher target ws -> x ∈ ws.
Proof.
  destruct (remove_watcher_shape target ws)
    as [->|(l1 & l2 & -> & [[-> ->]|(l2' & z & -> & ->)])]; [done| |].
  - intros Hx. apply elem_of_app. by left.
  - rewrite !elem_of_app, !elem_of_cons, !elem_of_app, list_elem_of_singleton.
    intros [Hx|[Hx|Hx]]; tauto.
Qed.

Lemma remove_watcher_NoDup (target : watcher) (ws : list watcher) :
  NoDup (channel <$> ws) -> NoDup (channel <$> remove_watcher target ws).
Proof.
  destruct (remove_watcher_shape target ws)
    as [->|(l1 & l2 & -> & [[-> ->]|(l2' & z & -> & ->)])]; [done| |].
  - rewrite fmap_app. rewrite NoDup_app. by intros (Hl1 & _ & _).
  - rewrite !fmap_app, !fmap_cons, !fmap_app. cbn [fmap list_fmap].
    rewrite !NoDup_app, !NoDup_cons, !NoDup_app.
    intros (H1 & H2 & H3 & H4 & H5 & H6).
    split; [done|]. split.
    + intros c Hc Hin. apply (H2 c Hc).
      apply elem_of_cons in Hin as [->|Hin].
      * right. apply elem_of_app. right. left.
      * right. apply elem_of_app. by left.
    + split; [|done].
      intros Hz. apply (H5 (channel z) Hz). left.
Qed.

(** *** The invariants *)

Lemma world_ok_start (startupBlock : Z) :
  below_max startupBlock -> world_ok (createBlockCounter startupBlock).
Proof.
  intros Hmax. pose proof (Uint64_range startupBlock) as Hrange.
  unfold world_ok, counter_ok, watchers_ok, waiters_ok, createBlockCounter.
  cbn [ebc pc log latestBlockHeight waiters watchers next_chan].
  split; [|split].
  - split; [|done]. unfold below_max in Hmax. lia.
  - split; [constructor|]. split; [intros x Hx; by apply elem_of_nil in Hx|].
    split; [intros c h Hin; by apply elem_of_nil in Hin|].
    split; [intros c h Hin; by apply elem_of_nil in Hin|].
    intros c. constructor.
  - split; [intros h ws Hh; by rewrite lookup_empty in Hh|].
    split; [intros c h Hin; by apply elem_of_nil in Hin|].
    split; [intros c h Hin; by apply elem_of_nil in Hin|].
    split; [intros c h h' Hin; by apply elem_of_nil in Hin|].
    intros c. cbn. lia.
Qed.

Lemma counter_ok_step (w : world) (e : event) :
  counter_ok w -> event_below_max e ->
  counter_ok (step w e) /\
  latestBlockHeight (ebc w) <= latestBlockHeight (ebc (step w e)).
Proof.
  intros [Hlatest Hpc] Hmax. unfold step.
  destruct (crash w); [by split; [split|lia]|].
  assert (max_uint64 = 2 ^ 64 - 1) as Hm by reflexivity.
  destruct e as [number|ready|c|c|target|height].
  - unfold receive_block. destruct (pc w) eqn:Hw.
    + destruct (Z.eqb_spec (Uint64 number) (latestBlockHeight (ebc w))).
      * split; [split; [done|by rewrite Hw]|lia].
      * split; [|cbn; lia]. split; [done|]. cbn [pc ebc].
        specialize (Hmax number eq_refl). unfold below_max in Hmax.
        split; [|done]. apply uint64_wrap_small. lia.
    + split; [split; [done|by rewrite Hw]|lia].
  - destruct (pc w) as [|u r] eqn:Hw.
    + unfold iterate. rewrite Hw. split; [split; [done|by rewrite Hw]|lia].
    + destruct Hpc as [-> Hr]. destruct (Z.le_gt_cases (latestBlockHeight (ebc w) + 1) r) as [Hle|Hgt].
      * destruct (iterate_looping ready w _ r Hw Hle)
          as (closed' & effects & panic & _ & ->).
        unfold counter_ok. cbn [ebc pc latestBlockHeight].
        rewrite !uint64_wrap_small by lia. split; [|lia]. split; [lia|]. done.
      * rewrite (iterate_leaving ready w _ r Hw) by lia.
        unfold counter_ok. cbn [ebc pc]. split; [|lia]. done.
  - cbn. split; [|lia]. split; [done|]. exact Hpc.
  - cbn. split; [|lia]. split; [done|]. exact Hpc.
  - unfold unwatch. case_decide; cbn; (split; [|lia]); (split; [done|]); exact Hpc.
  - unfold WaitForBlockHeight.
    destruct (Z.leb_spec height (latestBlockHeight (ebc w))); cbn;
      (split; [|lia]); (split; [done|]); exact Hpc.
Qed.

Lemma elem_of_snoc {A} (l : list A) (x y : A) : x ∈ l ++ [y] <-> x ∈ l \/ x = y.
Proof. by rewrite elem_of_app, list_elem_of_singleton. Qed.

Lemma watchers_ok_step (w : world) (e : event) :
  counter_ok w -> watchers_ok w -> watchers_ok (step w e).
Proof.
  intros [Hlatest Hpc] (Hnodup & Hfresh & Hdel & Hdrop & Hsorted). unfold step.
  destruct (crash w); [done|].
  assert (max_uint64 = 2 ^ 64 - 1) as Hm by reflexivity.
  destruct e as [number|ready|c|c|target|height].
  - unfold receive_block. destruct (pc w); [|done].
    destruct (Z.eqb_spec (Uint64 number) (latestBlockHeight (ebc w))); done.
  - destruct (pc w) as [|u r] eqn:Hw.
    + unfold iterate. by rewrite Hw.
    + destruct Hpc as [-> Hr].
      destruct (Z.le_gt_cases (latestBlockHeight (ebc w) + 1) r) as [Hle|Hgt];
        [|by rewrite (iterate_leaving ready w _ r Hw) by lia].
      destruct (iterate_looping ready w _ r Hw Hle)
        as (closed' & effects & panic & Hnotify & ->).
      pose proof (notify_watchers_effects _ _ _ _ _ _ _ _ Hnotify) as Hkind.
      rewrite Forall_forall in Hkind.
      unfold watchers_ok. cbn [ebc log latestBlockHeight watchers next_chan].
      rewrite uint64_wrap_small by lia.
      set (h := latestBlockHeight (ebc w) + 1) in *.
      set (wakes := (fun c : nat => Woken c h) <$> default [] (waiters (ebc w) !! h)).
      assert (forall e, e ∈ wakes -> exists c, e = Woken c h) as Hwakes.
      { intros e He. apply list_elem_of_fmap in He as (c & -> & _). by exists c. }
      split; [done|]. split; [done|]. split; [|split].
      * intros c h' Hin. rewrite !elem_of_app in Hin.
        destruct Hin as [Hin|[Hin|Hin]].
        -- specialize (Hdel c h' Hin). lia.
        -- apply Hwakes in Hin as [? ?]. discriminate.
        -- apply Hkind in Hin as [[? ?]|[[? (Heq & _)]|[? (? & _)]]];
             try discriminate. injection Heq as -> ->. lia.
      * intros c h' Hin. rewrite !elem_of_app in Hin. rewrite !not_elem_of_app.
        destruct Hin as [Hin|[Hin|Hin]].
        -- destruct (Hdrop c h' Hin) as [Hle' Hnot]. split; [lia|].
           split; [done|]. split.
           ++ intros Hin'. apply Hwakes in Hin' as [? ?]. discriminate.
           ++ intros Hin'.
              apply Hkind in Hin' as [[? ?]|[[? (Heq & _)]|[? (? & _)]]];
                try discriminate. injection Heq as -> ->. lia.
        -- apply Hwakes in Hin as [? ?]. discriminate.
        -- apply Hkind in Hin as [[? ?]|[[? (? & _)]|[c' (Heq & Hready & _)]]];
             try discriminate. injection Heq as -> ->. split; [lia|].
           split; [|split].
           ++ intros Hin'. specialize (Hdel _ _ Hin'). lia.
           ++ intros Hin'. apply Hwakes in Hin' as [? ?]. discriminate.
           ++ intros Hin'.
              apply Hkind in Hin' as [[? ?]|[[? (Heq & Hready' & _)]|[? (? & _)]]];
                try discriminate. injection Heq as ->. congruence.
      * intros c. rewrite !delivered_to_app. unfold wakes.
        rewrite delivered_to_wakes. cbn [app].
        apply StronglySorted_app_2; [|done|].
        -- intros x1 x2 Hx1 Hx2. apply elem_of_delivered_to in Hx1, Hx2.
           specialize (Hdel _ _ Hx1).
           apply Hkind in Hx2 as [[? ?]|[[? (Heq & _)]|[? (? & _)]]];
             try discriminate. injection Heq as _ ->. lia.
        -- destruct (notify_watchers_delivers_once _ _ _ _ _ _ _ _ c Hnodup Hnotify)
             as [->| ->]; repeat constructor.
  - unfold watchers_ok. cbn [WatchBlocks ebc log latestBlockHeight watchers next_chan].
    split; [|split; [|done]].
    + rewrite fmap_app. apply NoDup_app. split; [done|]. split; [|apply NoDup_singleton].
      intros ch Hch Hin. apply list_elem_of_singleton in Hin. cbn in Hin. subst ch.
      apply list_elem_of_fmap in Hch as (x & Hx & Hin). specialize (Hfresh x Hin). lia.
    + intros x Hx. apply elem_of_snoc in Hx as [Hx| ->].
      * specialize (Hfresh x Hx). lia.
      * cbn. lia.
  - done.
  - unfold unwatch. case_decide; [|done].
    unfold watchers_ok. cbn [ebc log latestBlockHeight watchers next_chan].
    split; [by apply remove_watcher_NoDup|]. split; [|done].
    intros x Hx. apply Hfresh. by apply (remove_watcher_subset target).
  - unfold WaitForBlockHeight.
    destruct (Z.leb_spec height (latestBlockHeight (ebc w)));
      unfold watchers_ok; cbn [ebc log latestBlockHeight watchers next_chan];
      (split; [done|]);
      (split; [intros x Hx; specialize (Hfresh x Hx); lia|]);
      (split; [intros c h Hin; apply elem_of_snoc in Hin as [Hin|?];
               [by apply (Hdel c)|discriminate]|]);
      (split; [intros c h Hin; apply elem_of_snoc in Hin as [Hin|?];
               [|discriminate]; destruct (Hdrop c h Hin) as [? Hnot];
               split; [done|]; rewrite elem_of_snoc;
               intros [?|?]; [done|discriminate]|]);
      intros c; rewrite delivered_to_app; cbn; by rewrite app_nil_r.
Qed.

Lemma waiters_at (m : gmap Z (list nat)) (h : Z) (c : nat) :
  c ∈ default [] (m !! h) -> exists ws, m !! h = Some ws /\ c ∈ ws.
Proof.
  destruct (m !! h) as [ws|]; cbn; [by exists ws|].
  intros Hc. by apply elem_of_nil in Hc.
Qed.

Lemma waiters_ok_step (w : world) (e : event) :
  counter_ok w -> waiters_ok w -> waiters_ok (step w e).
Proof.
  intros [Hlatest Hpc] (Hmap & Hwoken & Hfresh & Hunique & Honce). unfold step.
  destruct (crash w); [done|].
  assert (max_uint64 = 2 ^ 64 - 1) as Hm by reflexivity.
  destruct e as [number|ready|c|c|target|height].
  - unfold receive_block. destruct (pc w); [|done].
    destruct (Z.eqb_spec (Uint64 number) (latestBlockHeight (ebc w))); done.
  - destruct (pc w) as [|u r] eqn:Hw.
    + unfold iterate. by rewrite Hw.
    + destruct Hpc as [-> Hr].
      destruct (Z.le_gt_cases (latestBlockHeight (ebc w) + 1) r) as [Hle|Hgt];
        [|by rewrite (iterate_leaving ready w _ r Hw) by lia].
      destruct (iterate_looping ready w _ r Hw Hle)
        as (closed' & effects & panic & Hnotify & ->).
      pose proof (notify_watchers_effects _ _ _ _ _ _ _ _ Hnotify) as Hkind.
      unfold waiters_ok. cbn [ebc log latestBlockHeight waiters next_chan].
      rewrite uint64_wrap_small by lia.
      set (h := latestBlockHeight (ebc w) + 1) in *.
      set (ws0 := default [] (waiters (ebc w) !! h)).
      assert (forall c h', Registered c h' ∈ log w ++ ((fun c => Woken c h) <$> ws0) ++ effects
                           -> Registered c h' ∈ log w) as Hreg.
      { intros c h' Hin. rewrite !elem_of_app in Hin.
        destruct Hin as [Hin|[Hin|Hin]]; [done| |].
        - apply list_elem_of_fmap in Hin as (? & ? & _). discriminate.
        - by apply (watcher_effect_not_registered _ _ _ _ c h' Hkind) in Hin. }
      assert (NoDup ws0) as Hnodup.
      { unfold ws0. destruct (waiters (ebc w) !! h) as [ws|] eqn:Hh; cbn.
        - by destruct (Hmap h ws Hh) as (_ & ? & _).
        - constructor. }
      split; [|split; [|split; [|split]]].
      * intros h2 ws Hh2. destruct (decide (h = h2)) as [<-|Hne].
        -- by rewrite lookup_delete_eq in Hh2.
        -- rewrite lookup_delete_ne in Hh2 by done.
           destruct (Hmap h2 ws Hh2) as (Hlt & Hnd & Hin).
           split; [lia|]. split; [done|].
           intros c Hc. apply elem_of_app. left. by apply Hin.
      * intros c h' Hin. rewrite !elem_of_app in Hin. rewrite elem_of_app.
        destruct Hin as [Hin|[Hin|Hin]].
        -- destruct (Hwoken c h' Hin) as [Hle' Hin']. split; [lia|by left].
        -- apply list_elem_of_fmap in Hin as (c' & Heq & Hc').
           injection Heq as -> ->. split; [lia|]. left.
           apply waiters_at in Hc' as (ws & Hws & Hc').
           destruct (Hmap h ws Hws) as (_ & _ & Hin). by apply Hin.
        -- rewrite Forall_forall in Hkind. apply Hkind in Hin.
           destruct Hin as [[? ?]|[[? (? & _)]|[? (? & _)]]]; discriminate.
      * intros c h' Hin. apply (Hfresh c h'). by apply Hreg.
      * intros c h1 h2 Hin1 Hin2. apply (Hunique c); by apply Hreg.
      * intros c. unfold times_woken. rewrite !woken_at_app.
        rewrite (watcher_effect_not_woken _ _ _ _ c Hkind), app_nil_r.
        rewrite woken_at_wakes by done. rewrite length_app.
        case_decide as Hc; [|specialize (Honce c); unfold times_woken in Honce;
                              cbn [length]; lia].
        destruct (woken_at c (log w)) as [|h' l] eqn:Hlog; [cbn; lia|].
        assert (h' ∈ woken_at c (log w)) as Hin by (rewrite Hlog; left).
        apply elem_of_woken_at in Hin. destruct (Hwoken c h' Hin) as [Hle' Hreg'].
        apply waiters_at in Hc as (ws & Hws & Hc).
        destruct (Hmap h ws Hws) as (_ & _ & Hin').
        pose proof (Hunique c h h' (Hin' c Hc) Hreg'). lia.
  - unfold waiters_ok. cbn [WatchBlocks ebc log latestBlockHeight waiters next_chan].
    split; [done|]. split; [done|]. split; [|done].
    intros c' h Hin. specialize (Hfresh c' h Hin). lia.
  - done.
  - unfold unwatch. by case_decide.
  - unfold WaitForBlockHeight.
    destruct (Z.leb_spec height (latestBlockHeight (ebc w))) as [Hle|Hgt];
      unfold waiters_ok; cbn [ebc log latestBlockHeight waiters next_chan].
    + split; [|split; [|split; [|split]]].
      * intros h ws Hh. destruct (Hmap h ws Hh) as (? & ? & Hin).
        split; [done|]. split; [done|]. intros c Hc. apply elem_of_snoc. left.
        by apply Hin.
      * intros c h Hin. apply elem_of_snoc in Hin as [Hin|?]; [|discriminate].
        destruct (Hwoken c h Hin). split; [done|]. apply elem_of_snoc. by left.
      * intros c h Hin. apply elem_of_snoc in Hin as [Hin|?]; [|discriminate].
        specialize (Hfresh c h Hin). lia.
      * intros c h1 h2 Hin1 Hin2.
        apply elem_of_snoc in Hin1 as [Hin1|?]; [|discriminate].
        apply elem_of_snoc in Hin2 as [Hin2|?]; [|discriminate].
        by apply (Hunique c).
      * intros c. unfold times_woken. rewrite woken_at_app. cbn.
        rewrite app_nil_r. apply Honce.
    + set (ws0 := default [] (waiters (ebc w) !! height)).
      split; [|split; [|split; [|split]]].
      * intros h ws Hh. destruct (decide (height = h)) as [<-|Hne].
        -- rewrite lookup_insert_eq in Hh. injection Hh as <-.
           split; [lia|]. split.
           ++ apply NoDup_app. split; [|split; [|apply NoDup_singleton]].
              ** unfold ws0. destruct (waiters (ebc w) !! height) as [ws|] eqn:Hws; cbn.
                 --- by destruct (Hmap height ws Hws) as (_ & ? & _).
                 --- constructor.
              ** intros c Hc Hin. apply list_elem_of_singleton in Hin. subst c.
                 apply waiters_at in Hc as (ws & Hws & Hc).
                 destruct (Hmap height ws Hws) as (_ & _ & Hin).
                 specialize (Hfresh _ _ (Hin _ Hc)). lia.
           ++ intros c Hc. apply elem_of_snoc in Hc as [Hc| ->].
              ** apply elem_of_snoc. left.
                 apply waiters_at in Hc as (ws & Hws & Hc).
                 destruct (Hmap height ws Hws) as (_ & _ & Hin). by apply Hin.
              ** apply elem_of_snoc. by right.
        -- rewrite lookup_insert_ne in Hh by done.
           destruct (Hmap h ws Hh) as (? & ? & Hin).
           split; [done|]. split; [done|]. intros c Hc. apply elem_of_snoc. left.
           by apply Hin.
      * intros c h Hin. apply elem_of_snoc in Hin as [Hin|?]; [|discriminate].
        destruct (Hwoken c h Hin). split; [done|]. apply elem_of_snoc. by left.
      * intros c h Hin. apply elem_of_snoc in Hin as [Hin|Heq].
        -- specialize (Hfresh c h Hin). lia.
        -- injection Heq as -> ->. lia.
      * intros c h1 h2 Hin1 Hin2.
        apply elem_of_snoc in Hin1 as [Hin1|Heq1];
          apply elem_of_snoc in Hin2 as [Hin2|Heq2].
        -- by apply (Hunique c).
        -- injection Heq2 as -> ->. specialize (Hfresh _ _ Hin1). lia.
        -- injection Heq1 as -> ->. specialize (Hfresh _ _ Hin2). lia.
        -- congruence.
      * intros c. unfold times_woken. rewrite woken_at_app. cbn.
        rewrite app_nil_r. apply Honce.
Qed.

Lemma world_ok_step (w : world) (e : event) :
  world_ok w -> event_below_max e -> world_ok (step w e).
Proof.
  intros (Hc & Hwatch & Hwait) He. split; [|split].
  - by apply counter_ok_step.
  - by apply watchers_ok_step.
  - by apply waiters_ok_step.
Qed.

Lemma run_app (events more : list event) (w : world) :
  run (events ++ more) w = run more (run events w).
Proof. apply fold_left_app. Qed.

Lemma world_ok_run (events : list event) (w : world) :
  world_ok w -> blocks_below_max events ->
  world_ok (run events w) /\
  latestBlockHeight (ebc w) <= latestBlockHeight (ebc (run events w)).
Proof.
  revert w. induction events as [|e rest IH]; intros w Hok Hmax;
    [cbn; split; [done|lia]|].
  assert (event_below_max e) as He.
  { intros number ->. apply Hmax. left. }
  assert (blocks_below_max rest) as Hrest.
  { intros number Hin. apply Hmax. by right. }
  cbn [run fold_left].
  destruct (IH (step w e) (world_ok_step w e Hok He) Hrest) as [Hok' Hle].
  split; [exact Hok'|].
  destruct Hok as (Hc & _). destruct (counter_ok_step w e Hc He) as [_ Hstep].
  unfold run in Hle. lia.
Qed.

Lemma step_log_grows (w : world) (e : event) :
  exists more, log (step w e) = log w ++ more.
Proof.
  unfold step. destruct (crash w); [exists []; by rewrite app_nil_r|].
  destruct e as [number|ready|c|c|target|height].
  - unfold receive_block. destruct (pc w); [|exists []; by rewrite app_nil_r].
    destruct (Uint64 number =? latestBlockHeight (ebc w));
      exists []; by rewrite app_nil_r.
  - destruct (pc w) as [|u r] eqn:Hw.
    + unfold iterate. rewrite Hw. exists []. by rewrite app_nil_r.
    + destruct (Z.le_gt_cases u r) as [Hle|Hgt].
      * destruct (iterate_looping ready w u r Hw Hle)
          as (closed' & effects & panic & _ & ->). by eexists.
      * rewrite (iterate_leaving ready w u r Hw) by lia.
        exists []. by rewrite app_nil_r.
  - exists []. by rewrite app_nil_r.
  - exists []. by rewrite app_nil_r.
  - unfold unwatch. case_decide; exists []; by rewrite app_nil_r.
  - unfold WaitForBlockHeight.
    destruct (height <=? latestBlockHeight (ebc w)); by eexists.
Qed.

Lemma run_log_grows (events : list event) (w : world) :
  exists more, log (run events w) = log w ++ more.
Proof.
  revert w. induction events as [|e rest IH]; intros w.
  - exists []. by rewrite app_nil_r.
  - cbn [run fold_left]. destruct (IH (step w e)) as [more2 Hrest].
    destruct (step_log_grows w e) as [more1 Hstep].
    exists (more1 ++ more2). unfold run in Hrest.
    by rewrite Hrest, Hstep, app_assoc.
Qed.

Lemma run_cons (e : event) (events : list event) (w : world) :
  run (e :: events) w = run events (step w e).
Proof. reflexivity. Qed.

Lemma step_crashed (w : world) (e : event) (msg : string) :
  crash w = Some msg -> step w e = w.
Proof. intros Hcrash. unfold step. by rewrite Hcrash. Qed.

Lemma run_crashed (events : list event) (w : world) (msg : string) :
  crash w = Some msg -> run events w = w.
Proof.
  intros Hcrash. induction events as [|e rest IH]; [done|].
  by rewrite run_cons, (step_crashed w e msg).
Qed.

(** Passes of the inner loop do nothing while [receiveBlocks] waits for a
    block, and nothing but leave the loop when its bound is behind. *)
Lemma iterate_receiving (readys : list (nat -> bool)) (w : world) :
  pc w = Receiving -> run (Iterate <$> readys) w = w.
Proof.
  intros Hpc. induction readys as [|ready rest IH]; [done|].
  rewrite fmap_cons, run_cons.
  replace (step w (Iterate ready)) with w; [exact IH|].
  unfold step, iterate. rewrite Hpc. by destruct (crash w).
Qed.

Lemma iterate_behind (readys : list (nat -> bool)) (w : world) (u r : Z) :
  pc w = Looping u r -> r < u ->
  log (run (Iterate <$> readys) w) = log w /\
  ebc (run (Iterate <$> readys) w) = ebc w.
Proof.
  intros Hpc Hlt. destruct readys as [|ready rest]; [done|].
  rewrite fmap_cons, run_cons.
  destruct (crash w) as [msg|] eqn:Hcrash.
  - by rewrite (step_crashed w _ msg), (run_crashed _ w msg).
  - unfold step. rewrite Hcrash, (iterate_leaving ready w u r Hpc Hlt).
    by rewrite iterate_receiving.
Qed.

(** C9. For block numbers below the largest [uint64]: the latest block
    height never decreases; a block whose height is at most the latest
    height wakes no waiter and leaves the counter as it is; a pass of the
    loop for a height deletes the waiters of that height from the map and
    wakes exactly those; and no waiter is woken more than once. *)
Theorem receiveBlocks_wakes_each_waiter_once (startupBlock : Z)
  (events : list event) :
  below_max startupBlock -> blocks_below_max events ->
  let w := run events (createBlockCounter startupBlock) in
  (forall more, blocks_below_max more ->
     latestBlockHeight (ebc w) <= latestBlockHeight (ebc (run more w))) /\
  (forall number readys,
     pc w = Receiving -> Uint64 number <= latestBlockHeight (ebc w) ->
     let w' := run (Block number :: (Iterate <$> readys)) w in
     log w' = log w /\ ebc w' = ebc w) /\
  (forall ready u r,
     pc w = Looping u r -> u <= r -> crash w = None ->
     let w' := step w (Iterate ready) in
     waiters (ebc w') = delete u (waiters (ebc w)) /\
     waiters (ebc w') !! u = None /\
     exists effects,
       log w' = log w
                ++ ((fun c => Woken c u) <$> default [] (waiters (ebc w) !! u))
                ++ effects /\
       forall c, woken_at c effects = []) /\
  (forall c, (times_woken c (log w) <= 1)%nat).
Proof.
  intros Hstart Hmax w.
  destruct (world_ok_run events _ (world_ok_start startupBlock Hstart) Hmax)
    as [Hok _]. fold w in Hok.
  split; [|split; [|split]].
  - intros more Hmore. by apply world_ok_run.
  - intros number readys Hpc Hle w'. unfold w'. rewrite run_cons.
    destruct (crash w) as [msg|] eqn:Hcrash.
    + by rewrite (step_crashed w _ msg), (run_crashed _ w msg).
    + unfold step. rewrite Hcrash. unfold receive_block. rewrite Hpc.
      destruct (Z.eqb_spec (Uint64 number) (latestBlockHeight (ebc w))) as [Heq|Hne].
      * by rewrite iterate_receiving.
      * destruct Hok as ([Hlatest _] & _).
        assert (max_uint64 = 2 ^ 64 - 1) as Hm by reflexivity.
        rewrite uint64_wrap_small by lia.
        assert (Uint64 number < latestBlockHeight (ebc w) + 1) as Hlt by lia.
        exact (iterate_behind readys
                 (mkWorld (ebc w)
                    (Looping (latestBlockHeight (ebc w) + 1) (Uint64 number))
                    (cancelled w) (closed w) (next_chan w) (log w) (crash w))
                 _ _ eq_refl Hlt).
  - intros ready u r Hpc Hle Hcrash w'. unfold w', step. rewrite Hcrash.
    destruct (iterate_looping ready w u r Hpc Hle)
      as (closed' & effects & panic & Hnotify & ->).
    cbn [ebc waiters log]. split; [done|]. split; [apply lookup_delete_eq|].
    exists effects. split; [done|]. intros c.
    apply (watcher_effect_not_woken ready u (watchers (ebc w))).
    by eapply notify_watchers_effects.
  - by destruct Hok as (_ & _ & (_ & _ & _ & _ & Honce)).
Qed.

(** C4. For block numbers below the largest [uint64]: the heights a
    consumer receives on its channel are strictly increasing; a height
    that was dropped for a consumer is never delivered to it, at that time
    or later; and in a pass of the loop that does not panic every watcher
    whose context is live is served on its own account: it receives the
    height if it is ready, and the height is dropped for it if it is not,
    whatever the other watchers do. *)
Theorem watchers_receive_increasing_heights (startupBlock : Z)
  (events : list event) :
  below_max startupBlock -> blocks_below_max events ->
  let w := run events (createBlockCounter startupBlock) in
  (forall ch, StronglySorted Z.lt (delivered_to ch (log w))) /\
  (forall ch h more,
     blocks_below_max more ->
     Dropped ch h ∈ log w -> Delivered ch h ∉ log (run more w)) /\
  (forall ready u r,
     pc w = Looping u r -> u <= r -> crash w = None ->
     let w' := step w (Iterate ready) in
     crash w' = None ->
     forall x, x ∈ watchers (ebc w) -> ctx x ∉ cancelled w ->
       if ready (channel x) then Delivered (channel x) u ∈ log w'
       else Dropped (channel x) u ∈ log w' /\
            Delivered (channel x) u ∉ log w').
Proof.
  intros Hstart Hmax w.
  destruct (world_ok_run events _ (world_ok_start startupBlock Hstart) Hmax)
    as [Hok _]. fold w in Hok.
  split; [|split].
  - by destruct Hok as (_ & (_ & _ & _ & _ & Hsorted) & _).
  - intros ch h more Hmore Hdropped.
    destruct (world_ok_run more w Hok Hmore) as [(_ & (_ & _ & _ & Hdrop & _) & _) _].
    destruct (run_log_grows more w) as [l Hl].
    apply (Hdrop ch h). rewrite Hl. apply elem_of_app. by left.
  - intros ready u r Hpc Hle Hcrash w' Hcrash' x Hx Hctx.
    assert (world_ok w') as Hok'.
    { apply world_ok_step; [done|]. intros number Heq. discriminate. }
    destruct Hok' as (_ & (_ & _ & _ & Hdrop & _) & _).
    revert Hcrash' Hdrop. unfold w', step. rewrite Hcrash.
    destruct (iterate_looping ready w u r Hpc Hle)
      as (closed' & effects & panic & Hnotify & ->).
    cbn [crash log]. intros -> Hdrop.
    pose proof (notify_watchers_serves_all _ _ _ _ _ _ _ Hnotify x Hx Hctx) as Hserved.
    destruct (ready (channel x)).
    + rewrite !elem_of_app. by right; right.
    + assert (Dropped (channel x) u
                ∈ log w ++ ((fun c => Woken c u) <$> default [] (waiters (ebc w) !! u))
                  ++ effects) as Hin.
      { rewrite !elem_of_app. by right; right. }
      split; [done|]. by apply (Hdrop (channel x) u).
Qed.

(** The inner loop ends: for a bound below the largest [uint64], the passes
    it takes to reach the bound, and one more to leave, bring
    [receiveBlocks] back to its channel with the latest height at the
    bound, unless a panic ends the process first. *)
Lemma inner_loop_ends (readys : list (nat -> bool)) (w : world) (u r : Z) :
  counter_ok w -> pc w = Looping u r ->
  length readys = Datatypes.S (Z.to_nat (r + 1 - u)) ->
  crash (run (Iterate <$> readys) w) = None ->
  pc (run (Iterate <$> readys) w) = Receiving /\
  latestBlockHeight (ebc (run (Iterate <$> readys) w))
  = Z.max (latestBlockHeight (ebc w)) r.
Proof.
  revert w u. induction readys as [|ready rest IH]; intros w u Hok Hpc Hlen Hlive;
    [done|].
  rewrite fmap_cons, run_cons in *.
  destruct (crash w) as [msg|] eqn:Hcrash.
  { rewrite (step_crashed w _ msg Hcrash), (run_crashed _ w msg Hcrash) in Hlive.
    congruence. }
  pose proof Hok as [Hlatest Hloop]. rewrite Hpc in Hloop. destruct Hloop as [-> Hr].
  assert (max_uint64 = 2 ^ 64 - 1) as Hm by reflexivity.
  cbn [length] in Hlen.
  destruct (Z.le_gt_cases (latestBlockHeight (ebc w) + 1) r) as [Hle|Hgt].
  - assert (counter_ok (step w (Iterate ready))) as Hok'.
    { apply counter_ok_step; [done|]. intros number Heq. discriminate. }
    revert Hok' Hlive. unfold step. rewrite Hcrash.
    destruct (iterate_looping ready w _ r Hpc Hle)
      as (closed' & effects & panic & _ & ->).
    rewrite !uint64_wrap_small by lia. intros Hok' Hlive.
    destruct (IH _ (latestBlockHeight (ebc w) + 1 + 1) Hok' eq_refl) as [Hpc' Heq];
      [lia|done|].
    split; [done|]. rewrite Heq. cbn [ebc latestBlockHeight]. lia.
  - assert (rest = []) as -> by (apply length_zero_iff_nil; lia).
    revert Hlive. unfold step. rewrite Hcrash.
    rewrite (iterate_leaving ready w _ r Hpc) by lia.
    cbn. intros _. split; [done|]. lia.
Qed.

(** Block counter liveness, on the run of the specification: the wait for
    105 is woken at 105, once, and the consumer sees 101 to 105. *)
Example liveness_run :
  log (run liveness_events (createBlockCounter 100))
  = [Registered 0 105; Delivered 1 101; Delivered 1 102; Delivered 1 103;
     Delivered 1 104; Woken 0 105; Delivered 1 105].
Proof. vm_compute. reflexivity. Qed.

(** A consumer that is busy when 102 is dispatched misses it for good. *)
Example slow_consumer_run :
  log (run slow_consumer_events (createBlockCounter 100))
  = [Registered 1 102; Delivered 0 101; Woken 1 102; Dropped 0 102;
     Delivered 0 103].
Proof. vm_compute. reflexivity. Qed.

(** The two limits of the results below. A watcher that is still listed
    after its channel was closed makes the next pass panic, which ends the
    process. And at the largest [uint64] the condition of the inner loop
    cannot fail: the loop variable and the latest height wrap to zero. *)
Example stale_watcher_run :
  crash (run stale_watcher_events (createBlockCounter 100))
  = Some "close of closed channel".
Proof. vm_compute. reflexivity. Qed.

Example largest_block_run :
  let w := run largest_block_events (createBlockCounter (max_uint64 - 1)) in
  latestBlockHeight (ebc w) = 0 /\ pc w = Looping 1 max_uint64.
Proof. vm_compute. split; reflexivity. Qed.

Lemma slow_consumer_below_max : blocks_below_max slow_consumer_events.
Proof.
  intros number Hin. unfold slow_consumer_events in Hin.
  repeat (apply elem_of_cons in Hin as [Heq|Hin];
          [try discriminate; injection Heq as ->; reflexivity|]).
  by apply elem_of_nil in Hin.
Qed.

(** The run of the slow consumer: its received heights increase, the waiter
    of 102 is woken once, and no later block moves the counter back. *)
Lemma receiveBlocks_wakes_each_waiter_once_witness :
  (times_woken 1 (log (run slow_consumer_events (createBlockCounter 100))) <= 1)%nat /\
  latestBlockHeight (ebc (run slow_consumer_events (createBlockCounter 100)))
  <= latestBlockHeight
       (ebc (run [Block 101]
               (run slow_consumer_events (createBlockCounter 100)))).
Proof.
  pose proof (receiveBlocks_wakes_each_waiter_once 100 slow_consumer_events
                ltac:(reflexivity) slow_consumer_below_max)
    as (Hmono & _ & _ & Honce).
  split; [apply Honce|]. apply Hmono.
  intros number Hin. apply list_elem_of_singleton in Hin.
  injection Hin as ->. reflexivity.
Defined.

Lemma watchers_receive_increasing_heights_witness :
  StronglySorted Z.lt
    (delivered_to 0 (log (run slow_consumer_events (createBlockCounter 100)))) /\
  Delivered 0 102 ∉ log (run slow_consumer_events (createBlockCounter 100)).
Proof.
  pose proof (watchers_receive_increasing_heights 100 slow_consumer_events
                ltac:(reflexivity) slow_consumer_below_max)
    as (Hsorted & Hdropped & _).
  split; [apply Hsorted|].
  apply (Hdropped 0%nat 102 []).
  - intros number Hin. by apply elem_of_nil in Hin.
  - rewrite slow_consumer_run. do 3 right. left.
Defined.

(** *** [subscribeBlocks] *)

Lemma sleeps_app l1 l2 : sleeps (l1 ++ l2) = sleeps l1 ++ sleeps l2.
Proof. apply omap_app. Qed.

Lemma warnings_app l1 l2 : warnings (l1 ++ l2) = warnings l1 ++ warnings l2.
Proof. apply omap_app. Qed.

Lemma forwarded_app l1 l2 : forwarded (l1 ++ l2) = forwarded l1 ++ forwarded l2.
Proof. apply omap_app. Qed.

Lemma subscriptions_app l1 l2 :
  subscriptions (l1 ++ l2) = (subscriptions l1 + subscriptions l2)%nat.
Proof. unfold subscriptions. by rewrite omap_app, length_app. Qed.

Lemma forwarded_headers (headers : list Z) :
  forwarded (Forward <$> headers) = Block <$> headers.
Proof. induction headers as [|h rest IH]; [done|]. cbn. by f_equal. Qed.

Lemma sleeps_headers (headers : list Z) : sleeps (Forward <$> headers) = [].
Proof. induction headers as [|h rest IH]; [done|]. by cbn. Qed.

Lemma warnings_headers (headers : list Z) : warnings (Forward <$> headers) = [].
Proof. induction headers as [|h rest IH]; [done|]. by cbn. Qed.

Lemma subscriptions_headers (headers : list Z) :
  subscriptions (Forward <$> headers) = 0%nat.
Proof. induction headers as [|h rest IH]; [done|]. by cbn. Qed.

Lemma subscribe_summary (a : attempt) :
  sleeps (subscribe a) = [] /\
  warnings (subscribe a) = [failure_text a] /\
  subscriptions (subscribe a) = 1%nat /\
  forwarded (subscribe a) = Block <$> headers_of a.
Proof.
  destruct a as [err|headers err]; [done|].
  unfold subscribe.
  rewrite sleeps_app, warnings_app, subscriptions_app, forwarded_app.
  rewrite sleeps_app, warnings_app, subscriptions_app, forwarded_app.
  rewrite sleeps_headers, warnings_headers, subscriptions_headers, forwarded_headers.
  cbn. by rewrite app_nil_r.
Qed.

(** C5, as amended. Whatever attempts have failed, [subscribeBlocks] has
    slept five seconds after each of them, no more and no less, has logged
    one warning with the error of each, and has subscribed once more than
    it has failed; the only block numbers it sends on to [receiveBlocks] are
    those of the headers it received, so that attempts that fail without a
    header leave the counter, its waiters included, as they are. *)
Theorem resubscribe_every_five_seconds (failed : list attempt) :
  sleeps (resubscribe failed) = replicate (length failed) 5 /\
  warnings (resubscribe failed) = failure_text <$> failed /\
  subscriptions (resubscribe failed) = Datatypes.S (length failed) /\
  forwarded (resubscribe failed) = Block <$> concat (headers_of <$> failed) /\
  (Forall (fun a => headers_of a = []) failed ->
   forall w, run (forwarded (resubscribe failed)) w = w).
Proof.
  assert (sleeps (resubscribe failed) = replicate (length failed) 5 /\
          warnings (resubscribe failed) = failure_text <$> failed /\
          subscriptions (resubscribe failed) = Datatypes.S (length failed) /\
          forwarded (resubscribe failed) = Block <$> concat (headers_of <$> failed))
    as (Hs & Hw & Hn & Hf).
  { induction failed as [|a rest (IHs & IHw & IHn & IHf)]; [done|].
    destruct (subscribe_summary a) as (Hs & Hw & Hn & Hf).
    cbn [resubscribe].
    rewrite !sleeps_app, !warnings_app, !subscriptions_app, !forwarded_app.
    rewrite Hs, Hw, Hn, Hf, IHs, IHw, IHn, IHf.
    cbn. by rewrite fmap_app. }
  repeat (split; [done|]).
  intros Hnone w. rewrite Hf.
  replace (concat (headers_of <$> failed)) with (@nil Z); [done|].
  clear Hs Hw Hn Hf. induction Hnone as [|a rest Ha _ IH]; [done|].
  cbn. by rewrite Ha.
Qed.

(** C5, as the claim states it, fails: after two failures the two delays
    are five seconds each, which no exponential backoff from five seconds
    to a larger bound gives. *)
Lemma resubscribe_is_not_exponential :
  ~ exponential_backoff 5
      (sleeps (resubscribe [SubscribeFails "EOF"; Interrupted [7] "EOF"])).
Proof.
  intros (factor & bound & Hfactor & Hbound & Hdelays).
  specialize (Hdelays 1%nat 5 eq_refl).
  change (Z.of_nat 1) with 1 in Hdelays. rewrite Z.pow_1_r in Hdelays. lia.
Qed.

(** *** Removing a watcher, again *)

Lemma find_watcher_first (target : watcher) (ws : list watcher) :
  target ∈ ws ->
  exists l1 l2,
    ws = l1 ++ target :: l2 /\ (target ∉ l1) /\
    find_watcher target ws = Some (length l1).
Proof.
  induction ws as [|x rest IH]; intros Hin; [by apply elem_of_nil in Hin|].
  cbn [find_watcher]. destruct (decide (x = target)) as [->|Hne].
  - exists [], rest. split; [done|]. split; [apply not_elem_of_nil|done].
  - apply elem_of_cons in Hin as [->|Hin]; [done|].
    destruct (IH Hin) as (l1 & l2 & -> & Hl1 & ->).
    exists (x :: l1), l2. split; [done|]. split; [|done].
    rewrite elem_of_cons. intros [->|?]; [done|by apply Hl1].
Qed.

Lemma find_watcher_absent (target : watcher) (ws : list watcher) :
  target ∉ ws -> find_watcher target ws = None.
Proof.
  induction ws as [|x rest IH]; intros Hout; [done|].
  cbn [find_watcher]. rewrite not_elem_of_cons in Hout. destruct Hout as [Hne Hout].
  rewrite decide_False by done. by rewrite IH.
Qed.

(** The removal of a watcher from the list, as the goroutine of
    [WatchBlocks] does it: a watcher that is not listed leaves the list as
    it is; for a listed one, its first entry is the one that goes, the list
    is one shorter, and every other entry stays, the last one moved into
    the gap. *)
Theorem remove_watcher_removes_first (target : watcher) (ws : list watcher) :
  (target ∉ ws -> remove_watcher target ws = ws) /\
  (target ∈ ws ->
   exists l1 l2,
     ws = l1 ++ target :: l2 /\ (target ∉ l1) /\
     (remove_watcher target ws ≡ₚ l1 ++ l2) /\
     Datatypes.S (length (remove_watcher target ws)) = length ws /\
     remove_watcher target ws
     = match last l2 with
       | None => l1
       | Some z => l1 ++ z :: take (length l2 - 1) l2
       end).
Proof.
  split.
  - intros Hout. unfold remove_watcher. by rewrite find_watcher_absent.
  - intros Hin.
    destruct (find_watcher_first target ws Hin) as (l1 & l2 & -> & Hl1 & Hfind).
    exists l1, l2. split; [done|]. split; [done|].
    unfold remove_watcher. rewrite Hfind.
    induction l2 as [|z l2' _] using rev_ind.
    + rewrite last_snoc. cbn [default last].
      rewrite insert_app_r_alt by lia. rewrite Nat.sub_diag. simpl insert.
      rewrite length_app. cbn [length].
      replace (length l1 + 1 - 1)%nat with (length l1) by lia.
      rewrite take_app_length, app_nil_r. split; [done|]. split; [lia|done].
    + replace (l1 ++ target :: l2' ++ [z]) with ((l1 ++ target :: l2') ++ [z])
        by (by rewrite <- app_assoc).
      rewrite !last_snoc. cbn [default].
      rewrite <- app_assoc. cbn [app].
      rewrite insert_app_r_alt by lia. rewrite Nat.sub_diag. simpl insert.
      replace (length (l1 ++ target :: l2' ++ [z]) - 1)%nat
        with (length (l1 ++ z :: l2')).
      2:{ rewrite !length_app. cbn [length]. rewrite length_app. cbn [length]. lia. }
      replace (l1 ++ z :: l2' ++ [z]) with ((l1 ++ z :: l2') ++ [z])
        by (by rewrite <- app_assoc).
      rewrite take_app_length.
      split; [|split].
      * apply Permutation_app_head. apply Permutation_cons_append.
      * rewrite !length_app. cbn [length]. rewrite length_app. cbn [length]. lia.
      * rewrite length_app. cbn [length].
        replace (length l2' + 1 - 1)%nat with (length l2') by lia.
        by rewrite take_app_length.
Qed.

Lemma remove_watcher_removes_first_witness :
  Datatypes.S
    (length
       (remove_watcher (mkWatcher 0 1)
          [mkWatcher 0 0; mkWatcher 0 1; mkWatcher 0 2; mkWatcher 0 3]))
  = 4%nat.
Proof.
  destruct (proj2 (remove_watcher_removes_first (mkWatcher 0 1)
                     [mkWatcher 0 0; mkWatcher 0 1; mkWatcher 0 2; mkWatcher 0 3])
              ltac:(right; left)) as (l1 & l2 & _ & _ & _ & Hlen & _).
  exact Hlen.
Defined.

Example remove_watcher_moves_last :
  remove_watcher (mkWatcher 0 1)
    [mkWatcher 0 0; mkWatcher 0 1; mkWatcher 0 2; mkWatcher 0 3]
  = [mkWatcher 0 0; mkWatcher 0 3; mkWatcher 0 2].
Proof. reflexivity. Qed.

Lemma find_watcher_last (x : watcher) (ws : list watcher) :
  x ∉ ws -> find_watcher x (ws ++ [x]) = Some (length ws).
Proof.
  induction ws as [|y rest IH]; intros Hout.
  - cbn. by rewrite decide_True.
  - rewrite not_elem_of_cons in Hout. destruct Hout as [Hne Hout].
    cbn [app find_watcher]. rewrite decide_False by done.
    by rewrite IH.
Qed.

Lemma remove_watcher_last (x : watcher) (ws : list watcher) :
  x ∉ ws -> remove_watcher x (ws ++ [x]) = ws.
Proof.
  intros Hout. unfold remove_watcher. rewrite find_watcher_last by done.
  rewrite last_snoc. cbn [default].
  rewrite insert_app_r_alt by lia. rewrite Nat.sub_diag. simpl insert.
  rewrite length_app. cbn [length].
  replace (length ws + 1 - 1)%nat with (length ws) by lia.
  apply take_app_length.
Qed.

Lemma channels_made_step (w : world) (e : event) :
  channels_made w -> channels_made (step w e).
Proof.
  intros Hmade. unfold step. destruct (crash w); [done|].
  destruct e as [number|ready|c|c|target|height].
  - unfold receive_block. destruct (pc w); [|done].
    by destruct (Uint64 number =? latestBlockHeight (ebc w)).
  - destruct (pc w) as [|u r] eqn:Hw.
    + unfold iterate. by rewrite Hw.
    + destruct (Z.le_gt_cases u r) as [Hle|Hgt].
      * destruct (iterate_looping ready w u r Hw Hle)
          as (closed' & effects & panic & _ & ->). exact Hmade.
      * by rewrite (iterate_leaving ready w u r Hw) by lia.
  - intros x Hx. cbn in Hx. apply elem_of_snoc in Hx as [Hx| ->]; cbn.
    + specialize (Hmade x Hx). lia.
    + lia.
  - done.
  - unfold unwatch. case_decide; [|done].
    intros x Hx. apply Hmade. by apply (remove_watcher_subset target).
  - unfold WaitForBlockHeight.
    destruct (height <=? latestBlockHeight (ebc w));
      intros x Hx; specialize (Hmade x Hx); cbn; lia.
Qed.

Lemma channels_made_run (events : list event) (w : world) :
  channels_made w -> channels_made (run events w).
Proof.
  revert w. induction events as [|e rest IH]; intros w Hmade; [done|].
  rewrite run_cons. by apply IH, channels_made_step.
Qed.

(** Watching and leaving: in any world the counter reaches, a call of
    [WatchBlocks] whose context is then cancelled and whose goroutine then
    runs leaves the list of watchers exactly as it was before the call. *)
Theorem watch_then_unwatch (startupBlock : Z) (events : list event) (c : nat) :
  let w := run events (createBlockCounter startupBlock) in
  watchers
    (ebc (run [CallWatchBlocks c; ContextDone c;
               Unwatch (mkWatcher c (next_chan w))] w))
  = watchers (ebc w).
Proof.
  intros w.
  destruct (crash w) as [msg|] eqn:Hcrash; [by rewrite (run_crashed _ w msg)|].
  assert (channels_made w) as Hmade.
  { apply channels_made_run. intros x Hx. by apply elem_of_nil in Hx. }
  rewrite !run_cons.
  assert (step w (CallWatchBlocks c) = WatchBlocks c w) as ->
    by (unfold step; by rewrite Hcrash).
  assert (step (WatchBlocks c w) (ContextDone c) = cancel c (WatchBlocks c w)) as ->
    by (unfold step; cbn [WatchBlocks crash]; by rewrite Hcrash).
  unfold run, fold_left, step. cbn [cancel WatchBlocks crash]. rewrite Hcrash.
  unfold unwatch. cbn [cancelled ctx].
  rewrite decide_True by (apply elem_of_union; left; by apply elem_of_singleton).
  cbn [ebc watchers]. apply remove_watcher_last.
  intros Hin. specialize (Hmade _ Hin). cbn in Hmade. lia.
Qed.

(** *** One block, start to end *)

Lemma woken_events_app l1 l2 :
  woken_events (l1 ++ l2) = woken_events l1 ++ woken_events l2.
Proof. apply omap_app. Qed.

Lemma woken_events_wakes (h : Z) (ws : list nat) :
  woken_events ((fun c => Woken c h) <$> ws) = (fun c => (c, h)) <$> ws.
Proof. induction ws as [|c rest IH]; [done|]. cbn. by f_equal. Qed.

Lemma woken_events_watchers ready height ws effects :
  Forall (watcher_effect ready height ws) effects -> woken_events effects = [].
Proof.
  induction 1 as [|e rest He _ IH]; [done|].
  destruct He as [[c ->]|[[c (-> & _)]|[c (-> & _)]]]; cbn; exact IH.
Qed.

Lemma pass_effects (ready : nat -> bool) (w : world) (u r : Z) :
  pc w = Looping u r -> u <= r -> crash w = None ->
  crash (step w (Iterate ready)) = None ->
  woken_events (log (step w (Iterate ready)))
  = woken_events (log w)
    ++ ((fun c => (c, u)) <$> default [] (waiters (ebc w) !! u)) /\
  waiters (ebc (step w (Iterate ready))) = delete u (waiters (ebc w)) /\
  watchers (ebc (step w (Iterate ready))) = watchers (ebc w) /\
  cancelled (step w (Iterate ready)) = cancelled w /\
  (NoDup (channel <$> watchers (ebc w)) ->
   forall x, x ∈ watchers (ebc w) -> ctx x ∉ cancelled w ->
     delivered_to (channel x) (log (step w (Iterate ready)))
     = delivered_to (channel x) (log w)
       ++ (if ready (channel x) then [u] else [])).
Proof.
  intros Hpc Hle Hcrash. unfold step. rewrite Hcrash.
  destruct (iterate_looping ready w u r Hpc Hle)
    as (closed' & effects & panic & Hnotify & ->).
  cbn [crash log ebc waiters watchers cancelled]. intros ->.
  pose proof (notify_watchers_effects _ _ _ _ _ _ _ _ Hnotify) as Hkind.
  split; [|split; [done|split; [done|split; [done|]]]].
  - rewrite !woken_events_app, woken_events_wakes.
    by rewrite (woken_events_watchers _ _ _ _ Hkind), app_nil_r.
  - intros Hnodup x Hx Hctx.
    rewrite !delivered_to_app, delivered_to_wakes. cbn [app]. f_equal.
    pose proof (notify_watchers_serves_all _ _ _ _ _ _ _ Hnotify x Hx Hctx) as Hserved.
    destruct (notify_watchers_delivers_once _ _ _ _ _ _ _ _ (channel x) Hnodup Hnotify)
      as [Hnone|Hone].
    + rewrite Hnone. destruct (ready (channel x)); [|done].
      apply elem_of_delivered_to in Hserved. rewrite Hnone in Hserved.
      by apply elem_of_nil in Hserved.
    + rewrite Hone. destruct (ready (channel x)) eqn:Hready; [done|].
      assert (u ∈ delivered_to (channel x) effects) as Hin by (rewrite Hone; left).
      apply elem_of_delivered_to in Hin.
      rewrite Forall_forall in Hkind. apply Hkind in Hin.
      destruct Hin as [[? ?]|[[c (Heq & Hr & _)]|[? (? & _)]]]; try discriminate.
      injection Heq as <-. congruence.
Qed.

Lemma waiters_from_delete (m : gmap Z (list nat)) (u v : Z) (count : nat) :
  u < v -> waiters_from (delete u m) v count = waiters_from m v count.
Proof.
  revert v. induction count as [|k IH]; intros v Hlt; [done|].
  cbn [waiters_from]. rewrite lookup_delete_ne by lia.
  by rewrite IH by lia.
Qed.

Lemma inner_loop_effects (readys : list (nat -> bool)) (w : world) (u r : Z) :
  counter_ok w -> pc w = Looping u r ->
  length readys = Datatypes.S (Z.to_nat (r + 1 - u)) ->
  crash (run (Iterate <$> readys) w) = None ->
  woken_events (log (run (Iterate <$> readys) w))
  = woken_events (log w)
    ++ waiters_from (waiters (ebc w)) u (Z.to_nat (r + 1 - u)) /\
  (forall h, waiters (ebc (run (Iterate <$> readys) w)) !! h
             = if decide (u <= h <= r) then None else waiters (ebc w) !! h) /\
  (NoDup (channel <$> watchers (ebc w)) ->
   forall x, x ∈ watchers (ebc w) -> ctx x ∉ cancelled w ->
     delivered_to (channel x) (log (run (Iterate <$> readys) w))
     = delivered_to (channel x) (log w)
       ++ heights_taken (channel x) readys u (Z.to_nat (r + 1 - u))).
Proof.
  revert w u. induction readys as [|ready rest IH]; intros w u Hok Hpc Hlen Hlive;
    [done|].
  rewrite fmap_cons, run_cons in *.
  destruct (crash w) as [msg|] eqn:Hcrash.
  { rewrite (step_crashed w _ msg Hcrash), (run_crashed _ w msg Hcrash) in Hlive.
    congruence. }
  pose proof Hok as [Hlatest Hloop]. rewrite Hpc in Hloop. destruct Hloop as [Hu Hr].
  assert (max_uint64 = 2 ^ 64 - 1) as Hm by reflexivity.
  cbn [length] in Hlen.
  destruct (Z.le_gt_cases u r) as [Hle|Hgt].
  - assert (counter_ok (step w (Iterate ready))) as Hok'.
    { apply counter_ok_step; [done|]. intros number Heq. discriminate. }
    assert (pc (step w (Iterate ready)) = Looping (u + 1) r) as Hpc'.
    { unfold step. rewrite Hcrash.
      destruct (iterate_looping ready w u r Hpc Hle)
        as (closed' & effects & panic & _ & ->).
      cbn [pc]. by rewrite uint64_wrap_small by lia. }
    assert (crash (step w (Iterate ready)) = None) as Hlive1.
    { destruct (crash (step w (Iterate ready))) as [msg|] eqn:Hc; [|done].
      rewrite (run_crashed _ _ msg Hc) in Hlive. congruence. }
    destruct (pass_effects ready w u r Hpc Hle Hcrash Hlive1)
      as (Hwoken & Hwaiters & Hwatchers & Hcancelled & Hdelivered).
    destruct (IH _ (u + 1) Hok' Hpc' ltac:(lia) Hlive) as (IHwoken & IHmap & IHdel).
    replace (Z.to_nat (r + 1 - u)) with (Datatypes.S (Z.to_nat (r + 1 - (u + 1))))
      by lia.
    split; [|split].
    + rewrite IHwoken, Hwoken, Hwaiters. cbn [waiters_from].
      rewrite waiters_from_delete by lia. by rewrite <- app_assoc.
    + intros h. rewrite IHmap, Hwaiters.
      destruct (decide (h = u)) as [->|Hne].
      * rewrite lookup_delete_eq. rewrite (decide_True (P := u <= u <= r)) by lia.
        by case_decide.
      * rewrite lookup_delete_ne by done.
        repeat case_decide; try done; lia.
    + intros Hnodup x Hx Hctx. cbn [heights_taken].
      rewrite IHdel; rewrite ?Hwatchers, ?Hcancelled; try done.
      rewrite (Hdelivered Hnodup x Hx Hctx). by rewrite <- app_assoc.
  - assert (rest = []) as -> by (apply length_zero_iff_nil; lia).
    replace (Z.to_nat (r + 1 - u)) with 0%nat by lia.
    unfold step. rewrite Hcrash.
    rewrite (iterate_leaving ready w u r Hpc) by lia.
    cbn [fmap list_fmap run fold_left log ebc waiters_from heights_taken].
    split; [by rewrite app_nil_r|]. split.
    + intros h. rewrite decide_False by lia. done.
    + intros. by rewrite app_nil_r.
Qed.

Lemma after_block (w : world) (number : Z) :
  counter_ok w -> pc w = Receiving -> crash w = None ->
  below_max number -> latestBlockHeight (ebc w) < Uint64 number ->
  counter_ok (step w (Block number)) /\
  pc (step w (Block number))
  = Looping (latestBlockHeight (ebc w) + 1) (Uint64 number) /\
  ebc (step w (Block number)) = ebc w /\
  log (step w (Block number)) = log w /\
  cancelled (step w (Block number)) = cancelled w.
Proof.
  intros Hok Hpc Hcrash Hmax Hlt.
  assert (counter_ok (step w (Block number))) as Hok'.
  { apply counter_ok_step; [done|]. intros n Heq. by injection Heq as <-. }
  split; [done|]. clear Hok'. destruct Hok as [Hlatest _].
  assert (max_uint64 = 2 ^ 64 - 1) as Hm by reflexivity.
  unfold step. rewrite Hcrash. unfold receive_block. rewrite Hpc.
  destruct (Z.eqb_spec (Uint64 number) (latestBlockHeight (ebc w))); [lia|].
  cbn [pc ebc log cancelled]. by rewrite uint64_wrap_small by lia.
Qed.

(** The inner loop ends. When [receiveBlocks] takes a block whose height
    is above the latest one and below the largest [uint64], one pass per
    new height and one more to leave the loop bring it back to its
    channel with the latest height at the height of the block, unless a
    panic ends the process. *)
Theorem block_is_handled (startupBlock : Z) (events : list event)
  (number : Z) (readys : list (nat -> bool)) :
  below_max startupBlock -> blocks_below_max events -> below_max number ->
  let w := run events (createBlockCounter startupBlock) in
  let w' := run (receive number readys) w in
  pc w = Receiving ->
  latestBlockHeight (ebc w) < Uint64 number ->
  length readys
  = Datatypes.S (Z.to_nat (Uint64 number - latestBlockHeight (ebc w))) ->
  crash w' = None ->
  pc w' = Receiving /\ latestBlockHeight (ebc w') = Uint64 number.
Proof.
  intros Hstart Hmax Hnumber w w' Hpc Hlt Hlen Hlive.
  destruct (world_ok_run events _ (world_ok_start startupBlock Hstart) Hmax)
    as [(Hok & _) _]. fold w in Hok.
  unfold w', receive in *. rewrite run_cons in *.
  destruct (crash w) as [msg|] eqn:Hcrash.
  { rewrite (step_crashed w _ msg Hcrash), (run_crashed _ w msg Hcrash) in Hlive.
    congruence. }
  destruct (after_block w number Hok Hpc Hcrash Hnumber Hlt)
    as (Hok1 & Hpc1 & Hebc1 & _).
  destruct (inner_loop_ends readys _ _ _ Hok1 Hpc1) as [Hdone Hlatest];
    [rewrite Hlen; f_equal; lia|done|].
  split; [done|]. rewrite Hlatest, Hebc1. lia.
Qed.

(** The [go] statements of one block: under the same conditions, the
    sending goroutines are started height by height, for the waiters the
    map held for each height, and those heights are gone from the map. The
    order is that of the statements, not that in which the goroutines run
    or the waiters receive. *)
Lemma block_starts_senders (startupBlock : Z) (events : list event)
  (number : Z) (readys : list (nat -> bool)) :
  below_max startupBlock -> blocks_below_max events -> below_max number ->
  let w := run events (createBlockCounter startupBlock) in
  let w' := run (receive number readys) w in
  let latest := latestBlockHeight (ebc w) in
  pc w = Receiving ->
  latest < Uint64 number ->
  length readys = Datatypes.S (Z.to_nat (Uint64 number - latest)) ->
  crash w' = None ->
  woken_events (log w')
  = woken_events (log w)
    ++ waiters_from (waiters (ebc w)) (latest + 1)
         (Z.to_nat (Uint64 number - latest)) /\
  (forall h, waiters (ebc w') !! h
             = if decide (latest < h <= Uint64 number) then None
               else waiters (ebc w) !! h).
Proof.
  intros Hstart Hmax Hnumber w w' latest Hpc Hlt Hlen Hlive.
  destruct (world_ok_run events _ (world_ok_start startupBlock Hstart) Hmax)
    as [(Hok & _) _]. fold w in Hok.
  unfold w', receive in *. rewrite run_cons in *.
  destruct (crash w) as [msg|] eqn:Hcrash.
  { rewrite (step_crashed w _ msg Hcrash), (run_crashed _ w msg Hcrash) in Hlive.
    congruence. }
  destruct (after_block w number Hok Hpc Hcrash Hnumber Hlt)
    as (Hok1 & Hpc1 & Hebc1 & Hlog1 & _).
  fold latest in Hpc1.
  destruct (inner_loop_effects readys _ _ _ Hok1 Hpc1) as (Hwoken & Hmap & _);
    [rewrite Hlen; f_equal; lia|done|].
  rewrite Hlog1, Hebc1 in Hwoken. rewrite Hebc1 in Hmap.
  replace (Z.to_nat (Uint64 number + 1 - (latest + 1)))
    with (Z.to_nat (Uint64 number - latest)) in Hwoken by lia.
  split; [done|]. intros h. rewrite Hmap.
  repeat case_decide; try done; lia.
Qed.

(** A block serves exactly its waiters. Under the same conditions, the
    sending goroutines started while the block is handled are, counted with
    their heights and in no particular order, those of the waiters that the
    map held for the heights above the latest one up to the height of the
    block: one goroutine per stored waiter, sending the height it was
    stored for, and none for any other waiter. Those heights are gone from
    the map, and every other entry of the map stays. *)
Theorem block_serves_exactly_its_waiters (startupBlock : Z)
  (events : list event) (number : Z) (readys : list (nat -> bool)) :
  below_max startupBlock -> blocks_below_max events -> below_max number ->
  let w := run events (createBlockCounter startupBlock) in
  let w' := run (receive number readys) w in
  let latest := latestBlockHeight (ebc w) in
  pc w = Receiving ->
  latest < Uint64 number ->
  length readys = Datatypes.S (Z.to_nat (Uint64 number - latest)) ->
  crash w' = None ->
  (woken_events (log w')
   ≡ₚ woken_events (log w)
      ++ waiters_from (waiters (ebc w)) (latest + 1)
           (Z.to_nat (Uint64 number - latest))) /\
  (forall h, waiters (ebc w') !! h
             = if decide (latest < h <= Uint64 number) then None
               else waiters (ebc w) !! h).
Proof.
  intros Hstart Hmax Hnumber w w' latest Hpc Hlt Hlen Hlive.
  destruct (block_starts_senders startupBlock events number readys Hstart
              Hmax Hnumber Hpc Hlt Hlen Hlive) as [Hsenders Hmap].
  split; [|exact Hmap].
  fold w w' latest in Hsenders. by rewrite Hsenders.
Qed.

(** Watchers see the heights in order. Under the same conditions, a
    watcher that is listed with a live context receives, of the heights
    above the latest one up to the height of the block, exactly those at
    whose pass it is ready, in increasing order, after what it had
    received before. *)
Theorem block_reaches_watcher (startupBlock : Z) (events : list event)
  (number : Z) (readys : list (nat -> bool)) (x : watcher) :
  below_max startupBlock -> blocks_below_max events -> below_max number ->
  let w := run events (createBlockCounter startupBlock) in
  let w' := run (receive number readys) w in
  let latest := latestBlockHeight (ebc w) in
  pc w = Receiving ->
  latest < Uint64 number ->
  length readys = Datatypes.S (Z.to_nat (Uint64 number - latest)) ->
  crash w' = None ->
  x ∈ watchers (ebc w) -> ctx x ∉ cancelled w ->
  delivered_to (channel x) (log w')
  = delivered_to (channel x) (log w)
    ++ heights_taken (channel x) readys (latest + 1)
         (Z.to_nat (Uint64 number - latest)).
Proof.
  intros Hstart Hmax Hnumber w w' latest Hpc Hlt Hlen Hlive Hx Hctx.
  destruct (world_ok_run events _ (world_ok_start startupBlock Hstart) Hmax)
    as [(Hok & (Hnodup & _) & _) _]. fold w in Hok, Hnodup.
  unfold w', receive in *. rewrite run_cons in *.
  destruct (crash w) as [msg|] eqn:Hcrash.
  { rewrite (step_crashed w _ msg Hcrash), (run_crashed _ w msg Hcrash) in Hlive.
    congruence. }
  destruct (after_block w number Hok Hpc Hcrash Hnumber Hlt)
    as (Hok1 & Hpc1 & Hebc1 & Hlog1 & Hcancelled1).
  fold latest in Hpc1.
  destruct (inner_loop_effects readys _ _ _ Hok1 Hpc1) as (_ & _ & Hdel);
    [rewrite Hlen; f_equal; lia|done|].
  rewrite Hlog1, Hebc1, Hcancelled1 in Hdel.
  replace (Z.to_nat (Uint64 number + 1 - (latest + 1)))
    with (Z.to_nat (Uint64 number - latest)) in Hdel by lia.
  by apply Hdel.
Qed.

(** The run of the slow consumer again, split after its first two events:
    the block 103 then meets one watcher and one waiter of 102. *)
Lemma slow_consumer_prefix_below_max :
  blocks_below_max [CallWatchBlocks 0; CallWaitForBlockHeight 102].
Proof.
  intros number Hin.
  repeat (apply elem_of_cons in Hin as [Heq|Hin]; [discriminate|]).
  by apply elem_of_nil in Hin.
Qed.

Lemma block_is_handled_witness :
  pc (run slow_consumer_events (createBlockCounter 100)) = Receiving /\
  latestBlockHeight (ebc (run slow_consumer_events (createBlockCounter 100)))
  = 103.
Proof.
  exact (block_is_handled 100 [CallWatchBlocks 0; CallWaitForBlockHeight 102]
           103 [always_ready; fun _ => false; always_ready; always_ready]
           ltac:(reflexivity) slow_consumer_prefix_below_max
           ltac:(reflexivity) eq_refl ltac:(reflexivity) eq_refl eq_refl).
Defined.

Lemma block_serves_exactly_its_waiters_witness :
  woken_events (log (run slow_consumer_events (createBlockCounter 100)))
  ≡ₚ [(1%nat, 102)].
Proof.
  exact (proj1
           (block_serves_exactly_its_waiters 100
              [CallWatchBlocks 0; CallWaitForBlockHeight 102]
              103 [always_ready; fun _ => false; always_ready; always_ready]
              ltac:(reflexivity) slow_consumer_prefix_below_max
              ltac:(reflexivity) eq_refl ltac:(reflexivity) eq_refl eq_refl)).
Defined.

Lemma block_reaches_watcher_witness :
  delivered_to 0 (log (run slow_consumer_events (createBlockCounter 100)))
  = [101; 103].
Proof.
  refine (block_reaches_watcher 100
            [CallWatchBlocks 0; CallWaitForBlockHeight 102]
            103 [always_ready; fun _ => false; always_ready; always_ready]
            (mkWatcher 0 0)
            ltac:(reflexivity) slow_consumer_prefix_below_max
            ltac:(reflexivity) eq_refl ltac:(reflexivity) eq_refl eq_refl _ _).
  - left.
  - apply not_elem_of_empty.
Defined.

(** *** When a pass panics *)

Lemma notify_watchers_panics cancelled ready height ws closed :
  NoDup (channel <$> ws) ->
  is_Some (notify_watchers cancelled ready height ws closed).2 <->
  exists x, x ∈ ws /\ channel x ∈ closed.
Proof.
  revert closed. induction ws as [|x rest IH]; intros closed Hnodup.
  - cbn. split; [intros [? ?]; done|].
    intros (x & Hx & _). by apply elem_of_nil in Hx.
  - rewrite fmap_cons in Hnodup. apply NoDup_cons in Hnodup as [Hx Hnodup].
    cbn [notify_watchers].
    assert (forall c : gset nat,
              (exists y, y ∈ rest /\ channel y ∈ {[channel x]} ∪ c)
                      <-> exists y, y ∈ rest /\ channel y ∈ c) as Hskip.
    { intros c. split; intros (y & Hy & Hc); exists y; (split; [done|]).
      - apply elem_of_union in Hc as [Hc|Hc]; [|done].
        apply elem_of_singleton in Hc. exfalso. apply Hx. rewrite <- Hc.
        by apply list_elem_of_fmap_2.
      - apply elem_of_union. by right. }
    assert ((exists y, y ∈ x :: rest /\ channel y ∈ closed)
            <-> channel x ∈ closed \/ exists y, y ∈ rest /\ channel y ∈ closed)
      as Hcons.
    { split.
      - intros (y & Hy & Hc). apply elem_of_cons in Hy as [->|Hy]; [by left|].
        right. by exists y.
      - intros [Hc|(y & Hy & Hc)]; [exists x; split; [left|done]|].
        exists y. split; [by right|done]. }
    rewrite Hcons. repeat case_decide.
    + cbn. split; [by left|by eexists].
    + destruct (notify_watchers cancelled ready height rest ({[channel x]} ∪ closed))
        as [[c1 es1] p1] eqn:Hrest.
      specialize (IH ({[channel x]} ∪ closed) Hnodup). rewrite Hrest in IH.
      cbn [snd] in *. rewrite IH, Hskip. split; [by right|].
      intros [?|?]; done.
    + cbn. split; [by left|by eexists].
    + destruct (notify_watchers cancelled ready height rest closed)
        as [[c1 es1] p1] eqn:Hrest.
      specialize (IH closed Hnodup). rewrite Hrest in IH. cbn [snd] in IH.
      destruct (ready (channel x)); cbn [snd]; rewrite IH;
        (split; [by right|intros [?|?]; done]).
Qed.

(** A pass of the loop panics exactly when the channel of a listed watcher
    is already closed: for block numbers below the largest [uint64], in a
    world the counter reaches while it is in the loop with heights left,
    the next pass ends the process if and only if some watcher in the list
    holds a closed channel. *)
Theorem pass_panics_on_closed_channel (startupBlock : Z)
  (events : list event) (ready : nat -> bool) (u r : Z) :
  below_max startupBlock -> blocks_below_max events ->
  let w := run events (createBlockCounter startupBlock) in
  pc w = Looping u r -> u <= r -> crash w = None ->
  is_Some (crash (step w (Iterate ready))) <->
  exists x, x ∈ watchers (ebc w) /\ channel x ∈ closed w.
Proof.
  intros Hstart Hmax w Hpc Hle Hcrash.
  destruct (world_ok_run events _ (world_ok_start startupBlock Hstart) Hmax)
    as [(_ & (Hnodup & _) & _) _]. fold w in Hnodup.
  unfold step. rewrite Hcrash.
  destruct (iterate_looping ready w u r Hpc Hle)
    as (closed' & effects & panic & Hnotify & ->).
  cbn [crash].
  pose proof (notify_watchers_panics (cancelled w) ready u (watchers (ebc w))
                (closed w) Hnodup) as Hiff.
  by rewrite Hnotify in Hiff.
Qed.

Lemma stale_watcher_prefix_below_max :
  blocks_below_max ([CallWatchBlocks 0; ContextDone 0] ++ one_block 101 ++ [Block 102]).
Proof.
  intros number Hin. cbn in Hin.
  repeat (apply elem_of_cons in Hin as [Heq|Hin];
          [try discriminate; injection Heq as ->; reflexivity|]).
  by apply elem_of_nil in Hin.
Qed.

Lemma pass_panics_on_closed_channel_witness :
  is_Some (crash (run stale_watcher_events (createBlockCounter 100))).
Proof.
  refine (proj2 (pass_panics_on_closed_channel 100
                   ([CallWatchBlocks 0; ContextDone 0] ++ one_block 101 ++ [Block 102])
                   always_ready 102 102 ltac:(reflexivity)
                   stale_watcher_prefix_below_max eq_refl ltac:(lia) eq_refl) _).
  exists (mkWatcher 0 0). split; [left|].
  vm_compute. reflexivity.
Defined.

(** *** The pace of [subscribeBlocks] *)

Lemma pace_app l1 l2 : pace (l1 ++ l2) = pace l1 ++ pace l2.
Proof. apply omap_app. Qed.

Lemma pace_headers (headers : list Z) : pace (Forward <$> headers) = [].
Proof. induction headers as [|h rest IH]; [done|]. by cbn. Qed.

Lemma pace_subscribe (a : attempt) : pace (subscribe a) = [SubscribeNewHead 10].
Proof.
  destruct a as [err|headers err]; [done|].
  unfold subscribe. rewrite !pace_app, pace_headers. reflexivity.
Qed.

(** [subscribeBlocks] never resubscribes at once: between any two
    subscription requests there is exactly one sleep of five seconds, every
    request is made with a timeout of ten seconds, and the last thing it has
    done after any number of failures is to subscribe again. *)
Theorem resubscribe_pace (failed : list attempt) :
  pace (resubscribe failed)
  = concat (replicate (length failed) [SubscribeNewHead 10; Sleep 5])
    ++ [SubscribeNewHead 10].
Proof.
  induction failed as [|a rest IH]; [done|].
  cbn [resubscribe length replicate concat].
  rewrite !pace_app, pace_subscribe, IH. reflexivity.
Qed.

End BlockCounterFacts.

(** ** Package local: the in-memory chain *)

Module LocalChainFacts.

Import LocalChain.

Section Chain.

Variable Address_String : Address -> string.

(** C10. [CreateKeep] with an address that is already in the keep map
    returns an error that names the address and leaves the chain as it is,
    starting no handler. With an address that is not in the map it returns
    no error, adds a keep with no signature handler and the public key of
    64 zero bytes under that address, leaves the other keeps and the
    handlers as they are, and starts exactly one call per registered
    keep-created handler, each with the event that carries the address and
    the given members. *)
Theorem CreateKeep_spec (c : LocalChain) (keepAddress : Address)
  (members : list Address) :
  (is_Some (keeps c !! keepAddress) ->
   CreateKeep Address_String c keepAddress members
   = (c, [],
      Some ("keep already exists for address ["
            +:+ Address_String keepAddress +:+ "]"))) /\
  (keeps c !! keepAddress = None ->
   exists c' started,
     CreateKeep Address_String c keepAddress members = (c', started, None) /\
     keeps c' !! keepAddress = Some (mkLocalKeep ∅ zero_public_key) /\
     length zero_public_key = 64%nat /\
     Forall (fun b => b = x00) zero_public_key /\
     (forall a, a <> keepAddress -> keeps c' !! a = keeps c !! a) /\
     keepCreatedHandlers c' = keepCreatedHandlers c /\
     length started = size (keepCreatedHandlers c) /\
     (forall handler,
        (exists k, keepCreatedHandlers c !! k = Some handler) <->
        KeepCreated handler (mkKeepCreated keepAddress members) ∈ started) /\
     (forall s, s ∈ started ->
        exists handler,
          s = KeepCreated handler (mkKeepCreated keepAddress members))).
Proof.
  unfold CreateKeep. split.
  - intros [keep Hkeep]. by rewrite Hkeep.
  - intros Hfree. rewrite Hfree. eexists _, _. split; [reflexivity|].
    cbn [keeps keepCreatedHandlers].
    split; [apply lookup_insert_eq|].
    split; [reflexivity|].
    split; [by apply Forall_replicate|].
    split; [intros a Ha; by rewrite lookup_insert_ne|].
    split; [reflexivity|].
    split; [by rewrite length_fmap, length_map_to_list|].
    split.
    + intros handler. rewrite list_elem_of_fmap. split.
      * intros [k Hk]. exists (k, handler). split; [done|].
        by apply elem_of_map_to_list.
      * intros ([k h] & Heq & Hin). injection Heq as ->. exists k.
        by apply elem_of_map_to_list.
    + intros s Hs. apply list_elem_of_fmap in Hs as ([k h] & -> & _).
      by exists h.
Qed.

(** C8. A request for a signature of a keep whose address is not in the
    keep map returns the error "failed to find keep with address: [...]"
    with the address in the brackets, leaves the chain as it is and calls
    no signature-requested handler. *)
Theorem requestSignature_unknown_keep (c : LocalChain) (keepAddress : Address)
  (digest : list byte) :
  keeps c !! keepAddress = None ->
  requestSignature Address_String c keepAddress digest
  = (c, [],
     Some ("failed to find keep with address: ["
           +:+ Address_String keepAddress +:+ "]")).
Proof.
  intros Hnone. unfold requestSignature. by rewrite Hnone.
Qed.

End Chain.

(** The request of the test: no keep, address 1, digest 1 followed by
    zeros. *)
Lemma requestSignature_unknown_keep_witness :
  requestSignature Address_Hex initializeLocalChain 1 (x01 :: replicate 31 x00)
  = (initializeLocalChain, [],
     Some "failed to find keep with address: [0x0000000000000000000000000000000000000001]").
Proof.
  exact (requestSignature_unknown_keep Address_Hex initializeLocalChain 1
           (x01 :: replicate 31 x00) eq_refl).
Defined.

(** A chain with one handler and no keep: creating the keep of address 1
    puts it into the map; creating it again is refused. *)
Lemma CreateKeep_spec_witness :
  (exists c' started,
     CreateKeep Address_Hex (mkLocalChain ∅ {[0 := 7%nat]}) 1 [2%N; 3%N]
     = (c', started, None) /\
     keeps c' !! 1%N = Some (mkLocalKeep ∅ zero_public_key) /\
     KeepCreated 7 (mkKeepCreated 1 [2%N; 3%N]) ∈ started) /\
  CreateKeep Address_Hex
    (mkLocalChain {[1%N := mkLocalKeep ∅ zero_public_key]} {[0 := 7%nat]})
    1 [2%N; 3%N]
  = (mkLocalChain {[1%N := mkLocalKeep ∅ zero_public_key]} {[0 := 7%nat]}, [],
     Some "keep already exists for address [0x0000000000000000000000000000000000000001]").
Proof.
  split.
  - destruct (proj2 (CreateKeep_spec Address_Hex
                       (mkLocalChain ∅ {[0 := 7%nat]}) 1 [2%N; 3%N])
                (lookup_empty 1%N))
      as (c' & started & Heq & Hkeep & _ & _ & _ & _ & _ & Hcalls & _).
    exists c', started. split; [exact Heq|]. split; [exact Hkeep|].
    apply Hcalls. exists 0. reflexivity.
  - apply (proj1 (CreateKeep_spec Address_Hex
                    (mkLocalChain {[1%N := mkLocalKeep ∅ zero_public_key]}
                       {[0 := 7%nat]}) 1 [2%N; 3%N])).
    eexists. reflexivity.
Defined.

Example Address_Hex_example :
  Address_Hex 255 = "0x00000000000000000000000000000000000000ff".
Proof. reflexivity. Qed.

Section MoreChain.

Variable Address_String : Address -> string.

(** Creating a keep twice: after a call of [CreateKeep] that succeeds, a
    second call with the same address, whatever its members, returns the
    error that names the address, starts no handler and leaves the chain as
    the first call left it. *)
Theorem CreateKeep_twice (c : LocalChain) (keepAddress : Address)
  (members members' : list Address) :
  keeps c !! keepAddress = None ->
  let first := CreateKeep Address_String c keepAddress members in
  first.2 = None /\
  CreateKeep Address_String first.1.1 keepAddress members'
  = (first.1.1, [],
     Some ("keep already exists for address ["
           +:+ Address_String keepAddress +:+ "]")).
Proof.
  intros Hfree first.
  assert (first
          = (mkLocalChain
               (<[keepAddress := mkLocalKeep ∅ zero_public_key]> (keeps c))
               (keepCreatedHandlers c),
             (fun kh => KeepCreated kh.2 (mkKeepCreated keepAddress members))
               <$> map_to_list (keepCreatedHandlers c),
             None)) as ->.
  { unfold first, CreateKeep. by rewrite Hfree. }
  cbn [fst snd]. split; [done|].
  unfold CreateKeep. cbn [keeps]. by rewrite lookup_insert_eq.
Qed.

(** Keeps are created independently: two calls of [CreateKeep] with
    different addresses that are both free succeed in either order and
    lead to the same chain. *)
Theorem CreateKeep_order (c : LocalChain) (a b : Address)
  (members_a members_b : list Address) :
  a <> b -> keeps c !! a = None -> keeps c !! b = None ->
  let ab :=
    CreateKeep Address_String
      (CreateKeep Address_String c a members_a).1.1 b members_b in
  let ba :=
    CreateKeep Address_String
      (CreateKeep Address_String c b members_b).1.1 a members_a in
  ab.2 = None /\ ba.2 = None /\ ab.1.1 = ba.1.1.
Proof.
  intros Hne Ha Hb ab ba.
  assert (forall x ms, keeps c !! x = None ->
            CreateKeep Address_String c x ms
            = (mkLocalChain
                 (<[x := mkLocalKeep ∅ zero_public_key]> (keeps c))
                 (keepCreatedHandlers c),
               (fun kh => KeepCreated kh.2 (mkKeepCreated x ms))
                 <$> map_to_list (keepCreatedHandlers c),
               None)) as Hfirst.
  { intros x ms Hx. unfold CreateKeep. by rewrite Hx. }
  unfold ab, ba. rewrite (Hfirst a members_a Ha), (Hfirst b members_b Hb).
  cbn [fst snd]. unfold CreateKeep. cbn [keeps keepCreatedHandlers].
  rewrite !lookup_insert_ne by done. rewrite Ha, Hb. cbn [fst snd].
  split; [done|]. split; [done|]. f_equal.
  by apply insert_insert_ne.
Qed.

End MoreChain.

Lemma CreateKeep_twice_witness :
  CreateKeep Address_Hex
    (CreateKeep Address_Hex initializeLocalChain 1 [2%N]).1.1 1 [3%N]
  = ((CreateKeep Address_Hex initializeLocalChain 1 [2%N]).1.1, [],
     Some "keep already exists for address [0x0000000000000000000000000000000000000001]").
Proof.
  exact (proj2 (CreateKeep_twice Address_Hex initializeLocalChain 1 [2%N] [3%N]
                  (lookup_empty 1%N))).
Defined.

Lemma CreateKeep_order_witness :
  (CreateKeep Address_Hex
     (CreateKeep Address_Hex initializeLocalChain 1 [2%N]).1.1 5 [6%N]).1.1
  = (CreateKeep Address_Hex
       (CreateKeep Address_Hex initializeLocalChain 5 [6%N]).1.1 1 [2%N]).1.1.
Proof.
  exact (proj2 (proj2 (CreateKeep_order Address_Hex initializeLocalChain 1 5
                         [2%N] [6%N] ltac:(discriminate)
                         (lookup_empty 1%N) (lookup_empty 5%N)))).
Defined.

End LocalChainFacts.

(** ** The contract ECDSAKeep *)

Module ECDSAKeepFacts.

Import ECDSAKeep GoFacts.

Section EVM.

Variable keccak256 : list byte -> Z.
Variable ecrecover : Z -> Z -> Z -> Z -> Z.

(** C7. [submitSignature] reverts for every recovery id of four or more.
    When it succeeds, the recovery id is below four, the address recovered
    from the digest with [v = recoveryID + 27], [r] and [s] is the address of
    the stored public key, the signing-in-progress flag is cleared and the
    submitted signature is logged with the recovery id as given. It
    succeeds whenever a member calls it while a signing is in progress with
    a recovery id below four and a signature that recovers to that address,
    and it reverts whenever the signature does not. *)
Theorem submitSignature_spec (msg_sender : Z) (st : storage)
  (_digest _r _s : Z) (_recoveryID : byte) :
  let v := int_of_byte _recoveryID + 27 in
  let submit :=
    submitSignature keccak256 ecrecover msg_sender st _digest _r _s _recoveryID in
  (4 <= int_of_byte _recoveryID ->
   exists reason, submit = Revert reason) /\
  (publicKeyToAddress keccak256 (publicKey st) <> ecrecover _digest v _r _s ->
   exists reason, submit = Revert reason) /\
  (forall result, submit = Success result ->
     0 <= int_of_byte _recoveryID < 4 /\
     publicKeyToAddress keccak256 (publicKey st) = ecrecover _digest v _r _s /\
     result = signature_submitted st _digest _r _s _recoveryID /\
     isSigningInProgress (fst result) = false) /\
  (contains (members st) msg_sender = true ->
   isSigningInProgress st = true ->
   int_of_byte _recoveryID < 4 ->
   publicKeyToAddress keccak256 (publicKey st) = ecrecover _digest v _r _s ->
   submit = Success (signature_submitted st _digest _r _s _recoveryID)).
Proof.
  intros v submit. unfold submit, submitSignature.
  pose proof (int_of_byte_range _recoveryID) as Hrange.
  assert (int_of_byte _recoveryID < 4 ->
          (27 + int_of_byte _recoveryID) mod 256 = v) as Hv.
  { intros Hlt. unfold v. rewrite Z.mod_small; lia. }
  destruct (contains (members st) msg_sender) eqn:Hmember; cbn [negb];
    [|repeat split; intros; try discriminate; try (by eexists)].
  destruct (isSigningInProgress st) eqn:Hbusy; cbn [negb];
    [|repeat split; intros; try discriminate; try (by eexists)].
  destruct (Z.ltb_spec (int_of_byte _recoveryID) 4) as [Hlt|Hge]; cbn [negb];
    [|repeat split; intros; try discriminate; try lia; try (by eexists)].
  rewrite (Hv Hlt).
  destruct (Z.eqb_spec (publicKeyToAddress keccak256 (publicKey st))
              (ecrecover _digest v _r _s)) as [Heq|Hne]; cbn [negb].
  - split; [intros; lia|]. split; [intros; done|]. split.
    + intros result Hresult. injection Hresult as <-.
      split; [lia|]. split; [done|]. split; [done|]. reflexivity.
    + intros. reflexivity.
  - split; [intros; by eexists|]. split; [intros; by eexists|].
    split; [intros; discriminate|]. intros. done.
Qed.

End EVM.

(** A keep with the members 10 and 11 that is signing since block 5, on a
    machine whose [ecrecover] always yields the address 9 of the stored
    key: member 10 submits with recovery id 1. *)
Lemma submitSignature_spec_witness :
  submitSignature (fun _ => 9) (fun _ _ _ _ => 9) 10
    (mkStorage 1 [10; 11] 2 [] 5) 42 43 44 x01
  = Success (mkStorage 1 [10; 11] 2 [] 0, [SignatureSubmitted 42 43 44 1]).
Proof.
  refine (proj2 (proj2 (proj2
    (submitSignature_spec (fun _ => 9) (fun _ _ _ _ => 9) 10
       (mkStorage 1 [10; 11] 2 [] 5) 42 43 44 x01))) _ _ _ _);
    reflexivity.
Defined.

Example submitSignature_recovery_id_4 :
  submitSignature (fun _ => 9) (fun _ _ _ _ => 9) 10
    (mkStorage 1 [10; 11] 2 [] 5) 42 43 44 x04
  = Revert "Recovery ID must be one of {0, 1, 2, 3}".
Proof. reflexivity. Qed.

Section MoreEVM.

Variable keccak256 : list byte -> Z.
Variable ecrecover : Z -> Z -> Z -> Z -> Z.

(** One signing at a time. When the owner calls [sign] at a block other
    than block zero while no signing is in progress, the request is logged
    and a signing is in progress; until a signature is accepted every
    further [sign] reverts as busy; a member's signature that recovers to
    the address of the stored key is accepted for any digest, the requested
    one or another, since the contract does not keep the digest; after it,
    a second submission reverts and [sign] is open again. *)
Theorem one_signing_at_a_time (st : storage) (block_number _digest : Z) :
  isSigningInProgress st = false -> block_number <> 0 ->
  let requested :=
    mkStorage (owner st) (members st) (honestThreshold st) (publicKey st)
      block_number in
  let idle :=
    mkStorage (owner st) (members st) (honestThreshold st) (publicKey st) 0 in
  sign (owner st) block_number st _digest
  = Success (requested, [SignatureRequested _digest]) /\
  (forall b d, sign (owner st) b requested d = Revert "Signer is busy") /\
  (forall sender d r s rid,
     contains (members st) sender = true ->
     int_of_byte rid < 4 ->
     publicKeyToAddress keccak256 (publicKey st)
     = ecrecover d (int_of_byte rid + 27) r s ->
     submitSignature keccak256 ecrecover sender requested d r s rid
     = Success (idle, [SignatureSubmitted d r s (int_of_byte rid)])) /\
  (forall sender d r s rid,
     contains (members st) sender = true ->
     submitSignature keccak256 ecrecover sender idle d r s rid
     = Revert "Signature has been already submitted") /\
  (forall b d,
     sign (owner st) b idle d
     = Success
         (mkStorage (owner st) (members st) (honestThreshold st)
            (publicKey st) b,
          [SignatureRequested d])).
Proof.
  intros Hidle Hblock requested idle.
  assert (forall t, onlyOwner (owner t) t = true) as Howner.
  { intros t. unfold onlyOwner. apply Z.eqb_refl. }
  assert (isSigningInProgress requested = true) as Hbusy.
  { unfold isSigningInProgress, requested. cbn [currentSigningStartBlock].
    by destruct (Z.eqb_spec block_number 0). }
  split; [|split; [|split; [|split]]].
  - unfold sign. by rewrite Howner, Hidle.
  - intros b d. unfold sign. change (owner st) with (owner requested) at 1.
    by rewrite Howner, Hbusy.
  - intros sender d r s rid Hmember Hrid Hsig. unfold submitSignature.
    change (members requested) with (members st).
    change (publicKey requested) with (publicKey st).
    rewrite Hmember, Hbusy. cbn [negb].
    pose proof (int_of_byte_range rid).
    destruct (Z.ltb_spec (int_of_byte rid) 4); [|lia]. cbn [negb].
    replace ((27 + int_of_byte rid) mod 256) with (int_of_byte rid + 27)
      by (rewrite Z.mod_small; lia).
    rewrite <- Hsig, Z.eqb_refl. reflexivity.
  - intros sender d r s rid Hmember. unfold submitSignature.
    change (members idle) with (members st). by rewrite Hmember.
  - intros b d. unfold sign. change (owner st) with (owner idle) at 1.
    by rewrite Howner.
Qed.

(** The public key can be replaced at any time. A member's call of
    [setPublicKey] with a key of 64 bytes succeeds whether or not a signing
    is in progress, leaves that state as it is, and makes [getPublicKey]
    return the new key; every signature accepted afterwards recovers to the
    address of the new key. A key of another length is refused. *)
Theorem setPublicKey_replaces_key (msg_sender : Z) (st : storage)
  (_publicKey : list byte) :
  contains (members st) msg_sender = true ->
  (length _publicKey <> 64%nat ->
   setPublicKey msg_sender st _publicKey
   = Revert "Public key must be 64 bytes long") /\
  (length _publicKey = 64%nat ->
   exists st',
     setPublicKey msg_sender st _publicKey
     = Success (st', [PublicKeyPublished _publicKey]) /\
     getPublicKey st' = _publicKey /\
     isSigningInProgress st' = isSigningInProgress st /\
     forall sender d r s rid result,
       submitSignature keccak256 ecrecover sender st' d r s rid = Success result ->
       publicKeyToAddress keccak256 _publicKey
       = ecrecover d (int_of_byte rid + 27) r s).
Proof.
  intros Hmember. unfold setPublicKey. rewrite Hmember. cbn [negb]. split.
  - intros Hlen. by destruct (Nat.eqb_spec (length _publicKey) 64).
  - intros Hlen. rewrite Hlen. cbn [Nat.eqb negb]. eexists. split; [reflexivity|].
    split; [reflexivity|]. split; [reflexivity|].
    intros sender d r s rid result. unfold submitSignature.
    cbn [members publicKey].
    destruct (contains (members st) sender); [|discriminate]. cbn [negb].
    match goal with |- context [isSigningInProgress ?t] =>
      destruct (isSigningInProgress t) end; [|discriminate]. cbn [negb].
    pose proof (int_of_byte_range rid).
    destruct (Z.ltb_spec (int_of_byte rid) 4); [|discriminate]. cbn [negb].
    replace ((27 + int_of_byte rid) mod 256) with (int_of_byte rid + 27)
      by (rewrite Z.mod_small; lia).
    destruct (Z.eqb_spec (publicKeyToAddress keccak256 _publicKey)
                (ecrecover d (int_of_byte rid + 27) r s)); [done|discriminate].
Qed.

End MoreEVM.

Lemma one_signing_at_a_time_witness :
  sign 1 5 (mkStorage 1 [10; 11] 2 [] 0) 42
  = Success (mkStorage 1 [10; 11] 2 [] 5, [SignatureRequested 42]).
Proof.
  exact (proj1 (one_signing_at_a_time (fun _ => 9) (fun _ _ _ _ => 9)
                  (mkStorage 1 [10; 11] 2 [] 0) 5 42 eq_refl
                  ltac:(discriminate))).
Defined.

Lemma setPublicKey_replaces_key_witness :
  setPublicKey 10 (mkStorage 1 [10; 11] 2 [] 5) [x01]
  = Revert "Public key must be 64 bytes long" /\
  exists st',
    setPublicKey 10 (mkStorage 1 [10; 11] 2 [] 5) (replicate 64 x02)
    = Success (st', [PublicKeyPublished (replicate 64 x02)]) /\
    getPublicKey st' = replicate 64 x02 /\
    isSigningInProgress st' = true.
Proof.
  split.
  - exact (proj1 (setPublicKey_replaces_key (fun _ => 9) (fun _ _ _ _ => 9) 10
                    (mkStorage 1 [10; 11] 2 [] 5) [x01] eq_refl)
             ltac:(discriminate)).
  - destruct (proj2 (setPublicKey_replaces_key (fun _ => 9) (fun _ _ _ _ => 9)
                       10 (mkStorage 1 [10; 11] 2 [] 5) (replicate 64 x02)
                       eq_refl) eq_refl)
      as (st' & Hcall & Hkey & Hstate & _).
    exists st'. split; [exact Hcall|]. split; [exact Hkey|]. exact Hstate.
Defined.

(** *** Distributing ether *)

Lemma total_sent_shares (members : list Z) (dividend : Z) :
  total_sent ((fun m => (m, dividend)) <$> members)
  = Z.of_nat (length members) * dividend.
Proof.
  induction members as [|m rest IH]; [done|].
  cbn [fmap list_fmap total_sent foldr length snd].
  fold (total_sent ((fun m => (m, dividend)) <$> rest)).
  rewrite IH. lia.
Qed.

Lemma distribute_loop_ends (members : list Z) (dividend : Z) (rem : nat) :
  Z.of_nat (length members) < 2 ^ 16 ->
  forall (k gas : nat) (sent : list (Z * Z)),
    (k + rem = length members)%nat -> (rem < gas)%nat ->
    distribute_loop gas (Z.of_nat k) members dividend sent
    = Some (sent ++ ((fun m => (m, dividend)) <$> drop k members)).
Proof.
  intros Hsmall. induction rem as [|rem IH]; intros k gas sent Hk Hgas.
  - destruct gas as [|gas]; [lia|]. cbn [distribute_loop].
    destruct (Z.ltb_spec (Z.of_nat k) (Z.of_nat (length members))); [lia|].
    rewrite drop_ge by lia. by rewrite app_nil_r.
  - destruct gas as [|gas]; [lia|]. cbn [distribute_loop].
    destruct (Z.ltb_spec (Z.of_nat k) (Z.of_nat (length members))); [|lia].
    rewrite Nat2Z.id.
    destruct (lookup_lt_is_Some_2 members k ltac:(lia)) as [m Hm].
    rewrite Hm. rewrite Z.mod_small by lia.
    replace (Z.of_nat k + 1) with (Z.of_nat (Datatypes.S k)) by lia.
    rewrite IH by lia. rewrite (drop_S _ _ _ Hm).
    by rewrite <- app_assoc.
Qed.

Lemma distribute_loop_never_ends (members : list Z) (dividend : Z) (gas : nat) :
  2 ^ 16 <= Z.of_nat (length members) ->
  forall (i : Z) (sent : list (Z * Z)),
    0 <= i < 2 ^ 16 ->
    distribute_loop gas i members dividend sent = None.
Proof.
  intros Hlarge. induction gas as [|gas IH]; intros i sent Hi; [done|].
  cbn [distribute_loop].
  destruct (Z.ltb_spec i (Z.of_nat (length members))); [|lia].
  destruct (lookup_lt_is_Some_2 members (Z.to_nat i) ltac:(lia)) as [m Hm].
  rewrite Hm. apply IH. apply Z.mod_pos_bound. lia.
Qed.

(** The shares of [distributeETHToMembers]: with no member the call
    reverts on the division, and with a value below the number of members
    it reverts on the zero dividend. With at least one and fewer than
    [2 ^ 16] members, a value of at least their number and gas for one pass
    per member and one more, it makes one [send] to every member, in the
    order of the list, each of the same share, the value divided by the
    number of members rounded down; what is sent never exceeds the value,
    and less than one unit per member is left over. *)
Theorem distributeETHToMembers_shares (gas : nat) (st : storage)
  (msg_value : Z) :
  0 <= msg_value ->
  let n := Z.of_nat (length (members st)) in
  (n = 0 ->
   exists reason, distributeETHToMembers gas st msg_value = Revert reason) /\
  (0 < n -> msg_value < n ->
   distributeETHToMembers gas st msg_value
   = Revert "dividend value must be non-zero") /\
  (0 < n < 2 ^ 16 -> n <= msg_value -> (length (members st) < gas)%nat ->
   exists sent,
     distributeETHToMembers gas st msg_value = Success sent /\
     sent = (fun m => (m, msg_value / n)) <$> members st /\
     total_sent sent = n * (msg_value / n) /\
     total_sent sent <= msg_value /\
     msg_value - total_sent sent = msg_value mod n /\
     msg_value - total_sent sent < n).
Proof.
  intros Hvalue n. unfold distributeETHToMembers. fold n. split; [|split].
  - intros ->. eexists. reflexivity.
  - intros Hn Hlt. destruct (Z.eqb_spec n 0); [lia|].
    rewrite Z.div_small by lia. reflexivity.
  - intros Hn Hle Hgas. destruct (Z.eqb_spec n 0); [lia|].
    assert (0 < msg_value / n) as Hdiv by (apply Z.div_str_pos; lia).
    destruct (Z.ltb_spec 0 (msg_value / n)); [|lia]. cbn [negb].
    pose proof (distribute_loop_ends (members st) (msg_value / n)
                  (length (members st)) ltac:(fold n; lia) 0%nat gas []
                  eq_refl Hgas) as Hloop.
    change (Z.of_nat 0) with 0 in Hloop. rewrite Hloop.
    rewrite drop_0. cbn [app]. eexists. split; [reflexivity|].
    split; [reflexivity|]. rewrite total_sent_shares. fold n.
    pose proof (Z.div_mod msg_value n ltac:(lia)) as Hdm.
    pose proof (Z.mod_pos_bound msg_value n ltac:(lia)) as Hmod.
    repeat split; lia.
Qed.

(** A keep of [2 ^ 16] members or more cannot distribute: the loop counter
    is a [uint16], which wraps before it reaches the number of members, so
    that whatever gas the call is given runs out and the call reverts. *)
Theorem distributeETHToMembers_never_ends (gas : nat) (st : storage)
  (msg_value : Z) :
  2 ^ 16 <= Z.of_nat (length (members st)) ->
  Z.of_nat (length (members st)) <= msg_value ->
  distributeETHToMembers gas st msg_value = Revert "out of gas".
Proof.
  intros Hlarge Hle. unfold distributeETHToMembers.
  set (n := Z.of_nat (length (members st))) in *.
  destruct (Z.eqb_spec n 0); [lia|].
  assert (0 < msg_value / n) as Hdiv by (apply Z.div_str_pos; lia).
  destruct (Z.ltb_spec 0 (msg_value / n)); [|lia]. cbn [negb].
  by rewrite (distribute_loop_never_ends (members st) (msg_value / n) gas
                Hlarge 0 [] ltac:(lia)).
Qed.

Lemma distributeETHToMembers_shares_witness :
  exists sent,
    distributeETHToMembers 4 (mkStorage 1 [10; 11; 12] 2 [] 0) 100 = Success sent /\
    sent = (fun m => (m, 100 / 3)) <$> [10; 11; 12] /\
    total_sent sent = 3 * (100 / 3) /\
    total_sent sent <= 100 /\
    100 - total_sent sent = 100 mod 3 /\
    100 - total_sent sent < 3.
Proof.
  refine (proj2 (proj2 (distributeETHToMembers_shares 4
                          (mkStorage 1 [10; 11; 12] 2 [] 0) 100 _)) _ _ _).
  - lia.
  - cbn. lia.
  - cbn. lia.
  - cbn. lia.
Defined.

Example distributeETHToMembers_example :
  distributeETHToMembers 4 (mkStorage 1 [10; 11; 12] 2 [] 0) 100
  = Success [(10, 33); (11, 33); (12, 33)].
Proof. reflexivity. Qed.

Lemma distributeETHToMembers_never_ends_witness :
  distributeETHToMembers 1000 (mkStorage 1 (replicate (Z.to_nat 65536) 10) 2 [] 0) 70000
  = Revert "out of gas".
Proof.
  refine (distributeETHToMembers_never_ends 1000
            (mkStorage 1 (replicate (Z.to_nat 65536) 10) 2 [] 0) 70000 _ _);
    cbn [members]; rewrite length_replicate; lia.
Defined.

End ECDSAKeepFacts.
